(** * showVisitSkyMap: a shallow embedding of examples/showVisitSkyMap.py

    The script plots the sky footprint of the sensors of a set of visits and,
    optionally, the patches of a sky map.  Its numbers are Python floats
    (IEEE binary64), modelled by Rocq's primitive floats; its helper
    [percent] is duck-typed, so it is stated once over an interface of
    Python numbers and read at two instances: [float] (what [main] passes)
    and [Qc] (normalised rationals, Python's [fractions.Fraction]). *)

From Stdlib Require Import ZArith QArith Qcanon Floats Ascii.
From stdpp Require Import gmap strings list pretty.

Set Warnings "-inexact-float".
#[local] Open Scope Z_scope.

(** ** Exceptions and results *)

Inductive exn : Type :=
| ValueError
| KeyError
| TypeError
| IndexError
| ExternalError (what : string).

Inductive result (A : Type) : Type :=
| Ok (a : A)
| Raise (e : exn).
Arguments Ok {A} a.
Arguments Raise {A} e.

Definition is_ok {A} (r : result A) : bool :=
  match r with Ok _ => true | Raise _ => false end.

Definition rbind {A B} (r : result A) (k : A -> result B) : result B :=
  match r with
  | Ok a => k a
  | Raise e => Raise e
  end.

Fixpoint rmapM {A B} (f : A -> result B) (l : list A) : result (list B) :=
  match l with
  | [] => Ok []
  | x :: xs =>
      rbind (f x) (fun y => rbind (rmapM f xs) (fun ys => Ok (y :: ys)))
  end.

(** ** Python numbers

    The operations of a Python number that [percent], [min], [max] and the
    statements about them use: [+], [-], [*], [/], [<] and [==].  [x > y]
    is read as [y < x]. *)

Class PyNumber (A : Type) : Type := {
  py_add : A -> A -> A;
  py_sub : A -> A -> A;
  py_mul : A -> A -> A;
  py_div : A -> A -> A;
  py_lt : A -> A -> bool;
  py_eq : A -> A -> bool
}.

#[export] Instance float_number : PyNumber float := {|
  py_add := PrimFloat.add;
  py_sub := PrimFloat.sub;
  py_mul := PrimFloat.mul;
  py_div := PrimFloat.div;
  py_lt := PrimFloat.ltb;
  py_eq := PrimFloat.eqb
|}.

#[export] Instance fraction_number : PyNumber Qc := {|
  py_add := Qcplus;
  py_sub := Qcminus;
  py_mul := Qcmult;
  py_div := Qcdiv;
  py_lt := fun x y => bool_decide (x < y)%Qc;
  py_eq := fun x y => bool_decide (x = y)
|}.

(** A binary64 value that is neither an infinity nor a NaN. *)
Definition finite64 (x : float) : bool :=
  match Prim2SF x with
  | S754_zero _ | S754_finite _ _ _ => true
  | S754_infinity _ | S754_nan => false
  end.

Section Builtins.
Context {A : Type} `{PyNumber A}.

(** [min(values)] and [max(values)]: the first item is the candidate, a
    later item replaces it when it compares strictly below (above) it;
    [ValueError] on an empty sequence. *)
Definition min_from (first : A) (rest : list A) : A :=
  fold_left (fun m x => if py_lt x m then x else m) rest first.

Definition max_from (first : A) (rest : list A) : A :=
  fold_left (fun m x => if py_lt m x then x else m) rest first.

Definition py_min (values : list A) : result A :=
  match values with
  | [] => Raise ValueError
  | x :: xs => Ok (min_from x xs)
  end.

Definition py_max (values : list A) : result A :=
  match values with
  | [] => Raise ValueError
  | x :: xs => Ok (max_from x xs)
  end.

(** [percent(values, p)]: a value a fraction [p] of the way between the
    min and the max of [values]. *)
Definition percent (values : list A) (p : A) : result A :=
  rbind (py_min values) (fun m =>
  rbind (py_max values) (fun M =>
  let interval := py_sub M m in
  Ok (py_add m (py_mul p interval)))).
End Builtins.

(** The default [p=0.5] of [percent], at floats. *)
Definition percent_default (values : list float) : result float :=
  percent values 0.5%float.


#[export] Instance result_ret : MRet result := @Ok.
#[export] Instance result_bind : MBind result := fun A B k r => rbind r k.

(** ** Geometry

    [Point2I] is a pixel position of a bounding box, [Point2D] the same
    position as doubles, [Coord] a sky position already converted to ICRS
    with its angles in degrees ([toIcrs()], [getRa().asDegrees()],
    [getDec().asDegrees()]). *)

Record Point2I : Type := { getX : Z; getY : Z }.
Record Point2D : Type := { x2D : float; y2D : float }.
Record Coord : Type := { getRa : float; getDec : float }.
Record BBox : Type := { getCorners : list Point2I }.
Record Wcs : Type := { pixelToSky : Point2D -> result Coord }.

(** An [int] pixel coordinate read as a double (exact below 2^53; the
    boxes of the geometry library hold 32-bit integers). *)
Definition float_of_int (z : Z) : float :=
  match z with
  | Z0 => 0%float
  | Zpos _ => of_uint63 (Uint63.of_Z z)
  | Zneg p => (- of_uint63 (Uint63.of_Z (Zpos p)))%float
  end.

Definition toPoint2D (corner : Point2I) : Point2D :=
  {| x2D := float_of_int (getX corner); y2D := float_of_int (getY corner) |}.

(** [ra, dec = zip( *corners)]: unpacking fails when there is no corner. *)
Definition unzip_corners (corners : list (float * float))
  : result (list float * list float) :=
  match corners with
  | [] => Raise ValueError
  | _ :: _ => Ok (map fst corners, map snd corners)
  end.

(** [bboxToRaDec(bbox, wcs)]: the corners of a box as lists of RA and Dec. *)
Definition bboxToRaDec (bbox : BBox) (wcs : Wcs)
  : result (list float * list float) :=
  corners ← rmapM (fun corner =>
               let p := toPoint2D corner in
               coord ← pixelToSky wcs p;
               Ok (getRa coord, getDec coord))
             (getCorners bbox);
  unzip_corners corners.

(** ** The camera, the sky map and the data repository *)

Inductive DetectorType : Type := SCIENCE | FOCUS | GUIDER | WAVEFRONT.

Definition is_SCIENCE (t : DetectorType) : bool :=
  match t with SCIENCE => true | _ => false end.

(** A sensor of the camera; [getSerial] is the sensor's id as the script
    reads it, [int(ccd.getSerial())]. *)
Record Sensor : Type := {
  getBBox : BBox;
  getSerial : Z;
  getType : DetectorType
}.

Record Patch : Type := { getInnerBBox : BBox; getIndex : Z * Z }.
Record Tract : Type := { patches : list Patch; getWcs : Wcs }.

(** What [butler.get] hands back: exposure metadata (header cards) or a
    sky map (its tracts). *)
Inductive PyObject : Type :=
| PropertySet (cards : list (string * string))
| SkyMap (tracts : list Tract).

Record ButlerT : Type := {
  camera : list Sensor;
  butler_get : string -> gmap string Z -> result PyObject
}.

(** ** Plot calls and the trace of external calls *)

Inductive FillStyle : Type :=
| Filled (alpha : float) (color edgecolor : string)
| Outline (edgecolor : string) (lw : Z) (linestyle : string).

Inductive PlotCall : Type :=
| Fill (ra dec : list float) (style : FillStyle)
| Text (x y : float) (s : string) (fontsize : Z)
       (horizontalalignment verticalalignment : string)
| Gca
| SetXlabel (s : string)
| SetYlabel (s : string)
| SetXlim (lim : float * float)
| SetYlim (lim : float * float)
| Gcf
| Savefig (file : string)
| Show.

Inductive Event : Type :=
| EPrint (i_v : nat) (visit : Z)
| EGet (product : string) (dataId : gmap string Z)
| EPlot (call : PlotCall).

(** The collaborators the script calls, each of which may raise. *)
Record Env : Type := {
  Butler : string -> result ButlerT;
  makeWcs : PyObject -> result Wcs;
  pyplot : PlotCall -> result unit
}.

(** ** The script's state: the two point accumulators and the trace.

    A computation threads the state and ends in a value or an exception;
    the state reached when an exception is raised is kept, as in Python. *)

Record State : Type := {
  ras : list float;
  decs : list float;
  trace : list Event
}.

Definition init : State := {| ras := []; decs := []; trace := [] |}.

Definition M (A : Type) : Type := State -> State * result A.

#[export] Instance M_ret : MRet M := fun A a s => (s, Ok a).
#[export] Instance M_bind : MBind M := fun A B k m s =>
  match m s with
  | (s', Ok a) => k a s'
  | (s', Raise e) => (s', Raise e)
  end.

Definition lift {A} (r : result A) : M A := fun s => (s, r).

Definition emit (e : Event) : M unit := fun s =>
  ({| ras := ras s; decs := decs s; trace := trace s ++ [e] |}, Ok tt).

Definition extend_ras (ra : list float) : M unit := fun s =>
  ({| ras := ras s ++ ra; decs := decs s; trace := trace s |}, Ok tt).

Definition extend_decs (dec : list float) : M unit := fun s =>
  ({| ras := ras s; decs := decs s ++ dec; trace := trace s |}, Ok tt).

Definition get_ras : M (list float) := fun s => (s, Ok (ras s)).
Definition get_decs : M (list float) := fun s => (s, Ok (decs s)).

(** [try: body / except: pass] *)
Definition try_pass (body : M unit) : M unit := fun s =>
  match body s with
  | (s', _) => (s', Ok tt)
  end.

Fixpoint for_each {A} (l : list A) (body : A -> M unit) : M unit :=
  match l with
  | [] => mret tt
  | x :: xs => body x;; for_each xs body
  end.

(** [enumerate(l, start)] *)
Fixpoint enumerate_from {A} (start : nat) (l : list A) : list (nat * A) :=
  match l with
  | [] => []
  | x :: xs => (start, x) :: enumerate_from (S start) xs
  end.

Definition enumerate {A} (l : list A) : list (nat * A) := enumerate_from 0 l.

(** ** main *)

Section Main.
Variable env : Env.

(** A plot call is recorded, then made. *)
Definition plot (c : PlotCall) : M unit :=
  emit (EPlot c);; lift (pyplot env c).

(** [butler.get(product, dataId)] *)
Definition get (butler : ButlerT) (product : string) (dataId : gmap string Z)
  : M PyObject :=
  emit (EGet product dataId);; lift (butler_get butler product dataId).

Definition palette : list string := ["r"; "b"; "c"; "g"; "m"]%string.

(** [(ccds is None or ccdId in ccds) and ccd.getType() is cameraGeom.SCIENCE] *)
Definition selected (ccds : option (list Z)) (ccd : Sensor) : bool :=
  match ccds with
  | None => true
  | Some l => bool_decide (getSerial ccd ∈ l)
  end && is_SCIENCE (getType ccd).

(** [{'visit': visit, ccdKey: ccdId}] *)
Definition calexp_dataId (ccdKey : string) (visit ccdId : Z) : gmap string Z :=
  <[ccdKey := ccdId]> {["visit"%string := visit]}.

(** The body of the [try] block, for one visit and one selected sensor. *)
Definition process_ccd (butler : ButlerT) (ccdKey : string) (i_v : nat)
    (visit : Z) (ccd : Sensor) : M unit :=
  let bbox := getBBox ccd in
  let ccdId := getSerial ccd in
  let dataId := calexp_dataId ccdKey visit ccdId in
  md ← get butler "calexp_md" dataId;
  wcs ← lift (makeWcs env md);
  '(ra, dec) ← lift (bboxToRaDec bbox wcs);
  extend_ras ra;;
  extend_decs dec;;
  let color := nth (i_v mod 5) palette EmptyString in
  plot (Fill ra dec (Filled 0.2 color color)).

(** The body of the loop over the camera, for one visit. *)
Definition draw_ccd (butler : ButlerT) (ccds : option (list Z))
    (ccdKey : string) (i_v : nat) (visit : Z) (ccd : Sensor) : M unit :=
  if selected ccds ccd then
    try_pass (process_ccd butler ccdKey i_v visit ccd)
  else mret tt.

(** The loop over the visits ("draw the CCDs"). *)
Definition aggregate (butler : ButlerT) (visits : list Z)
    (ccds : option (list Z)) (ccdKey : string) : M unit :=
  for_each (enumerate visits) (fun '(i_v, visit) =>
    emit (EPrint i_v visit);;
    for_each (camera butler) (draw_ccd butler ccds ccdKey i_v visit)).

Definition buff : float := 0.1.

(** [xlim = max(ras)+buff, min(ras)-buff] and
    [ylim = min(decs)-buff, max(decs)+buff] *)
Definition view_limits (ras decs : list float)
  : result ((float * float) * (float * float)) :=
  max_ra ← py_max ras;
  min_ra ← py_min ras;
  let xlim := ((max_ra + buff)%float, (min_ra - buff)%float) in
  min_dec ← py_min decs;
  max_dec ← py_max decs;
  let ylim := ((min_dec - buff)%float, (max_dec + buff)%float) in
  Ok (xlim, ylim).

(** [str(patch.getIndex())] of a pair of integers. *)
Definition str_index (index : Z * Z) : string :=
  ("(" +:+ pretty index.1 +:+ ", " +:+ pretty index.2 +:+ ")")%string.

(** The body of the loop over the patches of a tract. *)
Definition draw_patch (xlim ylim : float * float) (tract : Tract)
    (patch : Patch) : M unit :=
  '(ra, dec) ← lift (bboxToRaDec (getInnerBBox patch) (getWcs tract));
  plot (Fill ra dec (Outline "k" 1 "dashed"));;
  mid_ra ← lift (percent_default ra);
  if (xlim.2 <? mid_ra)%float && (mid_ra <? xlim.1)%float then
    mid_dec ← lift (percent_default dec);
    if (ylim.1 <? mid_dec)%float && (mid_dec <? ylim.2)%float then
      x ← lift (percent_default ra);
      y ← lift (percent dec 0.9%float);
      plot (Text x y (str_index (getIndex patch)) 6 "center" "top")
    else mret tt
  else mret tt.

(** The loops over the tracts and the patches of a sky map. *)
Definition draw_skymap (xlim ylim : float * float) (tracts : list Tract)
  : M unit :=
  for_each tracts (fun tract =>
    for_each (patches tract) (draw_patch xlim ylim tract)).

(** "draw the skymap" *)
Definition overlay (butler : ButlerT) (xlim ylim : float * float) : M unit :=
  skymap ← get butler "deepCoadd_skyMap" {["tract"%string := 0]};
  match skymap with
  | SkyMap tracts => draw_skymap xlim ylim tracts
  | PropertySet _ => lift (Raise TypeError)
  end.

(** "add labels and save" *)
Definition render (xlim ylim : float * float) (saveFile : option string)
  : M unit :=
  plot Gca;;
  plot (SetXlabel "R.A. (deg)");;
  plot (SetYlabel "Decl. (deg)");;
  plot (SetXlim xlim);;
  plot (SetYlim ylim);;
  plot Gcf;;
  match saveFile with
  | Some file => plot (Savefig file)
  | None => plot Show
  end.

Definition main (rootDir : string) (tract : Z) (visits : list Z)
    (ccds : option (list Z)) (ccdKey : string) (showPatch : bool)
    (saveFile : option string) : M unit :=
  butler ← lift (Butler env rootDir);
  aggregate butler visits ccds ccdKey;;
  ras ← get_ras;
  decs ← get_decs;
  '(xlim, ylim) ← lift (view_limits ras decs);
  (if showPatch then overlay butler xlim ylim else mret tt);;
  render xlim ylim saveFile.
End Main.

(** ** splitId: the argparse action for [visits] and [ccds]

    [IdValueAction] (the argument parser of the pipeline library), the
    builtin [int] on strings and the iteration order of a set are not part
    of the script; they are parameters.  Of the order only this is known:
    a set is iterated once over each of its elements. *)

Inductive NsValue : Type :=
| NsStr (s : string)
| NsContainer (idList : list (gmap string string))
| NsIds (ids : list Z).

Section SplitId.
Variable IdValueAction :
  list string -> string -> result (list (gmap string string)).
Variable int : string -> result Z.
Variable set_iter : gset Z -> list Z.

(** [int(dataId[argName])] *)
Definition id_of (argName : string) (dataId : gmap string string) : result Z :=
  match dataId !! argName with
  | Some v => int v
  | None => Raise KeyError
  end.

(** [SplitIdValueAction.__call__(self, parser, namespace, values, option_string)] *)
Definition splitId (argName : string) (namespace : gmap string NsValue)
    (values : list string) : result (gmap string NsValue) :=
  v0 ← match values !! 0%nat with Some v => Ok v | None => Raise IndexError end;
  let keyValues := [(argName +:+ "=" +:+ v0)%string] in
  let namespace := <["config"%string := NsStr "hack"]> namespace in
  let namespace := <[argName := NsContainer []]> namespace in
  parsed ← IdValueAction keyValues ("--" +:+ argName)%string;
  let idList := [] ++ parsed in
  ids ← rmapM (id_of argName) idList;
  Ok (<[argName := NsIds (set_iter (list_to_set ids))]> namespace).
End SplitId.

(** * Vocabulary of the statements *)

(** The state [s] with points and events added at the end. *)
Definition extend (s : State) (ra dec : list float) (t : list Event) : State :=
  {| ras := ras s ++ ra; decs := decs s ++ dec; trace := trace s ++ t |}.

(** Every event a computation adds to the trace satisfies [P]. *)
Definition emits {A} (P : Event -> Prop) (m : M A) : Prop :=
  forall s, exists t, trace (m s).1 = trace s ++ t /\ Forall P t.

(** A computation that makes the external calls [l], in order, and leaves
    the accumulators alone; one that raises has made a prefix of them. *)
Definition draws {A} (l : list Event) (m : M A) : Prop :=
  forall s, exists t r,
    m s = (extend s [] [] t, r) /\ t `prefix_of` l /\
    (is_ok r = true -> t = l).

(** ** What one (visit, sensor) pair contributes *)

Section Contributions.
Variable env : Env.
Variable butler : ButlerT.
Variable ccds : option (list Z).
Variable ccdKey : string.

(** The footprint of a sensor in a visit: fetch, WCS and projection. *)
Definition footprint (visit : Z) (ccd : Sensor)
  : result (list float * list float) :=
  md ← butler_get butler "calexp_md"
         (calexp_dataId ccdKey visit (getSerial ccd));
  wcs ← makeWcs env md;
  bboxToRaDec (getBBox ccd) wcs.

Definition footprint_fill (i_v : nat) (ra dec : list float) : PlotCall :=
  let color := nth (i_v mod 5) palette EmptyString in
  Fill ra dec (Filled 0.2 color color).

Definition pair_ras (visit : Z) (ccd : Sensor) : list float :=
  match footprint visit ccd with Ok (ra, _) => ra | Raise _ => [] end.

Definition pair_decs (visit : Z) (ccd : Sensor) : list float :=
  match footprint visit ccd with Ok (_, dec) => dec | Raise _ => [] end.

Definition pair_events (i_v : nat) (visit : Z) (ccd : Sensor) : list Event :=
  EGet "calexp_md" (calexp_dataId ccdKey visit (getSerial ccd))
  :: match footprint visit ccd with
     | Ok (ra, dec) => [EPlot (footprint_fill i_v ra dec)]
     | Raise _ => []
     end.

(** The selected sensors, in camera order. *)
Definition selected_ccds : list Sensor :=
  List.filter (selected ccds) (camera butler).

Definition visit_ras (iv : nat * Z) : list float :=
  flat_map (pair_ras iv.2) selected_ccds.

Definition visit_decs (iv : nat * Z) : list float :=
  flat_map (pair_decs iv.2) selected_ccds.

Definition visit_events (iv : nat * Z) : list Event :=
  EPrint iv.1 iv.2 :: flat_map (pair_events iv.1 iv.2) selected_ccds.

(** The [try] block of a pair ran to its end: nothing was raised, the draw
    call included. *)
Definition processed_ok (i_v : nat) (visit : Z) (ccd : Sensor) : bool :=
  is_ok (process_ccd env butler ccdKey i_v visit ccd init).2.

(** The accumulators after the loop hold the points of the pairs whose
    [try] block ran to its end, and nothing else. *)
Definition successful_only (visits : list Z) : Prop :=
  let s := (aggregate env butler visits ccds ccdKey init).1 in
  ras s = flat_map (fun iv =>
            flat_map (fun ccd =>
              if processed_ok iv.1 iv.2 ccd then pair_ras iv.2 ccd else [])
            selected_ccds) (enumerate visits) /\
  decs s = flat_map (fun iv =>
             flat_map (fun ccd =>
               if processed_ok iv.1 iv.2 ccd then pair_decs iv.2 ccd else [])
             selected_ccds) (enumerate visits).

(** What follows the loop in [main]: limits, overlay, labels and save. *)
Definition finish (showPatch : bool) (saveFile : option string) : M unit :=
  ras ← get_ras;
  decs ← get_decs;
  '(xlim, ylim) ← lift (view_limits ras decs);
  (if showPatch then overlay env butler xlim ylim else mret tt);;
  render env xlim ylim saveFile.
End Contributions.

(** The events after the loop: plot calls and the request of the sky map,
    with tract key 0. *)
Definition late_event (e : Event) : Prop :=
  match e with
  | EPrint _ _ => False
  | EGet product dataId =>
      product = "deepCoadd_skyMap"%string /\ dataId = {["tract"%string := 0]}
  | EPlot _ => True
  end.

(** The events of the loop: prints, metadata fetches and plot calls. *)
Definition early_event (e : Event) : Prop :=
  match e with
  | EPrint _ _ => True
  | EGet product _ => product = "calexp_md"%string
  | EPlot _ => True
  end.

Definition is_plot (e : Event) : Prop :=
  match e with EPlot _ => True | _ => False end.

(** The data ids of the metadata fetches of a trace, in order. *)
Definition fetches (t : list Event) : list (gmap string Z) :=
  flat_map (fun e =>
    match e with
    | EGet product dataId =>
        if String.eqb product "calexp_md" then [dataId] else []
    | _ => []
    end) t.

(** The data ids the loop fetches, for the visits in order and, for each,
    the selected sensors in camera order. *)
Definition expected_fetches (butler : ButlerT) (ccds : option (list Z))
    (ccdKey : string) (visits : list Z) : list (gmap string Z) :=
  flat_map (fun visit =>
    map (fun ccd => calexp_dataId ccdKey visit (getSerial ccd))
      (List.filter (selected ccds) (camera butler))) visits.

(** The data ids of the sky map requests of a trace, in order. *)
Definition skymap_requests (t : list Event) : list (gmap string Z) :=
  flat_map (fun e =>
    match e with
    | EGet product dataId =>
        if String.eqb product "deepCoadd_skyMap" then [dataId] else []
    | _ => []
    end) t.

(** ** What the projector computes for one corner *)

Definition project (wcs : Wcs) (corner : Point2I) : result (float * float) :=
  coord ← pixelToSky wcs (toPoint2D corner);
  Ok (getRa coord, getDec coord).

(** ** What one patch of the sky map draws *)

(** [xlim[1] < mid_ra < xlim[0] and ylim[0] < mid_dec < ylim[1]] *)
Definition inside (xlim ylim : float * float) (mid_ra mid_dec : float) : bool :=
  ((xlim.2 <? mid_ra)%float && (mid_ra <? xlim.1)%float) &&
  ((ylim.1 <? mid_dec)%float && (mid_dec <? ylim.2)%float).

Definition patch_outline (ra dec : list float) : PlotCall :=
  Fill ra dec (Outline "k" 1 "dashed").

Definition patch_label (patch : Patch) (x y : float) : PlotCall :=
  Text x y (str_index (getIndex patch)) 6 "center" "top".

Definition patch_calls (xlim ylim : float * float) (tract : Tract)
    (patch : Patch) : list PlotCall :=
  match bboxToRaDec (getInnerBBox patch) (getWcs tract) with
  | Ok (ra, dec) =>
      patch_outline ra dec ::
      match percent ra 0.5%float, percent dec 0.5%float, percent dec 0.9%float with
      | Ok mid_ra, Ok mid_dec, Ok y =>
          if inside xlim ylim mid_ra mid_dec
          then [patch_label patch mid_ra y] else []
      | _, _, _ => []
      end
  | Raise _ => []
  end.

Definition skymap_calls (xlim ylim : float * float) (tracts : list Tract)
  : list PlotCall :=
  flat_map (fun tract => flat_map (patch_calls xlim ylim tract) (patches tract))
    tracts.

(** The events of "draw the skymap", when the sky map was delivered. *)
Definition overlay_events (butler : ButlerT) (xlim ylim : float * float)
    (showPatch : bool) : list Event :=
  if showPatch then
    EGet "deepCoadd_skyMap" {["tract"%string := 0]} ::
    match butler_get butler "deepCoadd_skyMap" {["tract"%string := 0]} with
    | Ok (SkyMap tracts) => map EPlot (skymap_calls xlim ylim tracts)
    | _ => []
    end
  else [].

(** The plot calls of "add labels and save". *)
Definition render_calls (xlim ylim : float * float) (saveFile : option string)
  : list PlotCall :=
  [Gca; SetXlabel "R.A. (deg)"; SetYlabel "Decl. (deg)"; SetXlim xlim;
   SetYlim ylim; Gcf;
   match saveFile with Some file => Savefig file | None => Show end].

(** ** The identities and bounds of [percent] *)

(** The identities of [percent] at [p = 0], [p = 1] and [p = 1/2], read at
    a number type with its [0], [1/2], [1] and [2]. *)
Definition endpoints_hold {A} `{PyNumber A} (zero half one two : A)
    (values : list A) : Prop :=
  exists m M r0 r1 rh,
    py_min values = Ok m /\ py_max values = Ok M /\
    percent values zero = Ok r0 /\
    percent values one = Ok r1 /\
    percent values half = Ok rh /\
    py_eq r0 m = true /\
    py_eq r1 M = true /\
    py_eq rh (py_div (py_add m M) two) = true.

(** [min(values) <= percent(values, p) <= max(values)], at floats. *)
Definition within_range (values : list float) (p : float) : Prop :=
  exists m M r,
    py_min values = Ok m /\ py_max values = Ok M /\
    percent values p = Ok r /\
    (m <=? r)%float = true /\ (r <=? M)%float = true.

Definition half : Qc := Q2Qc (1 # 2).
Definition two : Qc := Q2Qc 2.

Definition SFfinite (a : spec_float) : bool :=
  match a with
  | S754_zero _ | S754_finite _ _ _ => true
  | S754_infinity _ | S754_nan => false
  end.

(** The rank of a float that is not a NaN: such floats compare as their
    ranks do, lexicographically. *)
Definition SFrank (a : spec_float) : Z * Z * Z :=
  match a with
  | S754_zero _ | S754_nan => (0, 0, 0)
  | S754_infinity false => (2, 0, 0)
  | S754_infinity true => (-2, 0, 0)
  | S754_finite false m e => (1, e, Zpos m)
  | S754_finite true m e => (-1, - e, Zneg m)
  end.

Definition lex_lt (a b : Z * Z * Z) : Prop :=
  a.1.1 < b.1.1 \/
  (a.1.1 = b.1.1 /\ (a.1.2 < b.1.2 \/ (a.1.2 = b.1.2 /\ a.2 < b.2))).

Definition SFnan (a : spec_float) : bool :=
  match a with S754_nan => true | _ => false end.

Definition nan64 (x : float) : bool := SFnan (Prim2SF x).

Definition no_nan (x : float) : Prop := nan64 x = false.

Definition float_le (x y : float) : Prop := (x <=? y)%float = true.

(** The spread [max(values) - min(values)] of a sequence of floats does
    not overflow. *)
Definition finite_spread (values : list float) : Prop :=
  exists m M,
    py_min values = Ok m /\ py_max values = Ok M /\ finite64 (M - m) = true.

(** ** Rounding to binary64

    The vocabulary of the statements about the rounding of [+], [-] and
    [*]: the exact result is an integer number of units of [2^-2200] (or of
    [2^-1074] for the value of one float), and [round64] is the binary64
    number it is rounded to. *)

(** The record after [k] shifts of [m0], with the flags clear at first. *)
Definition shr_rec (m0 : Z) (k : nat) : shr_record :=
  match k with
  | O => {| shr_m := m0; shr_r := false; shr_s := false |}
  | S k' =>
      {| shr_m := m0 / 2 ^ Z.of_nat k;
         shr_r := Z.odd (m0 / 2 ^ Z.of_nat k');
         shr_s := negb (m0 mod 2 ^ Z.of_nat k' =? 0) |}
  end.

(** The position of a remainder in its interval. *)
Definition loc_rem (rem k : Z) : location :=
  if rem =? 0 then loc_Exact else loc_Inexact (2 * rem ?= 2 ^ k).

Definition rne (m0 k : Z) : Z :=
  round_nearest_even (m0 / 2 ^ k) (loc_rem (m0 mod 2 ^ k) k).

Definition fexp64 (e : Z) : Z := Z.max (e - 53) (-1074).

(** The mantissa and the exponent of the rounded number. *)
Definition round_repr (X : Z) : Z * Z :=
  let E := fexp64 (Zdigits2 X - 2200) in
  let m1 := rne X (E + 2200) in
  if m1 =? 2 ^ 53 then (2 ^ 52, E + 1) else (m1, E).

Definition SF_of_repr (sx : bool) (r : Z * Z) : spec_float :=
  match r.1 with
  | Z0 => S754_zero sx
  | Zpos m => if r.2 <=? 971 then S754_finite sx m r.2 else S754_infinity sx
  | Zneg _ => S754_nan
  end.

(** The rank of the rounding of a positive number. *)
Definition repr_rank (r : Z * Z) : Z * Z * Z :=
  if r.1 =? 0 then (0, 0, 0)
  else if r.2 <=? 971 then (1, r.2, r.1) else (2, 0, 0).

(** The value of a finite float in units of [2^-1074]. *)
Definition SFint (a : spec_float) : Z :=
  match a with
  | S754_finite s m e => cond_Zopp s (Zpos m * 2 ^ (e + 1074))
  | _ => 0
  end.

(** Rounding an integer number of units of [2^-2200]. *)
Definition round64 (X : Z) : spec_float :=
  match X with
  | Z0 => S754_zero false
  | Zpos _ => SF_of_repr false (round_repr X)
  | Zneg p => SF_of_repr true (round_repr (Zpos p))
  end.

Definition rank_neg (a : Z * Z * Z) : Z * Z * Z := (- a.1.1, - a.1.2, - a.2).

(** [a <= b] for floats that are not NaN. *)
Definition SFle (a b : spec_float) : Prop := ~ lex_lt (SFrank b) (SFrank a).

Definition SFvalid (a : spec_float) : Prop := valid_binary a = true.

(** ** Example data *)

Definition pt (x y : Z) : Point2I := {| getX := x; getY := y |}.

(** A box by its corners, in the order lower left, lower right, upper
    right, upper left. *)
Definition box (x0 y0 x1 y1 : Z) : BBox :=
  {| getCorners := [pt x0 y0; pt x1 y0; pt x1 y1; pt x0 y1] |}.

(** The WCS whose sky position is the pixel position. *)
Definition pixel_wcs : Wcs :=
  {| pixelToSky := fun p => Ok {| getRa := x2D p; getDec := y2D p |} |}.

Definition sensor (id : Z) (type : DetectorType) : Sensor :=
  {| getBBox := box (20 * id) 0 (20 * id + 10) 10; getSerial := id;
     getType := type |}.

(** Three science sensors and a guider. *)
Definition example_camera : list Sensor :=
  [sensor 1 SCIENCE; sensor 2 SCIENCE; sensor 3 SCIENCE; sensor 4 GUIDER].

Definition example_tract : Tract :=
  {| patches := [ {| getInnerBBox := box 20 0 30 10; getIndex := (0, 0) |};
                  {| getInnerBBox := box 200 0 210 10; getIndex := (1, 0) |} ];
     getWcs := pixel_wcs |}.

(** A repository with metadata for every visit but 999 and one sky map. *)
Definition example_butler : ButlerT :=
  {| camera := example_camera;
     butler_get := fun product dataId =>
       if String.eqb product "calexp_md" then
         if bool_decide (dataId !! "visit"%string = Some 999)
         then Raise (ExternalError "no such data")
         else Ok (PropertySet [])
       else if String.eqb product "deepCoadd_skyMap" then
         Ok (SkyMap [example_tract])
       else Raise (ExternalError "no such dataset") |}.

Definition example_makeWcs (md : PyObject) : result Wcs :=
  match md with
  | PropertySet _ => Ok pixel_wcs
  | SkyMap _ => Raise TypeError
  end.

Definition example_env : Env :=
  {| Butler := fun _ => Ok example_butler;
     makeWcs := example_makeWcs;
     pyplot := fun _ => Ok tt |}.

(** The same, with a plotting backend that cannot draw. *)
Definition headless_env : Env :=
  {| Butler := fun _ => Ok example_butler;
     makeWcs := example_makeWcs;
     pyplot := fun _ => Raise (ExternalError "no display") |}.

(** Stand-ins for the parameters, used in the examples: values separated by
    carets, decimal integers, and a set iterated in the order of [elements]. *)

Fixpoint split_on (sep : Ascii.ascii) (acc s : string) : list string :=
  match s with
  | EmptyString => [String.rev acc]
  | String c rest =>
      if Ascii.eqb c sep then String.rev acc :: split_on sep EmptyString rest
      else split_on sep (String c acc) rest
  end.

Definition digit_of (c : Ascii.ascii) : option Z :=
  let n := Z.of_nat (Ascii.nat_of_ascii c) in
  if (48 <=? n) && (n <=? 57) then Some (n - 48) else None.

Fixpoint decimal (acc : Z) (s : string) : result Z :=
  match s with
  | EmptyString => Ok acc
  | String c rest =>
      match digit_of c with
      | Some d => decimal (10 * acc + d) rest
      | None => Raise ValueError
      end
  end.

Definition int_decimal (s : string) : result Z :=
  match s with
  | EmptyString => Raise ValueError
  | String "-"%char ((String _ _) as rest) => r ← decimal 0 rest; Ok (- r)
  | _ => decimal 0 s
  end.

Definition caret_ids (keyValues : list string) (option_string : string)
  : result (list (gmap string string)) :=
  match keyValues with
  | [kv] =>
      match split_on "="%char EmptyString kv with
      | [name; valueStr] =>
          Ok (map (fun v => {[name := v]}) (split_on "^"%char EmptyString valueStr))
      | _ => Raise ValueError
      end
  | _ => Raise ValueError
  end.


(** * Vocabulary of the further properties *)

(** The progress lines of a trace, in order: the index and the visit of
    each [print]. *)
Definition prints (t : list Event) : list (nat * Z) :=
  flat_map (fun e =>
    match e with
    | EPrint i_v visit => [(i_v, visit)]
    | _ => []
    end) t.

(** The call that ends "add labels and save". *)
Definition final_call (saveFile : option string) : PlotCall :=
  match saveFile with Some file => Savefig file | None => Show end.

(** The calls of a trace that put the figure out, [savefig] and [show]. *)
Definition outputs (t : list Event) : list PlotCall :=
  flat_map (fun e =>
    match e with
    | EPlot (Savefig file) => [Savefig file]
    | EPlot Show => [Show]
    | _ => []
    end) t.

(** An event of the two drawing stages: a progress line, a request to the
    repository, a polygon or a label. *)
Definition drawing_event (e : Event) : Prop :=
  match e with
  | EPrint _ _ | EGet _ _ => True
  | EPlot (Fill _ _ _) | EPlot (Text _ _ _ _ _ _) => True
  | EPlot _ => False
  end.

(** A computation that leaves the two accumulators alone. *)
Definition keeps_points {A} (m : M A) : Prop :=
  forall s, exists t r, m s = (extend s [] [] t, r).

(** A plot call of the overlay: a dashed outline or a label. *)
Definition overlay_call (c : PlotCall) : Prop :=
  match c with
  | Fill _ _ (Outline _ _ _) | Text _ _ _ _ _ _ => True
  | _ => False
  end.

(** * Properties *)

Lemma nonempty_cons {A} (l : list A) : l <> [] -> exists x xs, l = x :: xs.
Proof. destruct l as [|x xs]; [done|eauto]. Qed.

(** ** [min] and [max] pick the least and the greatest item

    For items on which [<] is the strict part of a total preorder [le]
    (the good ones: every rational, every float but the NaNs). *)

Section Extremum.
Context {A : Type} `{PyNumber A}.
Variable good : A -> Prop.
Variable le : A -> A -> Prop.
Hypothesis le_refl : forall x, good x -> le x x.
Hypothesis le_trans :
  forall x y z, good x -> good y -> good z -> le x y -> le y z -> le x z.
Hypothesis lt_le : forall x y, good x -> good y -> py_lt x y = true -> le x y.
Hypothesis nlt_le : forall x y, good x -> good y -> py_lt x y = false -> le y x.

Lemma min_from_cons first y rest :
  min_from first (y :: rest) = min_from (if py_lt y first then y else first) rest.
Proof. reflexivity. Qed.

Lemma max_from_cons first y rest :
  max_from first (y :: rest) = max_from (if py_lt first y then y else first) rest.
Proof. reflexivity. Qed.

Lemma min_from_least rest : forall first,
  good first -> Forall good rest ->
  min_from first rest ∈ first :: rest /\
  forall x, x ∈ first :: rest -> le (min_from first rest) x.
Proof.
  induction rest as [|y rest IH]; intros first Hfirst Hrest.
  - split; [left|]. intros x ->%list_elem_of_singleton. by apply le_refl.
  - apply Forall_cons in Hrest as [Hy Hrest]. rewrite min_from_cons.
    assert (Hall : forall z, z ∈ rest -> good z) by by apply Forall_forall.
    destruct (py_lt y first) eqn:Hlt.
    + destruct (IH y Hy Hrest) as [Hin Hle]. split; [by right|].
      assert (Hm : good (min_from y rest)).
      { apply elem_of_cons in Hin as [->|Hin]; auto. }
      intros x [->|Hx]%elem_of_cons; [|by apply Hle].
      apply le_trans with y; auto. apply Hle. left.
    + destruct (IH first Hfirst Hrest) as [Hin Hle]. split.
      * apply elem_of_cons in Hin as [->|Hin]; [left|right; by right].
      * assert (Hm : good (min_from first rest)).
        { apply elem_of_cons in Hin as [->|Hin]; auto. }
        intros x [->|[->|Hx]%elem_of_cons]%elem_of_cons.
        -- apply Hle. left.
        -- apply le_trans with first; auto. apply Hle. left.
        -- apply Hle. by right.
Qed.

Lemma max_from_greatest rest : forall first,
  good first -> Forall good rest ->
  max_from first rest ∈ first :: rest /\
  forall x, x ∈ first :: rest -> le x (max_from first rest).
Proof.
  induction rest as [|y rest IH]; intros first Hfirst Hrest.
  - split; [left|]. intros x ->%list_elem_of_singleton. by apply le_refl.
  - apply Forall_cons in Hrest as [Hy Hrest]. rewrite max_from_cons.
    assert (Hall : forall z, z ∈ rest -> good z) by by apply Forall_forall.
    destruct (py_lt first y) eqn:Hlt.
    + destruct (IH y Hy Hrest) as [Hin Hle]. split; [by right|].
      assert (Hm : good (max_from y rest)).
      { apply elem_of_cons in Hin as [->|Hin]; auto. }
      intros x [->|Hx]%elem_of_cons; [|by apply Hle].
      apply le_trans with y; auto. apply Hle. left.
    + destruct (IH first Hfirst Hrest) as [Hin Hle]. split.
      * apply elem_of_cons in Hin as [->|Hin]; [left|right; by right].
      * assert (Hm : good (max_from first rest)).
        { apply elem_of_cons in Hin as [->|Hin]; auto. }
        intros x [->|[->|Hx]%elem_of_cons]%elem_of_cons.
        -- apply Hle. left.
        -- apply le_trans with first; auto. apply Hle. left.
        -- apply Hle. by right.
Qed.
End Extremum.

Lemma min_from_spec (rest : list Qc) first :
  min_from first rest ∈ first :: rest /\
  (forall x, x ∈ first :: rest -> (min_from first rest <= x)%Qc).
Proof.
  apply (min_from_least (fun _ => True) Qcle).
  - intros; apply Qcle_refl.
  - intros x y z _ _ _. apply Qcle_trans.
  - intros x y _ _ Hlt%bool_decide_eq_true. by apply Qclt_le_weak.
  - intros x y _ _ Hlt%bool_decide_eq_false. by apply Qcnot_lt_le.
  - done.
  - by apply Forall_forall.
Qed.

Lemma max_from_spec (rest : list Qc) first :
  max_from first rest ∈ first :: rest /\
  (forall x, x ∈ first :: rest -> (x <= max_from first rest)%Qc).
Proof.
  apply (max_from_greatest (fun _ => True) Qcle).
  - intros; apply Qcle_refl.
  - intros x y z _ _ _. apply Qcle_trans.
  - intros x y _ _ Hlt%bool_decide_eq_true. by apply Qclt_le_weak.
  - intros x y _ _ Hlt%bool_decide_eq_false. by apply Qcnot_lt_le.
  - done.
  - by apply Forall_forall.
Qed.

(** ** Rationals: [percent] is exact *)

Lemma min_le_max first rest : (min_from first rest <= max_from first rest)%Qc.
Proof.
  apply Qcle_trans with first.
  - apply min_from_spec; left.
  - apply max_from_spec; left.
Qed.

Lemma spread_nonneg (m M : Qc) : (m <= M)%Qc -> (0 <= M - m)%Qc.
Proof. intros HmM. by apply Qcle_minus_iff in HmM. Qed.

Lemma interpolate_lower (m M p : Qc) :
  (0 <= p)%Qc -> (m <= M)%Qc -> (m <= m + p * (M - m))%Qc.
Proof.
  intros Hp HmM. rewrite <- (Qcplus_0_r m) at 1.
  apply Qcplus_le_compat; [apply Qcle_refl|].
  apply Qcmult_nonneg_nonneg; [done|by apply spread_nonneg].
Qed.

Lemma interpolate_mono (m M p q : Qc) :
  (p <= q)%Qc -> (m <= M)%Qc -> (m + p * (M - m) <= m + q * (M - m))%Qc.
Proof.
  intros Hpq HmM. apply Qcplus_le_compat; [apply Qcle_refl|].
  apply Qcmult_le_compat_r; [done|by apply spread_nonneg].
Qed.

Lemma interpolate_upper (m M p : Qc) :
  (p <= 1)%Qc -> (m <= M)%Qc -> (m + p * (M - m) <= M)%Qc.
Proof.
  intros Hp HmM. replace M with (m + 1 * (M - m))%Qc at 2 by ring.
  by apply interpolate_mono.
Qed.

Lemma half_eq : half = (1 / (1 + 1))%Qc.
Proof. apply Qc_is_canon. reflexivity. Qed.

Lemma two_eq : two = (1 + 1)%Qc.
Proof. apply Qc_is_canon. reflexivity. Qed.

Lemma interpolate_half (m M : Qc) : (m + half * (M - m) = (m + M) / two)%Qc.
Proof. rewrite half_eq, two_eq. field. discriminate. Qed.

(** ** Floats: the order of the values that are not NaN *)

Lemma SFcompare_rank a b :
  SFnan a = false -> SFnan b = false ->
  exists c, SFcompare a b = Some c /\
    match c with
    | Lt => lex_lt (SFrank a) (SFrank b)
    | Eq => SFrank a = SFrank b
    | Gt => lex_lt (SFrank b) (SFrank a)
    end.
Proof.
  intros Ha Hb.
  destruct a as [sa|sa| |sa ma ea]; try discriminate;
    destruct b as [sb|sb| |sb mb eb]; try discriminate;
    try destruct sa; try destruct sb; cbn [SFcompare SFrank];
    try (eexists; split; [reflexivity|]; unfold lex_lt; cbn; try reflexivity; lia).
  - destruct (Z.compare_spec ea eb) as [->|Hlt|Hgt].
    + rewrite Pos.compare_cont_spec. cbn [Pos.switch_Eq].
      destruct (Pos.compare_spec ma mb) as [->|Hm|Hm];
        (eexists; split; [reflexivity|]); unfold lex_lt; cbn; try reflexivity; lia.
    + eexists; split; [reflexivity|]. unfold lex_lt; cbn; lia.
    + eexists; split; [reflexivity|]. unfold lex_lt; cbn; lia.
  - destruct (Z.compare_spec ea eb) as [->|Hlt|Hgt].
    + rewrite Pos.compare_cont_spec. cbn [Pos.switch_Eq].
      destruct (Pos.compare_spec ma mb) as [->|Hm|Hm];
        (eexists; split; [reflexivity|]); unfold lex_lt; cbn; try reflexivity; lia.
    + eexists; split; [reflexivity|]. unfold lex_lt; cbn; lia.
    + eexists; split; [reflexivity|]. unfold lex_lt; cbn; lia.
Qed.

Lemma lex_lt_asym a b : lex_lt a b -> ~ lex_lt b a.
Proof. unfold lex_lt. destruct a as [[a1 a2] a3], b as [[b1 b2] b3]. cbn. lia. Qed.

Lemma lex_lt_irrefl a : ~ lex_lt a a.
Proof. intros Ha. by apply (lex_lt_asym a a). Qed.

Lemma lex_lt_trans a b c : lex_lt a b -> lex_lt b c -> lex_lt a c.
Proof.
  unfold lex_lt. destruct a as [[a1 a2] a3], b as [[b1 b2] b3], c as [[c1 c2] c3].
  cbn. lia.
Qed.

Lemma ltb_rank x y :
  nan64 x = false -> nan64 y = false ->
  (x <? y)%float = true <-> lex_lt (SFrank (Prim2SF x)) (SFrank (Prim2SF y)).
Proof.
  intros Hx Hy. rewrite ltb_spec. unfold SFltb.
  destruct (SFcompare_rank _ _ Hx Hy) as (c & -> & Hc). destruct c.
  - split; [done|]. rewrite Hc. by intros ?%lex_lt_irrefl.
  - done.
  - split; [done|]. by intros ?%lex_lt_asym.
Qed.

Lemma leb_rank x y :
  nan64 x = false -> nan64 y = false ->
  (x <=? y)%float = true <-> ~ lex_lt (SFrank (Prim2SF y)) (SFrank (Prim2SF x)).
Proof.
  intros Hx Hy. rewrite leb_spec. unfold SFleb.
  destruct (SFcompare_rank _ _ Hx Hy) as (c & -> & Hc). destruct c.
  - split; [|done]. rewrite Hc. intros _. apply lex_lt_irrefl.
  - split; [|done]. intros _. by apply lex_lt_asym.
  - split; [done|]. by intros [].
Qed.

Lemma lex_lt_total a b c : ~ lex_lt b a -> ~ lex_lt c b -> ~ lex_lt c a.
Proof.
  unfold lex_lt. destruct a as [[a1 a2] a3], b as [[b1 b2] b3], c as [[c1 c2] c3].
  cbn. lia.
Qed.

Lemma float_extremum_laws :
  (forall x, no_nan x -> float_le x x) /\
  (forall x y z, no_nan x -> no_nan y -> no_nan z ->
     float_le x y -> float_le y z -> float_le x z) /\
  (forall x y, no_nan x -> no_nan y -> py_lt x y = true -> float_le x y) /\
  (forall x y, no_nan x -> no_nan y -> py_lt x y = false -> float_le y x).
Proof.
  unfold no_nan, float_le. repeat split.
  - intros x Hx. apply leb_rank; [done..|]. apply lex_lt_irrefl.
  - intros x y z Hx Hy Hz Hxy%leb_rank Hyz%leb_rank; try done.
    apply leb_rank; [done..|]. by apply lex_lt_total with (SFrank (Prim2SF y)).
  - intros x y Hx Hy Hlt%ltb_rank; try done.
    apply leb_rank; [done..|]. by apply lex_lt_asym.
  - intros x y Hx Hy Hlt. apply leb_rank; [done..|].
    intros Hlt'%ltb_rank; try done. cbn in Hlt. congruence.
Qed.

Lemma max_from_float first rest :
  Forall no_nan (first :: rest) ->
  max_from first rest ∈ first :: rest /\
  forall x, x ∈ first :: rest -> (x <=? max_from first rest)%float = true.
Proof.
  intros [Hfirst Hrest]%Forall_cons.
  destruct float_extremum_laws as (Hrefl & Htrans & Hlt & Hnlt).
  by apply (max_from_greatest no_nan float_le).
Qed.

Lemma min_from_float first rest :
  Forall no_nan (first :: rest) ->
  min_from first rest ∈ first :: rest /\
  forall x, x ∈ first :: rest -> (min_from first rest <=? x)%float = true.
Proof.
  intros [Hfirst Hrest]%Forall_cons.
  destruct float_extremum_laws as (Hrefl & Htrans & Hlt & Hnlt).
  by apply (min_from_least no_nan float_le).
Qed.

(** ** Floats: what survives rounding *)

Lemma SFeqb_refl_finite (a : spec_float) : SFfinite a = true -> SFeqb a a = true.
Proof.
  destruct a as [s|s| |s m e]; intros Hfin; try discriminate; [reflexivity|].
  unfold SFeqb, SFcompare. rewrite Z.compare_refl.
  destruct s; rewrite Pos.compare_cont_refl; reflexivity.
Qed.

Lemma SFsub_finite_r (b a : spec_float) :
  SFfinite (SF64sub b a) = true -> SFfinite a = true.
Proof.
  destruct a as [sa|sa| |sa ma ea]; try reflexivity;
    destruct b as [sb|sb| |sb mb eb];
    try destruct sa; try destruct sb; cbn; congruence.
Qed.

Lemma SFadd_zero_mul (a d : spec_float) :
  SFfinite a = true -> SFfinite d = true ->
  SFeqb (SF64add a (SF64mul (S754_zero false) d)) a = true.
Proof.
  intros Ha Hd.
  destruct d as [sd|sd| |sd md ed]; try discriminate;
    destruct a as [sa|sa| |sa ma ea]; try discriminate.
  - destruct sa, sd; reflexivity.
  - apply (SFeqb_refl_finite (S754_finite sa ma ea)). reflexivity.
  - destruct sa, sd; reflexivity.
  - apply (SFeqb_refl_finite (S754_finite sa ma ea)). reflexivity.
Qed.

Lemma interpolate_zero_float (m M : float) :
  finite64 (M - m) = true -> (m + 0 * (M - m) =? m)%float = true.
Proof.
  unfold finite64. intros Hfin.
  rewrite FloatAxioms.eqb_spec, add_spec, mul_spec.
  change (Prim2SF 0) with (S754_zero false).
  rewrite sub_spec in *.
  apply SFadd_zero_mul; [|exact Hfin].
  by apply SFsub_finite_r with (Prim2SF M).
Qed.

(** ** percent at its end points and in the middle *)

(** C7, as stated, fails at floats: [percent([-3.0, 0.1], 1.0)] is
    [-3.0 + 1.0*3.1 = 0.10000000000000009], not the max [0.1]. *)
Lemma percent_endpoints_float_counterexample :
  ~ endpoints_hold 0%float 0.5%float 1%float 2%float [(-3)%float; 0.1%float].
Proof.
  intros (m & M & r0 & r1 & rh & Hm & HM & H0 & H1 & Hh & E0 & E1 & Eh).
  vm_compute in HM, H1. injection HM as <-. injection H1 as <-.
  vm_compute in E1. discriminate.
Qed.

(** C7 (amended): for every non-empty sequence of rationals,
    [percent(values, 0)] is the min of the values, [percent(values, 1)] the
    max and [percent(values, 1/2)] the mid point [(min + max) / 2], the min
    and the max being the least and the greatest of the values; for every
    non-empty sequence of floats whose spread [max - min] is finite,
    [percent(values, 0.0) == min(values)]. *)
Theorem percent_endpoints :
  (forall values : list Qc, values <> [] ->
     endpoints_hold 0%Qc half 1%Qc two values) /\
  (forall (values : list Qc) m M,
     py_min values = Ok m -> py_max values = Ok M ->
     m ∈ values /\ M ∈ values /\
     forall x, x ∈ values -> (m <= x)%Qc /\ (x <= M)%Qc) /\
  (forall (values : list float) m M,
     py_min values = Ok m -> py_max values = Ok M ->
     finite64 (M - m) = true ->
     exists r0, percent values 0%float = Ok r0 /\ py_eq r0 m = true).
Proof.
  split; [|split].
  - intros values (first & rest & ->)%nonempty_cons.
    exists (min_from first rest), (max_from first rest). do 3 eexists.
    repeat split; try reflexivity; cbn; apply bool_decide_eq_true.
    + ring.
    + ring.
    + apply interpolate_half.
  - intros [|first rest] m M Hm HM; [discriminate|].
    injection Hm as <-. injection HM as <-.
    split; [apply min_from_spec|]. split; [apply max_from_spec|].
    intros x Hx. split; [by apply min_from_spec|by apply max_from_spec].
  - intros [|first rest] m M Hm HM Hfin; [discriminate|].
    injection Hm as <-. injection HM as <-.
    eexists. split; [reflexivity|]. by apply interpolate_zero_float.
Qed.

Lemma percent_endpoints_witness :
  endpoints_hold 0%Qc half 1%Qc two [half; 1%Qc; 0%Qc] /\
  exists r0, percent [1.5%float; 0.25%float] 0%float = Ok r0 /\
             py_eq r0 0.25%float = true.
Proof.
  split.
  - apply (proj1 percent_endpoints). discriminate.
  - apply (proj2 (proj2 percent_endpoints) [1.5%float; 0.25%float]
             0.25%float 1.5%float); reflexivity.
Defined.

(** Why the float half of C7 stops at [p = 0.0] and needs a finite spread:
    the mid point is rounded differently by the two formulas, and an
    overflowing spread turns [0.0 * interval] into a NaN. *)
Example percent_half_float_example :
  percent [(-3)%float; 1.1%float] 0.5%float = Ok (-0.9500000000000002)%float /\
  ((-3 + 1.1) / 2 = -0.95)%float.
Proof. split; vm_compute; reflexivity. Qed.

Example percent_zero_overflow_example :
  exists r,
    percent [(-1e308)%float; 1e308%float] 0%float = Ok r /\
    nan64 r = true /\ finite64 (1e308 - -1e308) = false.
Proof. eexists. split; [reflexivity|]. split; vm_compute; reflexivity. Qed.

(** ** Digits *)

Lemma pow2_pos k : 0 <= k -> 0 < 2 ^ k.
Proof. intros Hk. by apply Z.pow_pos_nonneg. Qed.

Lemma pow2_succ k : 0 <= k -> 2 ^ (k + 1) = 2 * 2 ^ k.
Proof. intros Hk. rewrite Z.pow_add_r by lia. lia. Qed.

Lemma pow2_le j k : 0 <= j <= k -> 2 ^ j <= 2 ^ k.
Proof. intros Hjk. apply Z.pow_le_mono_r; lia. Qed.

Lemma pow2_lt j k : 0 <= j < k -> 2 ^ j < 2 ^ k.
Proof. intros Hjk. apply Z.pow_lt_mono_r; lia. Qed.

Lemma pow2_pred k : 0 < k -> 2 ^ k = 2 * 2 ^ (k - 1).
Proof. intros Hk. rewrite <- pow2_succ by lia. f_equal. lia. Qed.

Lemma digits2_pos_bounds (m : positive) :
  2 ^ (Zpos (digits2_pos m) - 1) <= Zpos m < 2 ^ Zpos (digits2_pos m).
Proof.
  induction m as [p IH|p IH|]; cbn [digits2_pos].
  - rewrite Pos2Z.inj_succ.
    set (d := Zpos (digits2_pos p)) in *.
    replace (Z.succ d - 1) with d by lia.
    assert (Hd : 0 < d) by (unfold d; lia).
    assert (H1 : 2 ^ Z.succ d = 2 * 2 ^ d) by (apply Z.pow_succ_r; lia).
    assert (H2 : 2 ^ d = 2 * 2 ^ (d - 1)) by (by apply pow2_pred).
    lia.
  - rewrite Pos2Z.inj_succ.
    set (d := Zpos (digits2_pos p)) in *.
    replace (Z.succ d - 1) with d by lia.
    assert (Hd : 0 < d) by (unfold d; lia).
    assert (H1 : 2 ^ Z.succ d = 2 * 2 ^ d) by (apply Z.pow_succ_r; lia).
    assert (H2 : 2 ^ d = 2 * 2 ^ (d - 1)) by (by apply pow2_pred).
    lia.
  - cbn. lia.
Qed.

(** The number of binary digits of a positive integer is determined by the
    powers of two around it. *)
Lemma digits2_pos_unique (m : positive) (d : Z) :
  2 ^ (d - 1) <= Zpos m < 2 ^ d -> Zpos (digits2_pos m) = d.
Proof.
  intros [Hlo Hhi]. destruct (digits2_pos_bounds m) as [Hlo' Hhi'].
  assert (Hd : 0 < d).
  { destruct (Z.lt_trichotomy d 0) as [?|[->|?]]; [|cbn in *; lia|done].
    rewrite Z.pow_neg_r in Hhi by lia. lia. }
  destruct (Z.lt_trichotomy (Zpos (digits2_pos m)) d) as [Hlt|[Heq|Hgt]]; [|done|].
  - assert (2 ^ Zpos (digits2_pos m) <= 2 ^ (d - 1)) by (apply pow2_le; lia). lia.
  - assert (2 ^ d <= 2 ^ (Zpos (digits2_pos m) - 1)) by (apply pow2_le; lia). lia.
Qed.

Lemma digits2_pos_mono (m n : positive) :
  (m <= n)%positive -> Zpos (digits2_pos m) <= Zpos (digits2_pos n).
Proof.
  intros Hmn. destruct (digits2_pos_bounds m) as [Hlo _].
  destruct (digits2_pos_bounds n) as [_ Hhi].
  destruct (Z.le_gt_cases (Zpos (digits2_pos m)) (Zpos (digits2_pos n))) as [?|Hgt]; [done|].
  assert (2 ^ Zpos (digits2_pos n) <= 2 ^ (Zpos (digits2_pos m) - 1)) by (apply pow2_le; lia).
  lia.
Qed.

(** ** Shifting right with a round bit and a sticky bit *)

Lemma iter_pos_nat {A} (f : A -> A) (p : positive) : forall x,
  SpecFloat.iter_pos f p x = Nat.iter (Pos.to_nat p) f x.
Proof.
  induction p as [p IH|p IH|]; intros x; cbn [SpecFloat.iter_pos].
  - rewrite !IH, <- Nat.iter_add, <- Nat.iter_succ_r. f_equal. lia.
  - rewrite !IH, <- Nat.iter_add. f_equal. lia.
  - reflexivity.
Qed.

Lemma shr_1_nonneg m r s :
  0 <= m ->
  shr_1 {| shr_m := m; shr_r := r; shr_s := s |}
  = {| shr_m := m / 2; shr_r := Z.odd m; shr_s := r || s |}.
Proof.
  intros Hm. rewrite <- Z.div2_div.
  destruct m as [|[p|p|]|p]; try reflexivity; lia.
Qed.

Lemma mod_pow2_succ m0 k :
  0 <= k ->
  m0 mod 2 ^ (k + 1) = m0 mod 2 ^ k + 2 ^ k * (if Z.odd (m0 / 2 ^ k) then 1 else 0).
Proof.
  intros Hk. rewrite Z.pow_add_r by lia. change (2 ^ 1) with 2.
  rewrite Z.rem_mul_r by (pose proof (pow2_pos k Hk); lia).
  by rewrite Zmod_odd.
Qed.

Lemma shr_rec_iter (m0 : Z) (k : nat) :
  0 <= m0 ->
  Nat.iter k shr_1 {| shr_m := m0; shr_r := false; shr_s := false |}
  = shr_rec m0 k.
Proof.
  intros Hm0. induction k as [|k IH]; [reflexivity|].
  rewrite Nat.iter_succ, IH. destruct k as [|k'].
  - cbn [shr_rec]. rewrite shr_1_nonneg by done. cbn [Z.of_nat].
    change (2 ^ Z.pos 1) with 2. change (2 ^ 0) with 1.
    by rewrite Z.div_1_r, Z.mod_1_r.
  - cbn [shr_rec]. rewrite shr_1_nonneg.
    2:{ apply Z.div_pos; [done|]. apply pow2_pos. lia. }
    f_equal.
    + rewrite Z.div_div by (try apply pow2_pos; lia).
      f_equal. rewrite (Nat2Z.inj_succ (S k')). unfold Z.succ.
      rewrite pow2_succ by lia. lia.
    + rewrite (Nat2Z.inj_succ k'). unfold Z.succ.
      rewrite (mod_pow2_succ m0 (Z.of_nat k')) by lia.
      pose proof (pow2_pos (Z.of_nat k') ltac:(lia)) as Hp.
      pose proof (Z.mod_pos_bound m0 (2 ^ Z.of_nat k') Hp).
      destruct (Z.odd _); destruct (Z.eqb_spec (m0 mod 2 ^ Z.of_nat k') 0);
        cbn [orb negb]; symmetry;
        try (apply negb_true_iff, Z.eqb_neq; lia);
        try (apply negb_false_iff, Z.eqb_eq; lia).
Qed.

Lemma loc_shr_rec (m0 : Z) (k : nat) :
  0 <= m0 ->
  shr_m (shr_rec m0 k) = m0 / 2 ^ Z.of_nat k /\
  loc_of_shr_record (shr_rec m0 k) = loc_rem (m0 mod 2 ^ Z.of_nat k) (Z.of_nat k).
Proof.
  intros Hm0. destruct k as [|k'].
  - cbn [shr_rec shr_m Z.of_nat]. change (2 ^ 0) with 1.
    by rewrite Z.div_1_r, Z.mod_1_r.
  - cbn [shr_rec shr_m]. split; [done|].
    rewrite (Nat2Z.inj_succ k'). unfold Z.succ.
    rewrite (mod_pow2_succ m0 (Z.of_nat k')) by lia.
    pose proof (pow2_pos (Z.of_nat k') ltac:(lia)) as Hp.
    pose proof (Z.mod_pos_bound m0 (2 ^ Z.of_nat k') Hp).
    unfold loc_rem, loc_of_shr_record.
    rewrite (pow2_succ (Z.of_nat k')) by lia.
    destruct (Z.odd _); destruct (Z.eqb_spec (m0 mod 2 ^ Z.of_nat k') 0) as [Hz|Hnz];
      cbn [negb].
    + rewrite Hz. destruct (Z.eqb_spec (0 + 2 ^ Z.of_nat k' * 1) 0); [lia|].
      f_equal. symmetry. apply Z.compare_eq_iff. lia.
    + destruct (Z.eqb_spec (m0 mod 2 ^ Z.of_nat k' + 2 ^ Z.of_nat k' * 1) 0); [lia|].
      f_equal. symmetry. apply Z.compare_gt_iff. lia.
    + rewrite Hz. by rewrite Z.mul_0_r.
    + rewrite Z.mul_0_r, Z.add_0_r.
      destruct (Z.eqb_spec (m0 mod 2 ^ Z.of_nat k') 0); [lia|].
      f_equal. symmetry. apply Z.compare_lt_iff. lia.
Qed.

(** ** Rounding to nearest, ties to even, of [m0 / 2^k] *)

Lemma rne_cases m0 k :
  0 <= k ->
  let q := m0 / 2 ^ k in
  let rem := m0 mod 2 ^ k in
  (2 * rem < 2 ^ k /\ rne m0 k = q) \/
  (2 * rem = 2 ^ k /\ rne m0 k = if Z.even q then q else q + 1) \/
  (2 * rem > 2 ^ k /\ rne m0 k = q + 1).
Proof.
  intros Hk q rem. unfold rne, loc_rem. fold q rem.
  pose proof (pow2_pos k Hk).
  destruct (Z.eqb_spec rem 0) as [Hz|Hnz]; [left; cbn; lia|].
  destruct (Z.compare_spec (2 * rem) (2 ^ k)); cbn [round_nearest_even]; auto.
  right. right. split; [lia|done].
Qed.

Lemma rne_bounds m0 k :
  0 <= k -> m0 / 2 ^ k <= rne m0 k <= m0 / 2 ^ k + 1.
Proof.
  intros Hk. destruct (rne_cases m0 k Hk) as [[_ ->]|[[_ ->]|[_ ->]]];
    try destruct (Z.even _); lia.
Qed.

Lemma rne_mono m0 m1 k :
  0 <= k -> m0 <= m1 -> rne m0 k <= rne m1 k.
Proof.
  intros Hk Hm. pose proof (pow2_pos k Hk) as Hp.
  assert (Hq : m0 / 2 ^ k <= m1 / 2 ^ k) by (by apply Z.div_le_mono).
  pose proof (rne_bounds m0 k Hk). pose proof (rne_bounds m1 k Hk).
  destruct (Z.eq_dec (m0 / 2 ^ k) (m1 / 2 ^ k)) as [Heq|Hne]; [|lia].
  assert (Hrem : m0 mod 2 ^ k <= m1 mod 2 ^ k).
  { pose proof (Z.div_mod m0 (2 ^ k) ltac:(lia)).
    pose proof (Z.div_mod m1 (2 ^ k) ltac:(lia)). nia. }
  destruct (rne_cases m0 k Hk) as [[? ->]|[[? ->]|[? ->]]];
    destruct (rne_cases m1 k Hk) as [[? ->]|[[? ->]|[? ->]]];
    rewrite <- ?Heq; try destruct (Z.even _); lia.
Qed.

(** Below or at a multiple of [2^k], above or at a multiple of [2^k]. *)
Lemma rne_le_multiple m0 k c :
  0 <= k -> m0 <= c * 2 ^ k -> rne m0 k <= c.
Proof.
  intros Hk Hm. pose proof (pow2_pos k Hk) as Hp.
  destruct (Z.eq_dec m0 (c * 2 ^ k)) as [->|Hne].
  - destruct (rne_cases (c * 2 ^ k) k Hk) as [[? ->]|[[H ?]|[H ?]]];
      rewrite ?Z.div_mul, ?Z.mod_mul in * by lia; lia.
  - assert (m0 / 2 ^ k < c).
    { apply Z.div_lt_upper_bound; lia. }
    pose proof (rne_bounds m0 k Hk). lia.
Qed.

Lemma rne_ge_multiple m0 k c :
  0 <= k -> c * 2 ^ k <= m0 -> c <= rne m0 k.
Proof.
  intros Hk Hm. pose proof (pow2_pos k Hk) as Hp.
  assert (c <= m0 / 2 ^ k) by (apply Z.div_le_lower_bound; lia).
  pose proof (rne_bounds m0 k Hk). lia.
Qed.

(** Scaling the number and the shift together changes nothing. *)
Lemma rne_scale m0 k j :
  0 <= k -> 0 <= j -> rne (m0 * 2 ^ j) (k + j) = rne m0 k.
Proof.
  intros Hk Hj. unfold rne, loc_rem.
  pose proof (pow2_pos k Hk). pose proof (pow2_pos j Hj).
  rewrite Z.pow_add_r by lia.
  rewrite Z.div_mul_cancel_r by lia.
  rewrite Z.mul_mod_distr_r by lia.
  destruct (Z.eqb_spec (m0 mod 2 ^ k) 0) as [Hz|Hnz].
  - rewrite Hz. reflexivity.
  - destruct (Z.eqb_spec (m0 mod 2 ^ k * 2 ^ j) 0) as [Hz'|_]; [nia|].
    f_equal. f_equal. 
    replace (2 * (m0 mod 2 ^ k * 2 ^ j)) with (2 * (m0 mod 2 ^ k) * 2 ^ j) by lia.
    destruct (Z.compare_spec (2 * (m0 mod 2 ^ k)) (2 ^ k)).
    + apply Z.compare_eq_iff. nia.
    + apply Z.compare_lt_iff. nia.
    + apply Z.compare_gt_iff. nia.
Qed.

(** ** Rounding a positive dyadic number to binary64

    A positive number is written [X * 2^-2200], [X] a positive integer, so
    that the exact results of sums and products of floats fit. *)

Lemma fexp64_eq e : fexp prec emax e = fexp64 e.
Proof. reflexivity. Qed.

Lemma pos_iter_xO (m d : positive) :
  Zpos (Pos.iter xO m d) = Zpos m * 2 ^ Zpos d.
Proof.
  induction d as [|d IH] using Pos.peano_ind.
  - cbn [Pos.iter]. change (2 ^ 1) with 2. lia.
  - rewrite Pos.iter_succ, Pos2Z.inj_succ. unfold Z.succ.
    rewrite pow2_succ by lia. rewrite Pos2Z.inj_xO, IH. lia.
Qed.

Lemma digits_scale (m x : positive) (k : Z) :
  0 <= k -> Zpos x = Zpos m * 2 ^ k ->
  Zpos (digits2_pos x) = Zpos (digits2_pos m) + k.
Proof.
  intros Hk Hx. apply digits2_pos_unique. rewrite Hx.
  destruct (digits2_pos_bounds m) as [Hlo Hhi].
  pose proof (pow2_pos k Hk).
  replace (Zpos (digits2_pos m) + k - 1) with (Zpos (digits2_pos m) - 1 + k) by lia.
  rewrite !Z.pow_add_r by lia. nia.
Qed.

Lemma shr_fexp_exact (m e : Z) :
  0 <= m -> 0 <= fexp64 (Zdigits2 m + e) - e ->
  shr_fexp prec emax m e loc_Exact
  = (shr_rec m (Z.to_nat (fexp64 (Zdigits2 m + e) - e)), fexp64 (Zdigits2 m + e)).
Proof.
  intros Hm Hn. unfold shr_fexp, shr. rewrite fexp64_eq.
  cbn [shr_record_of_loc].
  destruct (fexp64 (Zdigits2 m + e) - e) as [|p|p] eqn:Hp; [| |lia].
  - cbn. f_equal. lia.
  - rewrite iter_pos_nat, shr_rec_iter by done.
    rewrite Z2Nat.inj_pos. f_equal. lia.
Qed.

Lemma shr_fexp_keep (m e : Z) :
  fexp64 (Zdigits2 m + e) - e <= 0 ->
  shr_fexp prec emax m e loc_Exact
  = ({| shr_m := m; shr_r := false; shr_s := false |}, e).
Proof.
  intros Hn. unfold shr_fexp, shr. rewrite fexp64_eq. cbn [shr_record_of_loc].
  by destruct (fexp64 (Zdigits2 m + e) - e) as [|p|p] eqn:Hp; [| lia |].
Qed.

Lemma quot_upper (mx : positive) (n k : Z) :
  0 <= n -> 0 <= k -> Zpos (digits2_pos mx) <= n + k ->
  Zpos mx / 2 ^ n < 2 ^ k.
Proof.
  intros Hn Hk Hd. destruct (digits2_pos_bounds mx) as [_ Hhi].
  pose proof (pow2_pos n Hn). 
  apply Z.div_lt_upper_bound; [done|].
  rewrite <- Z.pow_add_r by lia.
  assert (2 ^ Zpos (digits2_pos mx) <= 2 ^ (n + k)) by (apply pow2_le; lia). lia.
Qed.

Lemma quot_lower (mx : positive) (n k : Z) :
  0 <= n -> 0 <= k -> n + k <= Zpos (digits2_pos mx) - 1 ->
  2 ^ k <= Zpos mx / 2 ^ n.
Proof.
  intros Hn Hk Hd. destruct (digits2_pos_bounds mx) as [Hlo _].
  pose proof (pow2_pos n Hn).
  apply Z.div_le_lower_bound; [done|].
  rewrite <- Z.pow_add_r by lia.
  assert (2 ^ (n + k) <= 2 ^ (Zpos (digits2_pos mx) - 1)) by (apply pow2_le; lia). lia.
Qed.

(** The rounded mantissa before renormalisation: at most [2^53], and at
    least [2^52] above the subnormal range. *)
Lemma rne_mantissa_range (mx : positive) (ex : Z) :
  let E := fexp64 (Zpos (digits2_pos mx) + ex) in
  ex <= E ->
  0 <= rne (Zpos mx) (E - ex) <= 2 ^ 53 /\
  (-1074 < E -> 2 ^ 52 <= rne (Zpos mx) (E - ex)).
Proof.
  intros E HE. unfold E, fexp64 in *.
  pose proof (rne_bounds (Zpos mx) (E - ex) ltac:(unfold E, fexp64; lia)) as Hb.
  unfold E, fexp64 in Hb.
  assert (Hq0 : 0 <= Zpos mx / 2 ^ (Z.max (Zpos (digits2_pos mx) + ex - 53) (-1074) - ex)).
  { apply Z.div_pos; [lia|]. apply pow2_pos. lia. }
  assert (Hup : Zpos mx / 2 ^ (Z.max (Zpos (digits2_pos mx) + ex - 53) (-1074) - ex) < 2 ^ 53).
  { apply quot_upper; lia. }
  split; [lia|]. intros Hnormal.
  assert (Hlo : 2 ^ 52 <= Zpos mx / 2 ^ (Z.max (Zpos (digits2_pos mx) + ex - 53) (-1074) - ex)).
  { apply quot_lower; lia. }
  lia.
Qed.

Lemma digits_below_pow (p : positive) (k : Z) :
  0 <= k -> Zpos p < 2 ^ k -> Zpos (digits2_pos p) <= k.
Proof.
  intros Hk Hp. destruct (digits2_pos_bounds p) as [Hlo _].
  destruct (Z.le_gt_cases (Zpos (digits2_pos p)) k) as [?|Hgt]; [done|].
  assert (2 ^ k <= 2 ^ (Zpos (digits2_pos p) - 1)) by (apply pow2_le; lia). lia.
Qed.

Lemma digits_above_pow (p : positive) (k : Z) :
  0 <= k -> 2 ^ k <= Zpos p -> k + 1 <= Zpos (digits2_pos p).
Proof.
  intros Hk Hp. destruct (digits2_pos_bounds p) as [_ Hhi].
  destruct (Z.le_gt_cases (k + 1) (Zpos (digits2_pos p))) as [?|Hgt]; [done|].
  assert (2 ^ Zpos (digits2_pos p) <= 2 ^ k) by (apply pow2_le; lia). lia.
Qed.

Lemma binary_round_aux_eval sx (mx : positive) (ex : Z) :
  -2200 <= ex -> ex <= fexp64 (Zpos (digits2_pos mx) + ex) ->
  binary_round_aux prec emax sx (Zpos mx) ex loc_Exact
  = SF_of_repr sx (round_repr (Zpos mx * 2 ^ (ex + 2200))).
Proof.
  intros Hex HE.
  set (d := Zpos (digits2_pos mx)) in *. set (E := fexp64 (d + ex)) in *.
  assert (Emin : -1074 <= E) by (unfold E, fexp64; lia).
  destruct (rne_mantissa_range mx ex HE) as [[Hm0 Hm53] Hm52].
  fold d E in Hm0, Hm53, Hm52.
  (* the right-hand side *)
  assert (HX : exists x : positive, Zpos x = Zpos mx * 2 ^ (ex + 2200)).
  { pose proof (pow2_pos (ex + 2200) ltac:(lia)).
    exists (Z.to_pos (Zpos mx * 2 ^ (ex + 2200))). rewrite Z2Pos.id; lia. }
  destruct HX as [x Hx]. rewrite <- Hx.
  unfold round_repr. cbn [Zdigits2].
  rewrite (digits_scale mx x (ex + 2200)) by (done || lia). fold d.
  replace (d + (ex + 2200) - 2200) with (d + ex) by lia. fold E.
  rewrite Hx. replace (E + 2200) with ((E - ex) + (ex + 2200)) by lia.
  rewrite rne_scale by lia.
  (* the left-hand side *)
  unfold binary_round_aux.
  rewrite shr_fexp_exact by (cbn [Zdigits2]; fold d E; lia).
  cbn [Zdigits2]. fold d E.
  destruct (loc_shr_rec (Zpos mx) (Z.to_nat (E - ex)) ltac:(lia)) as [-> ->].
  rewrite Z2Nat.id by lia. fold (rne (Zpos mx) (E - ex)).
  set (m1 := rne (Zpos mx) (E - ex)) in *.
  destruct (Z.eqb_spec m1 (2 ^ 53)) as [H53|H53].
  - (* the mantissa overflowed to 2^53 *)
    rewrite H53.
    rewrite shr_fexp_exact; [|lia|].
    2:{ change (Zdigits2 (2 ^ 53)) with 54. unfold fexp64. lia. }
    change (Zdigits2 (2 ^ 53)) with 54.
    replace (fexp64 (54 + E)) with (E + 1) by (unfold fexp64; lia).
    replace (E + 1 - E) with 1 by lia.
    reflexivity.
  - destruct m1 as [|p|p] eqn:Hm1; [| |lia].
    + rewrite shr_fexp_keep; [reflexivity|].
      cbn [Zdigits2]. unfold fexp64. lia.
    + assert (Hd1 : Zpos (digits2_pos p) <= 53).
      { apply digits_below_pow; lia. }
      assert (Hkeep : fexp64 (Zpos (digits2_pos p) + E) = E).
      { unfold fexp64. destruct (Z.eq_dec E (-1074)) as [->|HE']; [lia|].
        assert (53 <= Zpos (digits2_pos p)).
        { apply (digits_above_pow p 52); [lia|]. apply Hm52. lia. }
        lia. }
      rewrite shr_fexp_keep by (cbn [Zdigits2]; lia).
      reflexivity.
Qed.

Lemma binary_round_eval sx (mx : positive) (ex : Z) :
  -2200 <= ex ->
  binary_round prec emax sx mx ex
  = SF_of_repr sx (round_repr (Zpos mx * 2 ^ (ex + 2200))).
Proof.
  intros Hex. unfold binary_round, shl_align. rewrite fexp64_eq.
  set (d := Zpos (digits2_pos mx)). set (E := fexp64 (d + ex)).
  assert (Emin : -1074 <= E) by (unfold E, fexp64; lia).
  destruct (E - ex) as [|p|p] eqn:Hp.
  - apply binary_round_aux_eval; [done|]. change (ex <= E). lia.
  - apply binary_round_aux_eval; [done|]. change (ex <= E). lia.
  - assert (Hmz : Zpos (Pos.iter xO mx p) = Zpos mx * 2 ^ Zpos p) by apply pos_iter_xO.
    rewrite binary_round_aux_eval.
    + rewrite Hmz, <- Z.mul_assoc, <- Z.pow_add_r by lia.
      replace (Zpos p + (E + 2200)) with (ex + 2200) by lia. reflexivity.
    + lia.
    + rewrite (digits_scale mx _ (Zpos p)) by (done || lia). fold d.
      replace (d + Zpos p + E) with (d + ex) by lia. fold E. lia.
Qed.

Lemma round_repr_facts (X : Z) :
  0 < X ->
  let E := fexp64 (Zdigits2 X - 2200) in
  let m1 := rne X (E + 2200) in
  -1074 <= E /\ 0 <= m1 <= 2 ^ 53 /\ (-1074 < E -> 2 ^ 52 <= m1) /\
  round_repr X = (if m1 =? 2 ^ 53 then (2 ^ 52, E + 1) else (m1, E)).
Proof.
  intros HX E m1. destruct X as [|x|x]; try lia.
  destruct (rne_mantissa_range x (-2200)) as [Hr Hn].
  { unfold fexp64. lia. }
  unfold E, m1. cbn [Zdigits2].
  replace (Zpos (digits2_pos x) + -2200) with (Zpos (digits2_pos x) - 2200) in * by lia.
  replace (fexp64 (Zpos (digits2_pos x) - 2200) - -2200)
    with (fexp64 (Zpos (digits2_pos x) - 2200) + 2200) in * by lia.
  split; [unfold fexp64; lia|]. split; [done|]. split; [done|]. reflexivity.
Qed.

Lemma Zdigits2_mono (X Y : Z) : 0 < X <= Y -> Zdigits2 X <= Zdigits2 Y.
Proof.
  intros [HX HXY]. destruct X as [|x|x], Y as [|y|y]; try lia.
  cbn [Zdigits2]. apply digits2_pos_mono. lia.
Qed.

Lemma round_repr_mono (X Y : Z) :
  0 < X <= Y ->
  ~ lex_lt (repr_rank (round_repr Y)) (repr_rank (round_repr X)).
Proof.
  intros [HX HXY].
  destruct (round_repr_facts X HX) as (EminX & [HmX0 HmX] & HnX & ->).
  destruct (round_repr_facts Y ltac:(lia)) as (EminY & [HmY0 HmY] & HnY & ->).
  pose proof (Zdigits2_mono X Y ltac:(lia)) as Hd.
  set (EX := fexp64 (Zdigits2 X - 2200)) in *.
  set (EY := fexp64 (Zdigits2 Y - 2200)) in *.
  assert (HE : EX <= EY) by (unfold EX, EY, fexp64; lia).
  set (mX := rne X (EX + 2200)) in *. set (mY := rne Y (EY + 2200)) in *.
  assert (Hsame : EX = EY -> mX <= mY).
  { intros Heq. unfold mX, mY. rewrite Heq. apply rne_mono; lia. }
  assert (H52 : 2 ^ 52 = 4503599627370496) by reflexivity.
  assert (H53 : 2 ^ 53 = 9007199254740992) by reflexivity.
  rewrite H52, H53 in *.
  unfold repr_rank, lex_lt.
  destruct (Z.eqb_spec mX 9007199254740992), (Z.eqb_spec mY 9007199254740992);
    cbn [fst snd];
    repeat match goal with
           | |- context [?a =? ?b] => destruct (Z.eqb_spec a b)
           | |- context [?a <=? ?b] => destruct (Z.leb_spec a b)
           end; cbn [fst snd]; lia.
Qed.

(** ** Valid floats *)

Lemma valid_finite s m e :
  valid_binary (S754_finite s m e) = true ->
  fexp64 (Zpos (digits2_pos m) + e) = e /\ e <= 971.
Proof.
  cbn [SpecFloat.valid_binary]. unfold bounded, canonical_mantissa.
  rewrite fexp64_eq. intros [Hc Hb]%andb_true_iff.
  apply Z.eqb_eq in Hc. apply Z.leb_le in Hb. split; [done|]. exact Hb.
Qed.

Lemma valid_finite_range s m e :
  valid_binary (S754_finite s m e) = true ->
  -1074 <= e <= 971 /\ Zpos (digits2_pos m) <= 53 /\
  (-1074 < e -> Zpos (digits2_pos m) = 53).
Proof.
  intros [Hc Hb]%valid_finite. unfold fexp64 in Hc. lia.
Qed.

Lemma binary_normalize_eval (z e : Z) :
  -2200 <= e ->
  binary_normalize prec emax z e false = round64 (z * 2 ^ (e + 2200)).
Proof.
  intros He. pose proof (pow2_pos (e + 2200) ltac:(lia)) as Hp.
  unfold binary_normalize. destruct z as [|p|p].
  - reflexivity.
  - rewrite binary_round_eval by done.
    destruct (Zpos p * 2 ^ (e + 2200)) as [|x|x] eqn:Hx; try lia.
    cbn [round64]. exact eq_refl.
  - rewrite binary_round_eval by done.
    destruct (Zneg p * 2 ^ (e + 2200)) as [|x|x] eqn:Hx; try lia.
    cbn [round64]. do 2 f_equal. lia.
Qed.

Lemma round_repr_nonneg (X : Z) : 0 < X -> 0 <= (round_repr X).1.
Proof.
  intros HX. destruct (round_repr_facts X HX) as (_ & [Hm0 _] & _ & ->).
  destruct (_ =? _); cbn; lia.
Qed.

Lemma SFrank_of_repr (sx : bool) (r : Z * Z) :
  0 <= r.1 ->
  SFrank (SF_of_repr sx r)
  = if sx then rank_neg (repr_rank r) else repr_rank r.
Proof.
  intros Hr. destruct r as [m e]. unfold SF_of_repr, repr_rank. cbn [fst snd] in *.
  destruct m as [|p|p]; [by destruct sx| |lia].
  cbn [Z.eqb]. destruct (e <=? 971); by destruct sx.
Qed.

Lemma repr_rank_nonneg (r : Z * Z) :
  repr_rank r = (0, 0, 0) \/ 1 <= (repr_rank r).1.1.
Proof.
  unfold repr_rank. destruct (_ =? _); [by left|].
  right. destruct (_ <=? _); cbn; lia.
Qed.

Lemma round64_mono (X Y : Z) :
  X <= Y -> ~ lex_lt (SFrank (round64 Y)) (SFrank (round64 X)).
Proof.
  intros HXY. unfold round64.
  destruct X as [|x|x], Y as [|y|y]; try lia;
    rewrite ?SFrank_of_repr by (apply round_repr_nonneg; lia).
  - unfold lex_lt. cbn. lia.
  - destruct (repr_rank_nonneg (round_repr (Zpos y))) as [->|Hy];
      unfold lex_lt; cbn [SFrank fst snd]; lia.
  - by apply round_repr_mono.
  - destruct (repr_rank_nonneg (round_repr (Zpos x))) as [->|Hx];
      unfold lex_lt, rank_neg; cbn [SFrank fst snd]; lia.
  - destruct (repr_rank_nonneg (round_repr (Zpos x))) as [->|Hx];
      destruct (repr_rank_nonneg (round_repr (Zpos y))) as [->|Hy];
      unfold lex_lt, rank_neg; cbn [fst snd]; lia.
  - pose proof (round_repr_mono (Zpos y) (Zpos x) ltac:(lia)) as Hm.
    unfold lex_lt, rank_neg in *. cbn [fst snd] in *. lia.
Qed.

(** ** Sums, differences and products of floats are rounded exact results *)

Lemma shl_align_fst (mx : positive) (ex ez : Z) :
  ez <= ex -> Zpos (shl_align mx ex ez).1 = Zpos mx * 2 ^ (ex - ez).
Proof.
  intros Hez. unfold shl_align.
  destruct (ez - ex) as [|p|p] eqn:Hp; [|lia|].
  - replace (ex - ez) with 0 by lia. cbn [fst]. change (2 ^ 0) with 1. lia.
  - cbn [fst]. rewrite pos_iter_xO. do 2 f_equal. lia.
Qed.

Lemma scaled_unit (m e ez k : Z) :
  0 <= k -> -1074 <= ez <= e ->
  m * 2 ^ (e - ez) * 2 ^ (ez + 1074 + k) = m * 2 ^ (e + 1074) * 2 ^ k.
Proof.
  intros Hk He. rewrite <- !Z.mul_assoc, <- !Z.pow_add_r by lia.
  do 2 f_equal. lia.
Qed.

Lemma cond_Zopp_mul s a c : cond_Zopp s a * c = cond_Zopp s (a * c).
Proof. destruct s; cbn [cond_Zopp]; lia. Qed.

Lemma SFadd_finite sx mx ex sy my ey :
  -1074 <= ex -> -1074 <= ey ->
  SF64add (S754_finite sx mx ex) (S754_finite sy my ey)
  = round64 ((SFint (S754_finite sx mx ex) + SFint (S754_finite sy my ey))
             * 2 ^ 1126).
Proof.
  intros Hex Hey. unfold SF64add, SFadd, SFint.
  rewrite binary_normalize_eval by lia. f_equal.
  rewrite !shl_align_fst by lia.
  rewrite !Z.mul_add_distr_r, !cond_Zopp_mul. f_equal; f_equal.
  - replace (Z.min ex ey + 2200) with (Z.min ex ey + 1074 + 1126) by lia.
    apply scaled_unit; lia.
  - replace (Z.min ex ey + 2200) with (Z.min ex ey + 1074 + 1126) by lia.
    apply scaled_unit; lia.
Qed.

Lemma SFsub_finite sx mx ex sy my ey :
  -1074 <= ex -> -1074 <= ey ->
  SF64sub (S754_finite sx mx ex) (S754_finite sy my ey)
  = round64 ((SFint (S754_finite sx mx ex) - SFint (S754_finite sy my ey))
             * 2 ^ 1126).
Proof.
  intros Hex Hey. unfold SF64sub, SFsub, SFint.
  rewrite binary_normalize_eval by lia. f_equal.
  rewrite !shl_align_fst by lia.
  rewrite !Z.mul_sub_distr_r, !cond_Zopp_mul. f_equal; f_equal.
  - replace (Z.min ex ey + 2200) with (Z.min ex ey + 1074 + 1126) by lia.
    apply scaled_unit; lia.
  - replace (Z.min ex ey + 2200) with (Z.min ex ey + 1074 + 1126) by lia.
    apply scaled_unit; lia.
Qed.

Lemma digits_mul_lower (a b : positive) :
  Zpos (digits2_pos a) + Zpos (digits2_pos b) - 1 <= Zpos (digits2_pos (a * b)).
Proof.
  destruct (digits2_pos_bounds a) as [Ha _]. destruct (digits2_pos_bounds b) as [Hb _].
  pose proof (pow2_pos (Zpos (digits2_pos a) - 1) ltac:(lia)).
  pose proof (pow2_pos (Zpos (digits2_pos b) - 1) ltac:(lia)).
  pose proof (digits_above_pow (a * b)
                (Zpos (digits2_pos a) - 1 + (Zpos (digits2_pos b) - 1)) ltac:(lia)) as Hd.
  rewrite Z.pow_add_r in Hd by lia.
  rewrite Pos2Z.inj_mul in Hd. specialize (Hd ltac:(nia)). lia.
Qed.

Lemma SFmul_finite sp mp ep sI mI eI :
  valid_binary (S754_finite sp mp ep) = true ->
  valid_binary (S754_finite sI mI eI) = true ->
  SF64mul (S754_finite sp mp ep) (S754_finite sI mI eI)
  = SF_of_repr (xorb sp sI)
      (round_repr (Zpos mp * 2 ^ (ep + 1074) * (Zpos mI * 2 ^ (eI + 1074))
                   * 2 ^ 52)).
Proof.
  intros (Hep & Hdp & Hnp)%valid_finite_range (HeI & HdI & HnI)%valid_finite_range.
  unfold SF64mul, SFmul.
  pose proof (digits_mul_lower mp mI) as Hd.
  rewrite binary_round_aux_eval.
  - do 2 f_equal. rewrite Pos2Z.inj_mul.
    replace (ep + eI + 2200) with ((ep + 1074) + (eI + 1074) + 52) by lia.
    rewrite !Z.pow_add_r by lia. lia.
  - lia.
  - unfold fexp64. lia.
Qed.

(** ** The order of the ranks is the order of the values *)

Lemma SFint_positive_le m1 e1 m2 e2 :
  SFvalid (S754_finite false m1 e1) -> SFvalid (S754_finite false m2 e2) ->
  e1 < e2 \/ (e1 = e2 /\ Zpos m1 <= Zpos m2) ->
  Zpos m1 * 2 ^ (e1 + 1074) <= Zpos m2 * 2 ^ (e2 + 1074).
Proof.
  intros (He1 & Hd1 & Hn1)%valid_finite_range (He2 & Hd2 & Hn2)%valid_finite_range Hle.
  destruct Hle as [Hlt|[-> Hm]].
  - pose proof (pow2_pos (e1 + 1074) ltac:(lia)) as Hp1.
    pose proof (pow2_pos (e2 + 1074) ltac:(lia)) as Hp2.
    destruct (digits2_pos_bounds m1) as [_ Hhi1].
    destruct (digits2_pos_bounds m2) as [Hlo2 _].
    rewrite (Hn2 ltac:(lia)) in Hlo2. change (53 - 1) with 52 in Hlo2.
    assert (2 ^ Zpos (digits2_pos m1) <= 2 ^ 53) as H53 by (apply pow2_le; lia).
    assert (2 ^ 53 * 2 ^ (e1 + 1074) <= 2 ^ 52 * 2 ^ (e2 + 1074)) as Hpow.
    { rewrite <- !Z.pow_add_r by lia. apply pow2_le; lia. }
    apply Z.le_trans with (2 ^ 53 * 2 ^ (e1 + 1074)).
    + apply Z.mul_le_mono_nonneg_r; lia.
    + apply Z.le_trans with (2 ^ 52 * 2 ^ (e2 + 1074)); [done|].
      apply Z.mul_le_mono_nonneg_r; lia.
  - pose proof (pow2_pos (e2 + 1074) ltac:(lia)).
    apply Z.mul_le_mono_nonneg_r; lia.
Qed.

Lemma SFint_magnitude (m : positive) (e : Z) :
  -1074 <= e -> 0 < Zpos m * 2 ^ (e + 1074).
Proof. intros He. pose proof (pow2_pos (e + 1074) ltac:(lia)). lia. Qed.

Lemma SFle_SFint a b :
  SFvalid a -> SFvalid b -> SFfinite a = true -> SFfinite b = true ->
  SFle a b -> SFint a <= SFint b.
Proof.
  intros Va Vb Fa Fb Hle. unfold SFle, lex_lt in Hle.
  destruct a as [sa|sa| |sa ma ea]; try discriminate;
    destruct b as [sb|sb| |sb mb eb]; try discriminate.
  - destruct (valid_finite_range _ _ _ Vb) as (Heb & _).
    pose proof (SFint_magnitude mb eb ltac:(lia)).
    destruct sb; cbn [SFrank SFint cond_Zopp fst snd] in *; lia.
  - destruct (valid_finite_range _ _ _ Va) as (Hea & _).
    pose proof (SFint_magnitude ma ea ltac:(lia)).
    destruct sa; cbn [SFrank SFint cond_Zopp fst snd] in *; lia.
  - destruct (valid_finite_range _ _ _ Va) as (Hea & _).
    destruct (valid_finite_range _ _ _ Vb) as (Heb & _).
    pose proof (SFint_magnitude ma ea ltac:(lia)).
    pose proof (SFint_magnitude mb eb ltac:(lia)).
    destruct sa, sb; cbn [SFrank SFint cond_Zopp fst snd] in *; try lia.
    + pose proof (SFint_positive_le mb eb ma ea Vb Va) as Hp.
      specialize (Hp ltac:(lia)). lia.
    + apply SFint_positive_le; [done..|]. lia.
Qed.

(** ** A float is the rounding of its own value *)

Lemma round_repr_exact (m : positive) (e : Z) :
  SFvalid (S754_finite false m e) ->
  round_repr (Zpos m * 2 ^ (e + 2200)) = (Zpos m, e).
Proof.
  intros V. destruct (valid_finite _ _ _ V) as [Hc He].
  destruct (valid_finite_range _ _ _ V) as (Her & Hd & _).
  pose proof (pow2_pos (e + 2200) ltac:(lia)) as Hp.
  unfold round_repr.
  destruct (Zpos m * 2 ^ (e + 2200)) as [|x|x] eqn:Hx; try lia.
  cbn [Zdigits2].
  rewrite (digits_scale m x (e + 2200)) by (lia || done).
  replace (Zpos (digits2_pos m) + (e + 2200) - 2200)
    with (Zpos (digits2_pos m) + e) by lia.
  rewrite Hc, <- Hx.
  assert (rne (Zpos m * 2 ^ (e + 2200)) (e + 2200) = Zpos m) as ->.
  { transitivity (rne (Zpos m) 0).
    - rewrite <- (rne_scale (Zpos m) 0 (e + 2200)) by lia.
      by rewrite Z.add_0_l.
    - unfold rne, loc_rem. change (2 ^ 0) with 1.
      rewrite Z.div_1_r, Z.mod_1_r. reflexivity. }
  destruct (digits2_pos_bounds m) as [_ Hhi].
  assert (2 ^ Zpos (digits2_pos m) <= 2 ^ 53) by (apply pow2_le; lia).
  destruct (Z.eqb_spec (Zpos m) (2 ^ 53)); [lia|done].
Qed.

Lemma round64_pos (X : Z) : 0 < X -> round64 X = SF_of_repr false (round_repr X).
Proof. destruct X; (lia || done). Qed.

Lemma round64_neg (X : Z) : 0 < X -> round64 (- X) = SF_of_repr true (round_repr X).
Proof. destruct X; (lia || done). Qed.

Lemma round64_exact (a : spec_float) :
  SFvalid a -> SFfinite a = true ->
  SFrank (round64 (SFint a * 2 ^ 1126)) = SFrank a.
Proof.
  intros V F. destruct a as [s|s| |s m e]; try discriminate; [done|].
  destruct (valid_finite_range _ _ _ V) as (Her & _).
  pose proof (pow2_pos (e + 2200) ltac:(lia)) as Hp.
  assert (Zpos m * 2 ^ (e + 1074) * 2 ^ 1126 = Zpos m * 2 ^ (e + 2200)) as Hm.
  { rewrite <- Z.mul_assoc, <- Z.pow_add_r by lia. do 2 f_equal. lia. }
  assert (SFvalid (S754_finite false m e)) as V' by exact V.
  destruct s; cbn [SFint cond_Zopp].
  - rewrite Z.mul_opp_l, Hm, round64_neg, round_repr_exact by (lia || done).
    unfold SF_of_repr. cbn [fst snd].
    destruct (Z.leb_spec e 971); [done|lia].
  - rewrite Hm, round64_pos, round_repr_exact by (lia || done).
    unfold SF_of_repr. cbn [fst snd].
    destruct (Z.leb_spec e 971); [done|lia].
Qed.

(** ** Sums, differences and products as roundings, zeros included *)

Lemma SFvalid_exponent s m e : SFvalid (S754_finite s m e) -> -1074 <= e.
Proof. intros (He & _)%valid_finite_range. lia. Qed.

Lemma SFvalid_opp s m e :
  SFvalid (S754_finite s m e) -> SFvalid (S754_finite (negb s) m e).
Proof. done. Qed.

Lemma SFadd_rank x a :
  SFvalid x -> SFvalid a -> SFfinite x = true -> SFfinite a = true ->
  SFrank (SF64add x a) = SFrank (round64 ((SFint x + SFint a) * 2 ^ 1126)).
Proof.
  intros Vx Va Fx Fa.
  destruct x as [sx|sx| |sx mx ex]; try discriminate;
    destruct a as [sa|sa| |sa ma ea]; try discriminate.
  - cbn [SFint]. change ((0 + 0) * 2 ^ 1126) with 0.
    by destruct sx, sa.
  - change (SFint (S754_zero sx)) with 0. rewrite Z.add_0_l.
    by rewrite round64_exact.
  - change (SFint (S754_zero sa)) with 0. rewrite Z.add_0_r.
    by rewrite round64_exact.
  - rewrite SFadd_finite; [done|by eapply SFvalid_exponent..].
Qed.

Lemma SFsub_rank x a :
  SFvalid x -> SFvalid a -> SFfinite x = true -> SFfinite a = true ->
  SFrank (SF64sub x a) = SFrank (round64 ((SFint x - SFint a) * 2 ^ 1126)).
Proof.
  intros Vx Va Fx Fa.
  destruct x as [sx|sx| |sx mx ex]; try discriminate;
    destruct a as [sa|sa| |sa ma ea]; try discriminate.
  - cbn [SFint]. change ((0 - 0) * 2 ^ 1126) with 0.
    by destruct sx, sa.
  - change (SFint (S754_zero sx)) with 0.
    replace (0 - SFint (S754_finite sa ma ea))
      with (SFint (S754_finite (negb sa) ma ea))
      by (destruct sa; cbn [SFint cond_Zopp negb]; lia).
    rewrite round64_exact; [done|by apply SFvalid_opp|done].
  - change (SFint (S754_zero sa)) with 0. rewrite Z.sub_0_r.
    by rewrite round64_exact.
  - rewrite SFsub_finite; [done|by eapply SFvalid_exponent..].
Qed.

Lemma SFmul_rank p a :
  SFvalid p -> SFvalid a -> SFfinite p = true -> SFfinite a = true ->
  SFrank (SF64mul p a) = SFrank (round64 (SFint p * SFint a * 2 ^ 52)).
Proof.
  intros Vp Va Fp Fa.
  destruct p as [sp|sp| |sp mp ep]; try discriminate;
    destruct a as [sa|sa| |sa ma ea]; try discriminate.
  - done.
  - done.
  - cbn [SFint]. by rewrite Z.mul_0_r.
  - rewrite SFmul_finite by done.
    pose proof (SFint_magnitude mp ep ltac:(by eapply SFvalid_exponent)) as Hp.
    pose proof (SFint_magnitude ma ea ltac:(by eapply SFvalid_exponent)) as Ha.
    set (P := Zpos mp * 2 ^ (ep + 1074)) in *.
    set (Q := Zpos ma * 2 ^ (ea + 1074)) in *.
    assert (0 < P * Q * 2 ^ 52) as HX by (pose proof (pow2_pos 52); nia).
    cbn [SFint]. fold P Q.
    destruct sp, sa; cbn [cond_Zopp xorb].
    + replace (- P * - Q * 2 ^ 52) with (P * Q * 2 ^ 52) by lia.
      by rewrite round64_pos.
    + replace (- P * Q * 2 ^ 52) with (- (P * Q * 2 ^ 52)) by lia.
      by rewrite round64_neg.
    + replace (P * - Q * 2 ^ 52) with (- (P * Q * 2 ^ 52)) by lia.
      by rewrite round64_neg.
    + by rewrite round64_pos.
Qed.

(** ** Neither operation produces a NaN from finite operands *)

Lemma SF_of_repr_nan sx r : 0 <= r.1 -> SFnan (SF_of_repr sx r) = false.
Proof.
  destruct r as [m e]. unfold SF_of_repr. cbn [fst snd]. intros Hm.
  destruct m; [done| |lia]. by destruct (_ <=? _).
Qed.

Lemma round64_nan X : SFnan (round64 X) = false.
Proof.
  destruct X as [|x|x]; [done|..]; cbn [round64];
    apply SF_of_repr_nan, round_repr_nonneg; lia.
Qed.

Lemma SFadd_nan x d :
  SFvalid x -> SFvalid d -> SFfinite x = true -> SFnan d = false ->
  SFnan (SF64add x d) = false.
Proof.
  intros Vx Vd Fx Nd.
  destruct x as [sx|sx| |sx mx ex]; try discriminate;
    destruct d as [sd|sd| |sd md ed]; try discriminate; try done.
  - by destruct sx, sd.
  - rewrite SFadd_finite by (by eapply SFvalid_exponent). apply round64_nan.
Qed.

Lemma SFmul_nan p a :
  SFvalid p -> SFvalid a -> SFfinite p = true -> SFfinite a = true ->
  SFnan (SF64mul p a) = false.
Proof.
  intros Vp Va Fp Fa.
  destruct p as [sp|sp| |sp mp ep]; try discriminate;
    destruct a as [sa|sa| |sa ma ea]; try discriminate; try done.
  rewrite SFmul_finite by done. apply SF_of_repr_nan, round_repr_nonneg.
  pose proof (SFint_magnitude mp ep ltac:(by eapply SFvalid_exponent)).
  pose proof (SFint_magnitude ma ea ltac:(by eapply SFvalid_exponent)).
  pose proof (pow2_pos 52). nia.
Qed.

(** ** Monotonicity *)

Lemma SFrank_lower a : ~ lex_lt (SFrank a) (-2, 0, 0).
Proof.
  unfold lex_lt. destruct a as [s|s| |s m e]; try destruct s; cbn; lia.
Qed.

Lemma SFrank_upper a : ~ lex_lt (2, 0, 0) (SFrank a).
Proof.
  unfold lex_lt. destruct a as [s|s| |s m e]; try destruct s; cbn; lia.
Qed.

Lemma SFadd_infinity x s :
  SFfinite x = true -> SF64add x (S754_infinity s) = S754_infinity s.
Proof. by destruct x. Qed.

Lemma SFadd_mono x d1 d2 :
  SFvalid x -> SFvalid d1 -> SFvalid d2 -> SFfinite x = true ->
  SFnan d1 = false -> SFnan d2 = false ->
  SFle d1 d2 -> SFle (SF64add x d1) (SF64add x d2).
Proof.
  intros Vx V1 V2 Fx N1 N2 Hle. unfold SFle.
  destruct (SFfinite d1) eqn:F1, (SFfinite d2) eqn:F2.
  - rewrite !SFadd_rank by done. apply round64_mono.
    pose proof (SFle_SFint d1 d2 V1 V2 F1 F2 Hle).
    apply Z.mul_le_mono_nonneg_r; [|lia]. pose proof (pow2_pos 1126). lia.
  - destruct d2 as [s|s| |s m e]; try discriminate.
    rewrite SFadd_infinity by done. destruct s.
    + exfalso. apply Hle. unfold lex_lt.
      destruct d1 as [s|s| |s m e]; try discriminate; try destruct s; cbn; lia.
    + apply SFrank_upper.
  - destruct d1 as [s|s| |s m e]; try discriminate.
    rewrite (SFadd_infinity x s) by done. destruct s.
    + apply SFrank_lower.
    + exfalso. apply Hle. unfold lex_lt.
      destruct d2 as [s|s| |s m e]; try discriminate; try destruct s; cbn; lia.
  - destruct d1 as [s1|s1| |s1 m1 e1]; try discriminate.
    destruct d2 as [s2|s2| |s2 m2 e2]; try discriminate.
    rewrite !SFadd_infinity by done. exact Hle.
Qed.

Lemma SFmul_mono p1 p2 a :
  SFvalid p1 -> SFvalid p2 -> SFvalid a ->
  SFfinite p1 = true -> SFfinite p2 = true -> SFfinite a = true ->
  SFle (S754_zero false) a -> SFle p1 p2 ->
  SFle (SF64mul p1 a) (SF64mul p2 a).
Proof.
  intros V1 V2 Va F1 F2 Fa Ha Hle. unfold SFle.
  rewrite !SFmul_rank by done. apply round64_mono.
  pose proof (SFle_SFint p1 p2 V1 V2 F1 F2 Hle) as Hp.
  pose proof (SFle_SFint (S754_zero false) a eq_refl Va eq_refl Fa Ha) as H0.
  cbn [SFint] in H0. pose proof (pow2_pos 52).
  apply Z.mul_le_mono_nonneg_r; [lia|].
  apply Z.mul_le_mono_nonneg_r; lia.
Qed.

Lemma SFsub_nonneg x y :
  SFvalid x -> SFvalid y -> SFfinite x = true -> SFfinite y = true ->
  SFle y x -> SFle (S754_zero false) (SF64sub x y).
Proof.
  intros Vx Vy Fx Fy Hle. unfold SFle.
  rewrite SFsub_rank by done.
  pose proof (SFle_SFint y x Vy Vx Fy Fx Hle).
  apply (round64_mono 0). pose proof (pow2_pos 1126). nia.
Qed.

Lemma SFmul_nonneg p a :
  SFvalid p -> SFvalid a -> SFfinite p = true -> SFfinite a = true ->
  SFle (S754_zero false) p -> SFle (S754_zero false) a ->
  SFle (S754_zero false) (SF64mul p a).
Proof.
  intros Vp Va Fp Fa Hp Ha. unfold SFle.
  rewrite SFmul_rank by done.
  pose proof (SFle_SFint (S754_zero false) p eq_refl Vp eq_refl Fp Hp) as H1.
  pose proof (SFle_SFint (S754_zero false) a eq_refl Va eq_refl Fa Ha) as H2.
  cbn [SFint] in H1, H2.
  apply (round64_mono 0). pose proof (pow2_pos 52). nia.
Qed.

Lemma SFadd_zero_rank x :
  SFfinite x = true -> SFrank (SF64add x (S754_zero false)) = SFrank x.
Proof.
  destruct x as [s|s| |s m e]; try discriminate; [|done].
  intros _. by destruct s.
Qed.

(** ** percent at floats: what the rounding of [*] and [+] preserves *)

Lemma percent_cons (x : float) xs p :
  percent (x :: xs) p
  = Ok (min_from x xs + p * (max_from x xs - min_from x xs))%float.
Proof. reflexivity. Qed.

Lemma SFsub_finite_l (b a : spec_float) :
  SFfinite (SF64sub b a) = true -> SFfinite b = true.
Proof.
  destruct b as [sb|sb| |sb mb eb]; try reflexivity;
    destruct a as [sa|sa| |sa ma ea];
    try destruct sa; try destruct sb; cbn; congruence.
Qed.

Lemma SFfinite_nan (a : spec_float) : SFfinite a = true -> SFnan a = false.
Proof. by destruct a. Qed.

Lemma finite64_no_nan (x : float) : finite64 x = true -> no_nan x.
Proof. apply SFfinite_nan. Qed.

Lemma float_le_SFle (x y : float) :
  no_nan x -> no_nan y -> float_le x y <-> SFle (Prim2SF x) (Prim2SF y).
Proof. intros Hx Hy. by apply leb_rank. Qed.

Lemma unit_interval_finite (p : float) :
  float_le 0 p -> float_le p 1 -> finite64 p = true.
Proof.
  unfold float_le, finite64. rewrite !leb_spec.
  change (Prim2SF 0) with (S754_zero false).
  destruct (Prim2SF p) as [s|s| |s m e]; try done.
  destruct s; [done|]. intros _ H1. vm_compute in H1. discriminate.
Qed.

Section Interpolation.
Variables m M : float.
Hypothesis m_no_nan : no_nan m.
Hypothesis M_no_nan : no_nan M.
Hypothesis m_le_M : float_le m M.
Hypothesis spread_finite : finite64 (M - m) = true.

Lemma spread_SFfinite : SFfinite (Prim2SF (M - m)) = true.
Proof. exact spread_finite. Qed.

Lemma min_SFfinite : SFfinite (Prim2SF m) = true.
Proof.
  apply SFsub_finite_r with (Prim2SF M). rewrite <- sub_spec.
  exact spread_SFfinite.
Qed.

Lemma max_SFfinite : SFfinite (Prim2SF M) = true.
Proof.
  apply SFsub_finite_l with (Prim2SF m). rewrite <- sub_spec.
  exact spread_SFfinite.
Qed.

Lemma spread_SFnonneg : SFle (S754_zero false) (Prim2SF (M - m)).
Proof.
  rewrite sub_spec.
  apply SFsub_nonneg;
    [apply Prim2SF_valid..|apply max_SFfinite|apply min_SFfinite|].
  by apply float_le_SFle.
Qed.

Lemma interpolate_no_nan (p : float) :
  finite64 p = true -> no_nan (m + p * (M - m)).
Proof.
  intros Fp. unfold no_nan, nan64. rewrite add_spec.
  apply SFadd_nan; [apply Prim2SF_valid..|apply min_SFfinite|].
  rewrite mul_spec.
  apply SFmul_nan; [apply Prim2SF_valid..|exact Fp|apply spread_SFfinite].
Qed.

Lemma interpolate_float_mono (p q : float) :
  finite64 p = true -> finite64 q = true -> float_le p q ->
  float_le (m + p * (M - m)) (m + q * (M - m)).
Proof.
  intros Fp Fq Hpq.
  apply float_le_SFle; [by apply interpolate_no_nan..|].
  rewrite !add_spec.
  apply SFadd_mono; try apply Prim2SF_valid.
  - apply min_SFfinite.
  - rewrite mul_spec.
    apply SFmul_nan; [apply Prim2SF_valid..|exact Fp|apply spread_SFfinite].
  - rewrite mul_spec.
    apply SFmul_nan; [apply Prim2SF_valid..|exact Fq|apply spread_SFfinite].
  - rewrite !mul_spec.
    apply SFmul_mono; try apply Prim2SF_valid; try done.
    + apply spread_SFnonneg.
    + by apply float_le_SFle; [apply finite64_no_nan..|].
Qed.

Lemma interpolate_float_lower (p : float) :
  finite64 p = true -> float_le 0 p -> float_le m (m + p * (M - m)).
Proof.
  intros Fp Hp.
  apply float_le_SFle; [done|by apply interpolate_no_nan|].
  assert (SFle (SF64add (Prim2SF m) (S754_zero false))
               (SF64add (Prim2SF m) (Prim2SF (p * (M - m))))) as Hle.
  { apply SFadd_mono; try apply Prim2SF_valid; try done.
    - apply min_SFfinite.
    - rewrite mul_spec.
      apply SFmul_nan; [apply Prim2SF_valid..|exact Fp|apply spread_SFfinite].
    - rewrite mul_spec.
      apply SFmul_nonneg; try apply Prim2SF_valid; try done.
      + by apply (float_le_SFle 0 p); [|apply finite64_no_nan|].
      + apply spread_SFnonneg. }
  unfold SFle in *. rewrite add_spec.
  by rewrite SFadd_zero_rank in Hle by apply min_SFfinite.
Qed.
End Interpolation.

Lemma min_le_max_float first rest :
  Forall no_nan (first :: rest) ->
  no_nan (min_from first rest) /\ no_nan (max_from first rest) /\
  float_le (min_from first rest) (max_from first rest).
Proof.
  intros Hall.
  destruct (min_from_float first rest Hall) as [Hm Hmin].
  destruct (max_from_float first rest Hall) as [HM Hmax].
  rewrite Forall_forall in Hall.
  assert (no_nan first) as Hfirst by (apply Hall; left).
  split; [by apply Hall|]. split; [by apply Hall|].
  destruct float_extremum_laws as (_ & Htrans & _).
  apply Htrans with first; [by apply Hall|done|by apply Hall| |].
  - apply Hmin. left.
  - apply Hmax. left.
Qed.

(** ** percent between the min and the max *)

(** C9, as stated, fails at floats: with [p = 1.0],
    [percent([-3.0, 0.1], 1.0) = 0.10000000000000009] lies above the max
    [0.1]. *)
Lemma percent_range_float_counterexample :
  (0 <=? 1)%float = true /\ (1 <=? 1)%float = true /\
  ~ within_range [(-3)%float; 0.1%float] 1%float.
Proof.
  split; [reflexivity|]. split; [reflexivity|].
  intros (m & M & r & Hm & HM & Hr & Hlo & Hhi).
  vm_compute in HM, Hr. injection HM as <-. injection Hr as <-.
  vm_compute in Hhi. discriminate.
Qed.

(** C9 (amended): for every non-empty sequence of rationals,
    [percent(values, p)] lies between the min and the max of the values
    when [0 <= p <= 1], and [percent(values, p) <= percent(values, q)]
    when [p <= q].  For every sequence of floats without a NaN whose
    spread [max - min] is finite, [percent(values, p)] lies between the min
    of the values and [percent(values, 1.0)] when [0.0 <= p <= 1.0], and
    [percent(values, p) <= percent(values, q)] when [p <= q] are finite:
    the rounding of [*] and [+] keeps the order.  The max of the values
    is no such bound at floats: [percent(values, 1.0)] can exceed it. *)
Theorem percent_fraction_bounds :
  (forall (values : list Qc) (p : Qc),
     values <> [] -> (0 <= p)%Qc -> (p <= 1)%Qc ->
     exists m M r,
       py_min values = Ok m /\ py_max values = Ok M /\
       percent values p = Ok r /\ (m <= r)%Qc /\ (r <= M)%Qc) /\
  (forall (values : list Qc) (p q : Qc),
     values <> [] -> (p <= q)%Qc ->
     exists rp rq,
       percent values p = Ok rp /\ percent values q = Ok rq /\ (rp <= rq)%Qc) /\
  (forall (values : list float) (p : float),
     Forall no_nan values -> finite_spread values ->
     float_le 0 p -> float_le p 1 ->
     exists m r r1,
       py_min values = Ok m /\ percent values p = Ok r /\
       percent values 1%float = Ok r1 /\ float_le m r /\ float_le r r1) /\
  (forall (values : list float) (p q : float),
     Forall no_nan values -> finite_spread values ->
     finite64 p = true -> finite64 q = true -> float_le p q ->
     exists rp rq,
       percent values p = Ok rp /\ percent values q = Ok rq /\
       float_le rp rq).
Proof.
  split; [|split; [|split]].
  - intros values p (first & rest & ->)%nonempty_cons Hp0 Hp1.
    exists (min_from first rest), (max_from first rest). eexists.
    repeat split; try reflexivity.
    + apply interpolate_lower; [done|apply min_le_max].
    + apply interpolate_upper; [done|apply min_le_max].
  - intros values p q (first & rest & ->)%nonempty_cons Hpq.
    do 2 eexists. repeat split; try reflexivity.
    apply interpolate_mono; [done|apply min_le_max].
  - intros [|first rest] p Hall (m & M & Hm & HM & Hfin) Hp0 Hp1;
      [discriminate|].
    injection Hm as <-. injection HM as <-.
    destruct (min_le_max_float first rest Hall) as (Nm & NM & Hle).
    pose proof (unit_interval_finite p Hp0 Hp1) as Fp.
    do 3 eexists. rewrite !percent_cons.
    split; [reflexivity|]. split; [reflexivity|]. split; [reflexivity|].
    split.
    + by apply interpolate_float_lower.
    + by apply interpolate_float_mono.
  - intros [|first rest] p q Hall (m & M & Hm & HM & Hfin) Fp Fq Hpq;
      [discriminate|].
    injection Hm as <-. injection HM as <-.
    destruct (min_le_max_float first rest Hall) as (Nm & NM & Hle).
    do 2 eexists. rewrite !percent_cons.
    split; [reflexivity|]. split; [reflexivity|].
    by apply interpolate_float_mono.
Qed.

Lemma percent_fraction_bounds_witness :
  (exists m M r,
     py_min [1%Qc; half; two] = Ok m /\ py_max [1%Qc; half; two] = Ok M /\
     percent [1%Qc; half; two] half = Ok r /\ (m <= r)%Qc /\ (r <= M)%Qc) /\
  (exists rp rq,
     percent [1%Qc; half; two] 0%Qc = Ok rp /\
     percent [1%Qc; half; two] half = Ok rq /\ (rp <= rq)%Qc) /\
  (exists m r r1,
     py_min [(-3)%float; 0.1%float] = Ok m /\
     percent [(-3)%float; 0.1%float] 0.9%float = Ok r /\
     percent [(-3)%float; 0.1%float] 1%float = Ok r1 /\
     float_le m r /\ float_le r r1) /\
  (exists rp rq,
     percent [(-3)%float; 0.1%float] 0.5%float = Ok rp /\
     percent [(-3)%float; 0.1%float] 0.9%float = Ok rq /\ float_le rp rq).
Proof.
  assert (Forall no_nan [(-3)%float; 0.1%float]) as Hall
    by (repeat constructor).
  assert (finite_spread [(-3)%float; 0.1%float]) as Hfin
    by (do 2 eexists; repeat split; reflexivity).
  split; [|split; [|split]].
  - apply (proj1 percent_fraction_bounds); [discriminate| |]; by vm_compute.
  - apply (proj1 (proj2 percent_fraction_bounds)); [discriminate|];
      by vm_compute.
  - apply (proj1 (proj2 (proj2 percent_fraction_bounds))); try done.
  - apply (proj2 (proj2 (proj2 percent_fraction_bounds))); try done.
Defined.


(** ** Running the loops *)

Lemma extend_nil s : extend s [] [] [] = s.
Proof. destruct s. unfold extend. cbn. by rewrite !app_nil_r. Qed.

Lemma extend_extend s ra dec t ra' dec' t' :
  extend (extend s ra dec t) ra' dec' t'
  = extend s (ra ++ ra') (dec ++ dec') (t ++ t').
Proof. unfold extend. cbn. by rewrite !app_assoc. Qed.

Lemma bind_run {A B} (m : M A) (k : A -> M B) s :
  (m ≫= k) s
  = match m s with
    | (s', Ok a) => k a s'
    | (s', Raise e) => (s', Raise e)
    end.
Proof. reflexivity. Qed.

Lemma emit_run e s : emit e s = (extend s [] [] [e], Ok tt).
Proof. unfold emit, extend. by rewrite !app_nil_r. Qed.

Lemma extend_ras_run ra s : extend_ras ra s = (extend s ra [] [], Ok tt).
Proof. unfold extend_ras, extend. by rewrite !app_nil_r. Qed.

Lemma extend_decs_run dec s : extend_decs dec s = (extend s [] dec [], Ok tt).
Proof. unfold extend_decs, extend. by rewrite !app_nil_r. Qed.

Lemma plot_run env c s :
  plot env c s = (extend s [] [] [EPlot c], pyplot env c).
Proof. unfold plot. rewrite bind_run, emit_run. reflexivity. Qed.

Lemma get_run butler product dataId s :
  get butler product dataId s
  = (extend s [] [] [EGet product dataId], butler_get butler product dataId).
Proof. unfold get. rewrite bind_run, emit_run. reflexivity. Qed.

(** A loop whose body never raises adds up what its iterations add. *)
Lemma for_each_extend {A} (body : A -> M unit) (fr fd : A -> list float)
    (ft : A -> list Event) (l : list A) :
  (forall x s, body x s = (extend s (fr x) (fd x) (ft x), Ok tt)) ->
  forall s, for_each l body s
    = (extend s (flat_map fr l) (flat_map fd l) (flat_map ft l), Ok tt).
Proof.
  intros Hbody. induction l as [|x xs IH]; intros s; cbn [for_each flat_map].
  - by rewrite extend_nil.
  - rewrite bind_run, Hbody, IH, extend_extend. reflexivity.
Qed.

(** A loop that ends without an exception ran every iteration to its end. *)
Lemma for_each_ok {A} (body : A -> M unit) (ft : A -> list Event) (l : list A) :
  (forall x s s', body x s = (s', Ok tt) -> s' = extend s [] [] (ft x)) ->
  forall s s', for_each l body s = (s', Ok tt) ->
    s' = extend s [] [] (flat_map ft l) /\
    forall x, x ∈ l -> exists s0 s1, body x s0 = (s1, Ok tt).
Proof.
  intros Hbody. induction l as [|x xs IH]; intros s s'; cbn [for_each flat_map].
  - intros [= <-]. split; [by rewrite extend_nil|]. by intros x ?%elem_of_nil.
  - rewrite bind_run. destruct (body x s) as [s1 [[]|e]] eqn:Hx; [|discriminate].
    intros Hxs. apply IH in Hxs as [-> Hall]. apply Hbody in Hx as Hs1. subst s1.
    split; [by rewrite extend_extend|].
    intros y [->|Hy]%elem_of_cons; [eauto|by apply Hall].
Qed.

Lemma flat_map_filter {A B} (keep : A -> bool) (f : A -> list B) (l : list A) :
  flat_map (fun x => if keep x then f x else []) l = flat_map f (List.filter keep l).
Proof.
  induction l as [|x xs IH]; [done|]. cbn. destruct (keep x); cbn; by rewrite IH.
Qed.

Lemma flat_map_nil_inv {A B} (f : A -> list B) (l : list A) :
  flat_map f l = [] -> forall x, x ∈ l -> f x = [].
Proof.
  induction l as [|y ys IH]; cbn; [by intros _ x ?%elem_of_nil|].
  intros [Hy Hys]%app_eq_nil x [->|Hx]%elem_of_cons; [done|by apply IH].
Qed.

Lemma elem_of_flat_map {A B} (f : A -> list B) (l : list A) (y : B) :
  y ∈ flat_map f l <-> exists x, x ∈ l /\ y ∈ f x.
Proof.
  rewrite list_elem_of_In, in_flat_map. setoid_rewrite list_elem_of_In. done.
Qed.

(** ** The projector *)

Lemma rmapM_Forall2 {A B} (f : A -> result B) (l : list A) (ys : list B) :
  rmapM f l = Ok ys <-> Forall2 (fun x y => f x = Ok y) l ys.
Proof.
  revert ys. induction l as [|x xs IH]; intros ys; cbn.
  - split; [intros [= <-]; constructor|by intros ->%Forall2_nil_inv_l].
  - destruct (f x) as [y|e] eqn:Hx; cbn.
    + destruct (rmapM f xs) as [ys'|e] eqn:Hxs; cbn.
      * split.
        -- intros [= <-]. constructor; [done|by apply IH].
        -- intros (y' & ys'' & Hy & Hys & ->)%Forall2_cons_inv_l.
           apply IH in Hys. congruence.
      * split; [done|].
        intros (y' & ys'' & Hy & Hys & ->)%Forall2_cons_inv_l.
        apply IH in Hys. congruence.
    + split; [done|].
      intros (y' & ys'' & Hy & Hys & ->)%Forall2_cons_inv_l. congruence.
Qed.

Lemma zip_map_fst_snd {A B} (l : list (A * B)) : zip (map fst l) (map snd l) = l.
Proof. induction l as [|[a b] l IH]; [done|]. cbn. by rewrite IH. Qed.

Lemma bboxToRaDec_inv bbox wcs ra dec :
  bboxToRaDec bbox wcs = Ok (ra, dec) ->
  ra <> [] /\
  Forall2 (fun corner sky => project wcs corner = Ok sky)
    (getCorners bbox) (zip ra dec) /\
  length ra = length (getCorners bbox) /\
  length dec = length (getCorners bbox).
Proof.
  unfold bboxToRaDec. cbn [mbind result_bind].
  destruct (rmapM _ (getCorners bbox)) as [corners|e] eqn:Hmap; [|discriminate].
  cbn [rbind]. destruct corners as [|c cs]; [discriminate|]. intros [= <- <-].
  apply rmapM_Forall2 in Hmap. split; [done|].
  change (c.1 :: map fst cs) with (map fst (c :: cs)).
  change (c.2 :: map snd cs) with (map snd (c :: cs)).
  rewrite zip_map_fst_snd. split; [exact Hmap|].
  apply Forall2_length in Hmap. by rewrite !length_map.
Qed.

Lemma rmapM_total {A B} (f : A -> result B) (l : list A) :
  (forall x, x ∈ l -> is_ok (f x) = true) -> exists ys, rmapM f l = Ok ys.
Proof.
  induction l as [|x xs IH]; intros Hall; cbn; [eauto|].
  destruct (f x) as [y|e] eqn:Hx.
  - destruct IH as [ys ->]; [intros z Hz; apply Hall; by right|]. cbn. eauto.
  - specialize (Hall x ltac:(left)). rewrite Hx in Hall. discriminate.
Qed.

Lemma project_ok wcs corner :
  is_ok (pixelToSky wcs (toPoint2D corner)) = true ->
  is_ok (project wcs corner) = true.
Proof. unfold project. by destruct (pixelToSky _ _). Qed.

Lemma project_inv wcs corner r d :
  project wcs corner = Ok (r, d) ->
  exists coord, pixelToSky wcs (toPoint2D corner) = Ok coord /\
                r = getRa coord /\ d = getDec coord.
Proof.
  unfold project. destruct (pixelToSky _ _) as [coord|e]; [|discriminate].
  intros [= <- <-]. eauto.
Qed.

Lemma bboxToRaDec_total bbox wcs :
  getCorners bbox <> [] ->
  (forall corner, corner ∈ getCorners bbox ->
     is_ok (pixelToSky wcs (toPoint2D corner)) = true) ->
  exists ra dec, bboxToRaDec bbox wcs = Ok (ra, dec).
Proof.
  intros Hne Hdef.
  destruct (rmapM_total (project wcs) (getCorners bbox)) as [ys Hys].
  { intros c Hc. by apply project_ok, Hdef. }
  unfold bboxToRaDec. fold (project wcs). rewrite Hys. cbn.
  apply rmapM_Forall2, Forall2_length in Hys.
  destruct ys as [|y ys']; [|cbn; eauto].
  destruct (getCorners bbox); [done|discriminate].
Qed.

(** C6: for a bounding box with four corners and a WCS defined on them,
    [bboxToRaDec] returns four RA values and four Dec values, the i-th pair
    being the sky position, in degrees, of the i-th corner in the order of
    [getCorners]. *)
Theorem bboxToRaDec_four_corners bbox wcs :
  length (getCorners bbox) = 4%nat ->
  (forall corner, corner ∈ getCorners bbox ->
     is_ok (pixelToSky wcs (toPoint2D corner)) = true) ->
  exists ra dec,
    bboxToRaDec bbox wcs = Ok (ra, dec) /\
    length ra = 4%nat /\ length dec = 4%nat /\
    forall (i : nat) corner, getCorners bbox !! i = Some corner ->
      exists coord,
        pixelToSky wcs (toPoint2D corner) = Ok coord /\
        ra !! i = Some (getRa coord) /\
        dec !! i = Some (getDec coord).
Proof.
  intros Hlen Hdef.
  destruct (bboxToRaDec_total bbox wcs) as (ra & dec & Hrun); [|done|].
  { intros Hnil. by rewrite Hnil in Hlen. }
  exists ra, dec. split; [done|].
  apply bboxToRaDec_inv in Hrun as (_ & Hall & Hra & Hdec).
  split; [congruence|]. split; [congruence|].
  intros i corner Hi.
  destruct (Forall2_lookup_l _ _ _ _ _ Hall Hi) as ([r d] & Hzip & Hproj).
  apply project_inv in Hproj as (coord & Hsky & -> & ->).
  exists coord. split; [done|].
  apply lookup_zip_with_Some in Hzip as (r & d & [= <- <-] & Hr & Hd). done.
Qed.

Lemma bboxToRaDec_four_corners_witness :
  exists ra dec,
    bboxToRaDec (box 0 0 10 10) pixel_wcs = Ok (ra, dec) /\
    length ra = 4%nat /\ length dec = 4%nat /\
    forall (i : nat) corner,
      getCorners (box 0 0 10 10) !! i = Some corner ->
      exists coord,
        pixelToSky pixel_wcs (toPoint2D corner) = Ok coord /\
        ra !! i = Some (getRa coord) /\
        dec !! i = Some (getDec coord).
Proof.
  apply (bboxToRaDec_four_corners (box 0 0 10 10) pixel_wcs).
  - reflexivity.
  - intros corner _. reflexivity.
Defined.

(** ** The loop over visits and sensors *)

Section AggregationRuns.
Variable env : Env.
Variable butler : ButlerT.
Variable ccds : option (list Z).
Variable ccdKey : string.

Lemma process_ccd_run i_v visit ccd s :
  process_ccd env butler ccdKey i_v visit ccd s
  = (extend s (pair_ras env butler ccdKey visit ccd)
       (pair_decs env butler ccdKey visit ccd)
       (pair_events env butler ccdKey i_v visit ccd),
     match footprint env butler ccdKey visit ccd with
     | Ok (ra, dec) => pyplot env (footprint_fill i_v ra dec)
     | Raise e => Raise e
     end).
Proof.
  unfold process_ccd, pair_ras, pair_decs, pair_events, footprint.
  rewrite bind_run, get_run.
  destruct (butler_get _ _ _) as [md|e]; [|reflexivity].
  cbn [mbind result_bind rbind]. rewrite bind_run. unfold lift at 1.
  destruct (makeWcs env md) as [wcs|e]; [|reflexivity].
  cbn [mbind result_bind rbind]. rewrite bind_run. unfold lift at 1.
  destruct (bboxToRaDec _ wcs) as [[ra dec]|e]; [|reflexivity].
  rewrite bind_run, extend_ras_run, bind_run, extend_decs_run, plot_run.
  rewrite !extend_extend. cbn [app]. by rewrite !app_nil_r.
Qed.

Lemma draw_ccd_run i_v visit ccd s :
  draw_ccd env butler ccds ccdKey i_v visit ccd s
  = (extend s
       (if selected ccds ccd then pair_ras env butler ccdKey visit ccd else [])
       (if selected ccds ccd then pair_decs env butler ccdKey visit ccd else [])
       (if selected ccds ccd
        then pair_events env butler ccdKey i_v visit ccd else []),
     Ok tt).
Proof.
  unfold draw_ccd. destruct (selected ccds ccd).
  - unfold try_pass. rewrite process_ccd_run. reflexivity.
  - by rewrite extend_nil.
Qed.

Lemma aggregate_run visits s :
  aggregate env butler visits ccds ccdKey s
  = (extend s
       (flat_map (visit_ras env butler ccds ccdKey) (enumerate visits))
       (flat_map (visit_decs env butler ccds ccdKey) (enumerate visits))
       (flat_map (visit_events env butler ccds ccdKey) (enumerate visits)),
     Ok tt).
Proof.
  unfold aggregate. apply for_each_extend. intros [i_v visit] s'.
  rewrite bind_run, emit_run.
  rewrite (for_each_extend _ _ _ _ _ (draw_ccd_run i_v visit)).
  rewrite extend_extend, !flat_map_filter. reflexivity.
Qed.

Lemma footprint_nonempty visit ccd ra dec :
  footprint env butler ccdKey visit ccd = Ok (ra, dec) -> ra <> [] /\ dec <> [].
Proof.
  unfold footprint.
  destruct (butler_get _ _ _) as [md|e];
    cbn [mbind result_bind rbind]; [|discriminate].
  destruct (makeWcs env md) as [wcs|e];
    cbn [mbind result_bind rbind]; [|discriminate].
  intros (Hne & _ & Hra & Hdec)%bboxToRaDec_inv. split; [done|].
  intros ->. destruct ra; [done|]. cbn in *. congruence.
Qed.
End AggregationRuns.

(** C1, as stated, fails: with a backend that cannot draw, the [try] block
    of the one selected pair raises in the draw call, after its four corner
    points were appended to the accumulators. *)
Lemma successful_only_counterexample :
  ~ successful_only headless_env example_butler (Some [1]) "ccd" [100].
Proof.
  intros [Hras _]. vm_compute in Hras. discriminate.
Qed.

(** C1 (amended): the loop over visits and sensors never raises; it makes
    one fetch per selected pair, in order; a pair whose fetch, WCS
    construction or projection raises adds nothing but the record of its
    fetch (no print, no plot call, no retry) and the loop goes on; the
    accumulators receive the RA and Dec corners of every pair whose
    projection completed, in order, and nothing else. *)
Theorem aggregate_skips_failures env butler ccds ccdKey :
  (forall visits s,
     aggregate env butler visits ccds ccdKey s
     = (extend s
          (flat_map (visit_ras env butler ccds ccdKey) (enumerate visits))
          (flat_map (visit_decs env butler ccds ccdKey) (enumerate visits))
          (flat_map (visit_events env butler ccds ccdKey) (enumerate visits)),
        Ok tt)) /\
  (forall i_v visit ccd e,
     footprint env butler ccdKey visit ccd = Raise e ->
     pair_ras env butler ccdKey visit ccd = [] /\
     pair_decs env butler ccdKey visit ccd = [] /\
     pair_events env butler ccdKey i_v visit ccd
     = [EGet "calexp_md" (calexp_dataId ccdKey visit (getSerial ccd))]) /\
  (forall i_v visit ccd ra dec,
     footprint env butler ccdKey visit ccd = Ok (ra, dec) ->
     pair_ras env butler ccdKey visit ccd = ra /\
     pair_decs env butler ccdKey visit ccd = dec /\
     pair_events env butler ccdKey i_v visit ccd
     = [EGet "calexp_md" (calexp_dataId ccdKey visit (getSerial ccd));
        EPlot (footprint_fill i_v ra dec)]).
Proof.
  split; [|split].
  - apply aggregate_run.
  - intros i_v visit ccd e Hfail.
    unfold pair_ras, pair_decs, pair_events. by rewrite Hfail.
  - intros i_v visit ccd ra dec Hok.
    unfold pair_ras, pair_decs, pair_events. by rewrite Hok.
Qed.

Lemma aggregate_skips_failures_witness :
  (pair_ras example_env example_butler "ccd" 999 (sensor 1 SCIENCE) = [] /\
   pair_decs example_env example_butler "ccd" 999 (sensor 1 SCIENCE) = [] /\
   pair_events example_env example_butler "ccd" 0 999 (sensor 1 SCIENCE)
   = [EGet "calexp_md" (calexp_dataId "ccd" 999 1)]) /\
  (pair_ras example_env example_butler "ccd" 100 (sensor 1 SCIENCE)
   = [20; 30; 30; 20]%float /\
   pair_decs example_env example_butler "ccd" 100 (sensor 1 SCIENCE)
   = [0; 0; 10; 10]%float /\
   pair_events example_env example_butler "ccd" 0 100 (sensor 1 SCIENCE)
   = [EGet "calexp_md" (calexp_dataId "ccd" 100 1);
      EPlot (footprint_fill 0 [20; 30; 30; 20]%float [0; 0; 10; 10]%float)]).
Proof.
  split.
  - apply (proj1 (proj2 (aggregate_skips_failures
                           example_env example_butler None "ccd"))
             0%nat 999 (sensor 1 SCIENCE) (ExternalError "no such data")).
    vm_compute. reflexivity.
  - apply (proj2 (proj2 (aggregate_skips_failures
                           example_env example_butler None "ccd"))
             0%nat 100 (sensor 1 SCIENCE)).
    vm_compute. reflexivity.
Defined.

(** ** What a computation may add to the trace *)

Lemma emits_weaken {A} (P Q : Event -> Prop) (m : M A) :
  (forall e, P e -> Q e) -> emits P m -> emits Q m.
Proof.
  intros HPQ Hm s. destruct (Hm s) as (t & Ht & HP).
  exists t. split; [done|]. by apply (Forall_impl P).
Qed.

Lemma emits_mret {A} P (a : A) : emits P (mret a).
Proof. intros s. exists []. by rewrite app_nil_r. Qed.

Lemma emits_lift {A} P (r : result A) : emits P (lift r).
Proof. intros s. exists []. by rewrite app_nil_r. Qed.

Lemma emits_get_ras P : emits P get_ras.
Proof. intros s. exists []. by rewrite app_nil_r. Qed.

Lemma emits_get_decs P : emits P get_decs.
Proof. intros s. exists []. by rewrite app_nil_r. Qed.

Lemma emits_extend_ras P ra : emits P (extend_ras ra).
Proof. intros s. exists []. by rewrite app_nil_r. Qed.

Lemma emits_extend_decs P dec : emits P (extend_decs dec).
Proof. intros s. exists []. by rewrite app_nil_r. Qed.

Lemma emits_emit (P : Event -> Prop) e : P e -> emits P (emit e).
Proof. intros He s. exists [e]. split; [done|]. by constructor. Qed.

Lemma emits_bind {A B} P (m : M A) (k : A -> M B) :
  emits P m -> (forall a, emits P (k a)) -> emits P (m ≫= k).
Proof.
  intros Hm Hk s. rewrite bind_run. destruct (Hm s) as (t & Ht & HP).
  destruct (m s) as [s' [a|e]]; cbn in Ht.
  - destruct (Hk a s') as (t' & Ht' & HP'). exists (t ++ t').
    rewrite Ht', Ht, app_assoc. split; [done|]. by apply Forall_app.
  - by exists t.
Qed.

Lemma emits_try_pass P (m : M unit) : emits P m -> emits P (try_pass m).
Proof.
  intros Hm s. destruct (Hm s) as (t & Ht & HP). exists t.
  unfold try_pass. by destruct (m s).
Qed.

Lemma emits_for_each {A} P (l : list A) (body : A -> M unit) :
  (forall x, emits P (body x)) -> emits P (for_each l body).
Proof.
  intros Hbody. induction l as [|x xs IH]; cbn [for_each].
  - apply emits_mret.
  - apply emits_bind; [apply Hbody|]. by intros _.
Qed.

Lemma emits_plot (P : Event -> Prop) env c :
  P (EPlot c) -> emits P (plot env c).
Proof.
  intros Hc. apply emits_bind; [by apply emits_emit|].
  intros _. apply emits_lift.
Qed.

Lemma emits_get (P : Event -> Prop) butler product dataId :
  P (EGet product dataId) -> emits P (get butler product dataId).
Proof.
  intros Hc. apply emits_bind; [by apply emits_emit|].
  intros _. apply emits_lift.
Qed.

Create HintDb emits.
#[local] Hint Resolve emits_mret emits_lift emits_get_ras emits_get_decs
  emits_extend_ras emits_extend_decs emits_try_pass : emits.

Lemma emits_draw_patch env xlim ylim tract patch :
  emits is_plot (draw_patch env xlim ylim tract patch).
Proof.
  unfold draw_patch.
  apply emits_bind; [auto with emits|]. intros [ra dec].
  apply emits_bind; [by apply emits_plot|]. intros _.
  apply emits_bind; [auto with emits|]. intros mid_ra.
  destruct (_ && _); [|auto with emits].
  apply emits_bind; [auto with emits|]. intros mid_dec.
  destruct (_ && _); [|auto with emits].
  apply emits_bind; [auto with emits|]. intros x.
  apply emits_bind; [auto with emits|]. intros y.
  by apply emits_plot.
Qed.

Lemma emits_draw_skymap env xlim ylim tracts :
  emits is_plot (draw_skymap env xlim ylim tracts).
Proof.
  unfold draw_skymap. apply emits_for_each. intros tract.
  apply emits_for_each. intros patch. apply emits_draw_patch.
Qed.

Lemma emits_render env xlim ylim saveFile :
  emits is_plot (render env xlim ylim saveFile).
Proof.
  unfold render.
  repeat (apply emits_bind; [by apply emits_plot|]; intros _).
  destruct saveFile; by apply emits_plot.
Qed.

Lemma is_plot_late e : is_plot e -> late_event e.
Proof. by destruct e. Qed.

Lemma emits_overlay env butler xlim ylim :
  emits late_event (overlay env butler xlim ylim).
Proof.
  unfold overlay. apply emits_bind; [by apply emits_get|].
  intros [cards|tracts]; [auto with emits|].
  apply (emits_weaken is_plot); [apply is_plot_late|apply emits_draw_skymap].
Qed.

Lemma emits_finish env butler showPatch saveFile :
  emits late_event (finish env butler showPatch saveFile).
Proof.
  unfold finish.
  apply emits_bind; [auto with emits|]. intros ras.
  apply emits_bind; [auto with emits|]. intros decs.
  apply emits_bind; [auto with emits|]. intros [xlim ylim].
  apply emits_bind.
  - destruct showPatch; [apply emits_overlay|auto with emits].
  - intros _. apply (emits_weaken is_plot); [apply is_plot_late|].
    apply emits_render.
Qed.

Lemma emits_aggregate env butler visits ccds ccdKey :
  emits early_event (aggregate env butler visits ccds ccdKey).
Proof.
  unfold aggregate. apply emits_for_each. intros [i_v visit].
  apply emits_bind; [by apply emits_emit|]. intros _.
  apply emits_for_each. intros ccd. unfold draw_ccd.
  destruct (selected ccds ccd); [|auto with emits].
  apply emits_try_pass. unfold process_ccd.
  apply emits_bind; [by apply emits_get|]. intros md.
  apply emits_bind; [auto with emits|]. intros wcs.
  apply emits_bind; [auto with emits|]. intros [ra dec].
  apply emits_bind; [auto with emits|]. intros _.
  apply emits_bind; [auto with emits|]. intros _.
  by apply emits_plot.
Qed.

(** ** main, in two halves *)

Lemma main_run env rootDir tract visits ccds ccdKey showPatch saveFile butler s :
  Butler env rootDir = Ok butler ->
  main env rootDir tract visits ccds ccdKey showPatch saveFile s
  = finish env butler showPatch saveFile
      (aggregate env butler visits ccds ccdKey s).1.
Proof.
  intros Hopen. unfold main, finish. rewrite bind_run. unfold lift at 1.
  rewrite Hopen, bind_run, aggregate_run. reflexivity.
Qed.

Lemma main_closed env rootDir tract visits ccds ccdKey showPatch saveFile e s :
  Butler env rootDir = Raise e ->
  main env rootDir tract visits ccds ccdKey showPatch saveFile s = (s, Raise e).
Proof.
  intros Hopen. unfold main. rewrite bind_run. unfold lift at 1.
  by rewrite Hopen.
Qed.

Lemma finish_empty env butler showPatch saveFile s :
  ras s = [] ->
  finish env butler showPatch saveFile s = (s, Raise ValueError).
Proof.
  intros Hras. unfold finish, get_ras, get_decs.
  rewrite !bind_run. unfold lift. by rewrite Hras.
Qed.

(** ** Requests to the repository *)

Lemma fetches_app t1 t2 : fetches (t1 ++ t2) = fetches t1 ++ fetches t2.
Proof. apply flat_map_app. Qed.

Lemma skymap_requests_app t1 t2 :
  skymap_requests (t1 ++ t2) = skymap_requests t1 ++ skymap_requests t2.
Proof. apply flat_map_app. Qed.

Lemma fetches_cons e t : fetches (e :: t) = fetches [e] ++ fetches t.
Proof. apply (fetches_app [e] t). Qed.

Lemma skymap_requests_cons e t :
  skymap_requests (e :: t) = skymap_requests [e] ++ skymap_requests t.
Proof. apply (skymap_requests_app [e] t). Qed.

Lemma fetches_late t : Forall late_event t -> fetches t = [].
Proof.
  induction 1 as [|e t He _ IH]; [done|].
  rewrite fetches_cons, IH.
  destruct e as [| product dataId |]; [done| |done].
  destruct He as [-> _]. reflexivity.
Qed.

Lemma skymap_requests_early t : Forall early_event t -> skymap_requests t = [].
Proof.
  induction 1 as [|e t He _ IH]; [done|].
  rewrite skymap_requests_cons, IH. destruct e as [| product dataId |]; [done| |done].
  cbn in He. subst product. reflexivity.
Qed.

Lemma skymap_requests_plot t : Forall is_plot t -> skymap_requests t = [].
Proof.
  induction 1 as [|e t He _ IH]; [done|].
  rewrite skymap_requests_cons, IH. by destruct e.
Qed.

Lemma skymap_requests_late t dataId :
  Forall late_event t -> dataId ∈ skymap_requests t ->
  dataId = {["tract"%string := 0]}.
Proof.
  induction 1 as [|e t He _ IH]; [by intros ?%elem_of_nil|].
  rewrite skymap_requests_cons.
  intros [Hin|Hin]%elem_of_app; [|by apply IH].
  destruct e as [| product d |]; [by apply elem_of_nil in Hin| |
                                   by apply elem_of_nil in Hin].
  destruct He as [-> ->]. cbn in Hin. by apply list_elem_of_singleton in Hin.
Qed.

Lemma fetches_flat_map {A} (f : A -> list Event) (l : list A) :
  fetches (flat_map f l) = flat_map (fun x => fetches (f x)) l.
Proof.
  induction l as [|x xs IH]; [done|]. cbn [flat_map].
  by rewrite fetches_app, IH.
Qed.

Lemma flat_map_singleton {A B} (f : A -> B) (l : list A) :
  flat_map (fun x => [f x]) l = map f l.
Proof. induction l as [|x xs IH]; [done|]. cbn. by rewrite IH. Qed.

Lemma flat_map_enumerate_from {A B} (g : A -> list B) (l : list A) : forall k,
  flat_map (fun iv : nat * A => g iv.2) (enumerate_from k l) = flat_map g l.
Proof. induction l as [|x xs IH]; intros k; [done|]. cbn. by rewrite IH. Qed.

Lemma fetches_pair_events env butler ccdKey i_v visit ccd :
  fetches (pair_events env butler ccdKey i_v visit ccd)
  = [calexp_dataId ccdKey visit (getSerial ccd)].
Proof.
  unfold pair_events. by destruct (footprint _ _ _ _ _) as [[ra dec]|e].
Qed.

Lemma fetches_visit_events env butler ccds ccdKey visits :
  fetches (flat_map (visit_events env butler ccds ccdKey) (enumerate visits))
  = expected_fetches butler ccds ccdKey visits.
Proof.
  rewrite fetches_flat_map. unfold expected_fetches, enumerate.
  rewrite <- (flat_map_enumerate_from _ visits 0).
  apply flat_map_ext. intros [i_v visit]. unfold visit_events.
  rewrite fetches_cons, fetches_flat_map. cbn [fetches flat_map app fst snd].
  rewrite <- flat_map_singleton. apply flat_map_ext. intros ccd.
  apply fetches_pair_events.
Qed.

Lemma fetches_aggregate env butler ccds ccdKey visits s :
  fetches (trace (aggregate env butler visits ccds ccdKey s).1)
  = fetches (trace s) ++ expected_fetches butler ccds ccdKey visits.
Proof.
  rewrite aggregate_run. cbn [fst extend trace].
  by rewrite fetches_app, fetches_visit_events.
Qed.

Lemma selected_iff ccds ccd :
  selected ccds ccd = true <->
  getType ccd = SCIENCE /\
  (ccds = None \/ exists l, ccds = Some l /\ getSerial ccd ∈ l).
Proof.
  unfold selected. rewrite andb_true_iff. split.
  - intros [Hid Htype]. split; [by destruct (getType ccd)|].
    destruct ccds as [l|]; [right|by left].
    exists l. split; [done|]. by apply bool_decide_eq_true in Hid.
  - intros [-> [->|(l & -> & Hin)]]; [done|].
    split; [by apply bool_decide_eq_true|done].
Qed.

(** C5: a metadata fetch is attempted for a (visit, sensor) pair exactly
    when the sensor is of type SCIENCE and either no sensor filter was given
    or the sensor's id is in it: the fetches of a run of [main] that opened
    the repository are, for the visits in order, those of the selected
    sensors in camera order, and nothing else; with science sensors 1, 2, 3,
    a guider and the filter [1, 3], the fetches of a visit are those of
    sensors 1 and 3. *)
Theorem fetch_attempts :
  (forall ccds ccd,
     selected ccds ccd = true <->
     getType ccd = SCIENCE /\
     (ccds = None \/ exists l, ccds = Some l /\ getSerial ccd ∈ l)) /\
  (forall env butler ccds ccdKey visits s,
     fetches (trace (aggregate env butler visits ccds ccdKey s).1)
     = fetches (trace s) ++ expected_fetches butler ccds ccdKey visits) /\
  (forall env rootDir tract visits ccds ccdKey showPatch saveFile butler,
     Butler env rootDir = Ok butler ->
     fetches (trace (main env rootDir tract visits ccds ccdKey showPatch
                       saveFile init).1)
     = expected_fetches butler ccds ccdKey visits) /\
  expected_fetches example_butler (Some [1; 3]) "ccd" [100]
  = [calexp_dataId "ccd" 100 1; calexp_dataId "ccd" 100 3].
Proof.
  split; [apply selected_iff|]. split; [apply fetches_aggregate|].
  split; [|vm_compute; reflexivity].
  intros env rootDir tract visits ccds ccdKey showPatch saveFile butler Hopen.
  rewrite (main_run _ _ _ _ _ _ _ _ butler) by done.
  destruct (emits_finish env butler showPatch saveFile
              (aggregate env butler visits ccds ccdKey init).1)
    as (t & -> & Hlate).
  rewrite fetches_app, (fetches_late t Hlate), app_nil_r.
  apply (fetches_aggregate env butler ccds ccdKey visits init).
Qed.

Lemma fetch_attempts_witness :
  fetches (trace (main example_env "repo" 7 [100] (Some [1; 3]) "ccd" true
                    None init).1)
  = expected_fetches example_butler (Some [1; 3]) "ccd" [100].
Proof.
  apply (proj1 (proj2 (proj2 fetch_attempts))
           example_env "repo"%string 7 [100] (Some [1; 3]) "ccd"%string true
           None example_butler).
  reflexivity.
Defined.

(** ** Empty accumulators *)

Lemma flat_map_nil {A B} (f : A -> list B) (l : list A) :
  (forall x, x ∈ l -> f x = []) -> flat_map f l = [].
Proof.
  induction l as [|y ys IH]; [done|]. intros Hall. cbn.
  rewrite (Hall y) by left. apply IH. intros x Hx. apply Hall. by right.
Qed.

Section Accumulators.
Variable env : Env.
Variable butler : ButlerT.
Variable ccds : option (list Z).
Variable ccdKey : string.

Lemma pair_ras_nil visit ccd :
  pair_ras env butler ccdKey visit ccd = [] <->
  is_ok (footprint env butler ccdKey visit ccd) = false.
Proof.
  unfold pair_ras.
  destruct (footprint _ _ _ _ _) as [[ra dec]|e] eqn:Hfp; [|done].
  apply footprint_nonempty in Hfp as [Hra _]. by split.
Qed.

Lemma pair_decs_nil visit ccd :
  pair_decs env butler ccdKey visit ccd = [] <->
  is_ok (footprint env butler ccdKey visit ccd) = false.
Proof.
  unfold pair_decs.
  destruct (footprint _ _ _ _ _) as [[ra dec]|e] eqn:Hfp; [|done].
  apply footprint_nonempty in Hfp as [_ Hdec]. by split.
Qed.

(** No point was accumulated exactly when no footprint was computed. *)
Lemma ras_nil visits :
  flat_map (visit_ras env butler ccds ccdKey) (enumerate visits) = [] <->
  forall iv ccd, iv ∈ enumerate visits -> ccd ∈ selected_ccds butler ccds ->
    is_ok (footprint env butler ccdKey iv.2 ccd) = false.
Proof.
  split.
  - intros Hnil iv ccd Hiv Hccd. apply pair_ras_nil.
    eapply flat_map_nil_inv; [|exact Hccd].
    by apply (flat_map_nil_inv _ _ Hnil iv).
  - intros Hall. apply flat_map_nil. intros iv Hiv.
    apply flat_map_nil. intros ccd Hccd. apply pair_ras_nil. by apply Hall.
Qed.

Lemma decs_nil visits :
  flat_map (visit_decs env butler ccds ccdKey) (enumerate visits) = [] <->
  forall iv ccd, iv ∈ enumerate visits -> ccd ∈ selected_ccds butler ccds ->
    is_ok (footprint env butler ccdKey iv.2 ccd) = false.
Proof.
  split.
  - intros Hnil iv ccd Hiv Hccd. apply pair_decs_nil.
    eapply flat_map_nil_inv; [|exact Hccd].
    by apply (flat_map_nil_inv _ _ Hnil iv).
  - intros Hall. apply flat_map_nil. intros iv Hiv.
    apply flat_map_nil. intros ccd Hccd. apply pair_decs_nil. by apply Hall.
Qed.

Lemma no_plot_without_footprint visits call :
  flat_map (visit_ras env butler ccds ccdKey) (enumerate visits) = [] ->
  EPlot call ∉
    flat_map (visit_events env butler ccds ccdKey) (enumerate visits).
Proof.
  intros Hnil (iv & Hiv & Hin)%elem_of_flat_map.
  unfold visit_events in Hin.
  apply elem_of_cons in Hin as [Hin|Hin]; [discriminate|].
  apply elem_of_flat_map in Hin as (ccd & Hccd & Hin).
  pose proof (proj1 (ras_nil visits) Hnil iv ccd Hiv Hccd) as Hfail.
  unfold pair_events in Hin.
  destruct (footprint _ _ _ _ _) as [[ra dec]|e]; [discriminate|].
  apply elem_of_cons in Hin as [Hin|Hin]; [discriminate|].
  by apply elem_of_nil in Hin.
Qed.
End Accumulators.

(** C4: when the loop leaves the RA accumulator empty (no footprint was
    computed), the Dec accumulator is empty too, the computation of the view
    limits raises [ValueError] in [max(ras)], [main] ends with that
    exception, and no plot call was made: nothing is rendered. *)
Theorem empty_limits_fail env rootDir tract visits ccds ccdKey showPatch
    saveFile butler :
  Butler env rootDir = Ok butler ->
  ras (aggregate env butler visits ccds ccdKey init).1 = [] ->
  decs (aggregate env butler visits ccds ccdKey init).1 = [] /\
  view_limits [] [] = Raise ValueError /\
  (main env rootDir tract visits ccds ccdKey showPatch saveFile init).2
  = Raise ValueError /\
  forall call,
    EPlot call ∉
      trace (main env rootDir tract visits ccds ccdKey showPatch saveFile
               init).1.
Proof.
  intros Hopen Hras.
  rewrite (main_run _ _ _ _ _ _ _ _ butler) by done.
  rewrite finish_empty by done.
  rewrite aggregate_run in *. cbn [fst snd extend ras decs trace init app] in *.
  split; [|split; [done|split; [done|]]].
  - apply decs_nil. by apply ras_nil.
  - intros call. by apply no_plot_without_footprint.
Qed.

Lemma empty_limits_fail_witness :
  decs (aggregate example_env example_butler [999] None "ccd" init).1 = [] /\
  view_limits [] [] = Raise ValueError /\
  (main example_env "repo" 0 [999] None "ccd" true None init).2
  = Raise ValueError /\
  forall call,
    EPlot call ∉
      trace (main example_env "repo" 0 [999] None "ccd" true None init).1.
Proof.
  apply (empty_limits_fail example_env "repo"%string 0 [999] None
           "ccd"%string true None example_butler).
  - reflexivity.
  - vm_compute. reflexivity.
Defined.

(** ** The request of the sky map *)

Lemma overlay_trace env butler xlim ylim s :
  exists t,
    trace (overlay env butler xlim ylim s).1
    = trace s ++ EGet "deepCoadd_skyMap" {["tract"%string := 0]} :: t /\
    Forall is_plot t.
Proof.
  unfold overlay. rewrite bind_run, get_run.
  destruct (butler_get _ _ _) as [[cards|tracts]|e].
  - exists []. split; [reflexivity|constructor].
  - destruct (emits_draw_skymap env xlim ylim tracts
                (extend s [] [] [EGet "deepCoadd_skyMap" {["tract"%string := 0]}]))
      as (t & -> & Hplot).
    exists t. cbn. by rewrite <- app_assoc.
  - exists []. split; [reflexivity|constructor].
Qed.

Lemma finish_overlay_trace env butler saveFile s :
  ras s <> [] -> decs s <> [] ->
  exists t,
    trace (finish env butler true saveFile s).1
    = trace s ++ EGet "deepCoadd_skyMap" {["tract"%string := 0]} :: t /\
    Forall is_plot t.
Proof.
  intros (ra & ras' & Hras)%nonempty_cons (dec & decs' & Hdecs)%nonempty_cons.
  unfold finish, get_ras, get_decs. rewrite !bind_run. unfold lift at 1.
  rewrite Hras, Hdecs. cbn [view_limits py_max py_min mbind result_bind rbind].
  rewrite bind_run.
  destruct (overlay_trace env butler
              (max_from ra ras' + buff, min_from ra ras' - buff)%float
              (min_from dec decs' - buff, max_from dec decs' + buff)%float s)
    as (t & Ht & Hplot).
  destruct (overlay _ _ _ _ s) as [s1 [[]|e]]; cbn [fst] in Ht.
  - destruct (emits_render env
                (max_from ra ras' + buff, min_from ra ras' - buff)%float
                (min_from dec decs' - buff, max_from dec decs' + buff)%float
                saveFile s1) as (t' & -> & Hplot').
    exists (t ++ t'). rewrite Ht, <- app_assoc. split; [done|].
    by apply Forall_app.
  - by exists t.
Qed.

(** C2: the tract argument of [main] changes nothing; every request of the
    sky map a run makes carries the tract key 0; and a run with the patch
    overlay enabled that reaches the overlay (the repository opened and
    points were accumulated) makes exactly one such request. *)
Theorem skymap_requested_with_tract_0 :
  (forall env rootDir tract tract' visits ccds ccdKey showPatch saveFile,
     main env rootDir tract visits ccds ccdKey showPatch saveFile
     = main env rootDir tract' visits ccds ccdKey showPatch saveFile) /\
  (forall env rootDir tract visits ccds ccdKey showPatch saveFile dataId,
     dataId ∈ skymap_requests
       (trace (main env rootDir tract visits ccds ccdKey showPatch saveFile
                 init).1) ->
     dataId = {["tract"%string := 0]}) /\
  (forall env rootDir tract visits ccds ccdKey saveFile butler,
     Butler env rootDir = Ok butler ->
     ras (aggregate env butler visits ccds ccdKey init).1 <> [] ->
     skymap_requests
       (trace (main env rootDir tract visits ccds ccdKey true saveFile init).1)
     = [{["tract"%string := 0]}]).
Proof.
  split; [reflexivity|]. split.
  - intros env rootDir tract visits ccds ccdKey showPatch saveFile dataId.
    destruct (Butler env rootDir) as [butler|e] eqn:Hopen.
    + rewrite (main_run _ _ _ _ _ _ _ _ butler) by done.
      destruct (emits_finish env butler showPatch saveFile
                  (aggregate env butler visits ccds ccdKey init).1)
        as (t & -> & Hlate).
      destruct (emits_aggregate env butler visits ccds ccdKey init)
        as (t0 & -> & Hearly).
      cbn [init trace app].
      rewrite skymap_requests_app, (skymap_requests_early _ Hearly).
      by apply skymap_requests_late.
    + rewrite (main_closed _ _ _ _ _ _ _ _ e) by done.
      by intros ?%elem_of_nil.
  - intros env rootDir tract visits ccds ccdKey saveFile butler Hopen Hras.
    rewrite (main_run _ _ _ _ _ _ _ _ butler) by done.
    destruct (finish_overlay_trace env butler saveFile
                (aggregate env butler visits ccds ccdKey init).1)
      as (t & -> & Hplot); [done| |].
    { rewrite aggregate_run in *. cbn [fst extend ras decs init app] in *.
      intros Hdecs. apply Hras. apply ras_nil. by apply decs_nil. }
    destruct (emits_aggregate env butler visits ccds ccdKey init)
      as (t0 & -> & Hearly).
    cbn [init trace app].
    rewrite skymap_requests_app, (skymap_requests_early _ Hearly).
    rewrite skymap_requests_cons, (skymap_requests_plot _ Hplot).
    reflexivity.
Qed.

Lemma skymap_requested_with_tract_0_witness :
  skymap_requests
    (trace (main example_env "repo" 7 [100] None "ccd" true None init).1)
  = [{["tract"%string := 0]}].
Proof.
  apply (proj2 (proj2 skymap_requested_with_tract_0)
           example_env "repo"%string 7 [100] None "ccd"%string None
           example_butler).
  - reflexivity.
  - vm_compute. discriminate.
Defined.

(** ** The overlay of the sky map *)

Lemma map_flat_map {A B C} (f : B -> C) (g : A -> list B) (l : list A) :
  map f (flat_map g l) = flat_map (fun x => map f (g x)) l.
Proof. induction l as [|x xs IH]; [done|]. cbn. by rewrite map_app, IH. Qed.

Lemma draw_patch_ok env xlim ylim tract patch s s' :
  draw_patch env xlim ylim tract patch s = (s', Ok tt) ->
  s' = extend s [] [] (map EPlot (patch_calls xlim ylim tract patch)) /\
  exists ra dec,
    bboxToRaDec (getInnerBBox patch) (getWcs tract) = Ok (ra, dec).
Proof.
  unfold draw_patch, patch_calls, percent_default, inside.
  rewrite bind_run. unfold lift at 1.
  destruct (bboxToRaDec _ _) as [[ra dec]|e]; [|discriminate].
  rewrite bind_run, plot_run.
  destruct (pyplot env _) as [[]|e]; [|discriminate].
  rewrite bind_run. unfold lift at 1.
  destruct (percent ra 0.5%float) as [mid_ra|e]; [|discriminate].
  destruct (_ && _).
  - rewrite bind_run. unfold lift at 1.
    destruct (percent dec 0.5%float) as [mid_dec|e]; [|discriminate].
    destruct (_ && _).
    + rewrite bind_run. unfold lift at 1. cbv beta iota.
      rewrite bind_run. unfold lift at 1.
      destruct (percent dec 0.9%float) as [y|e]; [|discriminate].
      rewrite plot_run. destruct (pyplot env _) as [[]|e]; [|discriminate].
      intros [= <-]. rewrite extend_extend. eauto.
    + intros [= <-]. split; [|eauto]. by destruct (percent dec 0.9%float).
  - intros [= <-]. split; [|eauto].
    by destruct (percent dec 0.5%float), (percent dec 0.9%float).
Qed.

Lemma draw_skymap_ok env xlim ylim tracts s s' :
  draw_skymap env xlim ylim tracts s = (s', Ok tt) ->
  s' = extend s [] [] (map EPlot (skymap_calls xlim ylim tracts)) /\
  forall tract patch, tract ∈ tracts -> patch ∈ patches tract ->
    exists ra dec,
      bboxToRaDec (getInnerBBox patch) (getWcs tract) = Ok (ra, dec).
Proof.
  unfold draw_skymap, skymap_calls. intros Hrun.
  assert (Hinner : forall tract s0 s1,
    for_each (patches tract) (draw_patch env xlim ylim tract) s0 = (s1, Ok tt) ->
    s1 = extend s0 [] []
           (flat_map (fun patch => map EPlot (patch_calls xlim ylim tract patch))
              (patches tract)) /\
    forall patch, patch ∈ patches tract ->
      exists s2 s3, draw_patch env xlim ylim tract patch s2 = (s3, Ok tt)).
  { intros tract s0 s1. apply for_each_ok.
    intros patch s2 s3 Hpatch. by apply draw_patch_ok in Hpatch as [-> _]. }
  apply (for_each_ok _
           (fun tract => flat_map
              (fun patch => map EPlot (patch_calls xlim ylim tract patch))
              (patches tract))) in Hrun as [-> Hall].
  - split.
    + f_equal. rewrite map_flat_map. apply flat_map_ext. intros tract.
      by rewrite map_flat_map.
    + intros tract patch Htract Hpatch.
      destruct (Hall tract Htract) as (s0 & s1 & Htr).
      apply Hinner in Htr as [_ Hpatches].
      destruct (Hpatches patch Hpatch) as (s2 & s3 & Hp).
      by apply draw_patch_ok in Hp as [_ ?].
  - intros tract s0 s1 Htr. by apply Hinner in Htr as [-> _].
Qed.

Lemma patch_calls_projected xlim ylim tract patch ra dec :
  bboxToRaDec (getInnerBBox patch) (getWcs tract) = Ok (ra, dec) ->
  exists mid_ra mid_dec y,
    percent ra 0.5%float = Ok mid_ra /\
    percent dec 0.5%float = Ok mid_dec /\
    percent dec 0.9%float = Ok y /\
    patch_calls xlim ylim tract patch
    = patch_outline ra dec ::
      if inside xlim ylim mid_ra mid_dec
      then [patch_label patch mid_ra y] else [].
Proof.
  intros Hproj. unfold patch_calls. rewrite Hproj.
  apply bboxToRaDec_inv in Hproj as (Hra & _ & Hlra & Hldec).
  destruct ra as [|r ra']; [done|].
  destruct dec as [|d dec']; [cbn in *; congruence|].
  rewrite !percent_cons. eauto 10.
Qed.

Lemma overlay_ok env butler xlim ylim s s' :
  overlay env butler xlim ylim s = (s', Ok tt) ->
  exists tracts,
    butler_get butler "deepCoadd_skyMap" {["tract"%string := 0]}
    = Ok (SkyMap tracts) /\
    s' = extend s [] [] (overlay_events butler xlim ylim true) /\
    forall tract patch, tract ∈ tracts -> patch ∈ patches tract ->
      exists ra dec,
        bboxToRaDec (getInnerBBox patch) (getWcs tract) = Ok (ra, dec).
Proof.
  unfold overlay, overlay_events. rewrite bind_run, get_run.
  destruct (butler_get _ _ _) as [[cards|tracts]|e]; [discriminate| |discriminate].
  intros [-> Hall]%draw_skymap_ok. exists tracts.
  split; [done|]. split; [by rewrite extend_extend|done].
Qed.

(** *** Runs that raise: a prefix of the calls *)

Lemma draws_for_each {A} (body : A -> M unit) (ft : A -> list Event) (l : list A) :
  (forall x, draws (ft x) (body x)) -> draws (flat_map ft l) (for_each l body).
Proof.
  intros Hbody. induction l as [|x xs IH]; intros s; cbn [for_each flat_map].
  - exists [], (Ok tt). by rewrite extend_nil.
  - rewrite bind_run. destruct (Hbody x s) as (t1 & r1 & -> & Hpre1 & Hok1).
    destruct r1 as [[]|e].
    + rewrite (Hok1 eq_refl) in *.
      destruct (IH (extend s [] [] (ft x))) as (t2 & r2 & -> & Hpre2 & Hok2).
      exists (ft x ++ t2), r2. rewrite extend_extend. split; [done|].
      split; [by apply prefix_app|]. intros Hok. by rewrite (Hok2 Hok).
    + exists t1, (Raise e). split; [done|]. split; [|done].
      by apply prefix_app_r.
Qed.

(** The patch's outline was drawn, then an exception ended the body. *)
Ltac raised_after_outline :=
  do 2 eexists; split; [reflexivity|]; split;
  [by apply prefix_cons, prefix_nil|cbn; discriminate].

Lemma draws_draw_patch env xlim ylim tract patch :
  draws (map EPlot (patch_calls xlim ylim tract patch))
    (draw_patch env xlim ylim tract patch).
Proof.
  intros s. unfold draw_patch, patch_calls, percent_default, inside.
  rewrite bind_run. unfold lift at 1.
  destruct (bboxToRaDec _ _) as [[ra dec]|e].
  2:{ exists [], (Raise e). by rewrite extend_nil. }
  rewrite bind_run, plot_run.
  destruct (pyplot env _) as [[]|e]; [|raised_after_outline].
  rewrite bind_run. unfold lift at 1.
  destruct (percent ra 0.5%float) as [mid_ra|e]; [|raised_after_outline].
  destruct (_ && _).
  - rewrite bind_run. unfold lift at 1.
    destruct (percent dec 0.5%float) as [mid_dec|e]; [|raised_after_outline].
    destruct (_ && _).
    + rewrite bind_run. unfold lift at 1. cbv beta iota.
      rewrite bind_run. unfold lift at 1.
      destruct (percent dec 0.9%float) as [y|e]; [|raised_after_outline].
      rewrite plot_run, extend_extend. do 2 eexists. split; [reflexivity|]. done.
    + do 2 eexists. split; [reflexivity|]. by destruct (percent dec 0.9%float).
  - do 2 eexists. split; [reflexivity|].
    by destruct (percent dec 0.5%float), (percent dec 0.9%float).
Qed.

Lemma skymap_calls_events xlim ylim tracts :
  map EPlot (skymap_calls xlim ylim tracts)
  = flat_map (fun tract =>
      flat_map (fun patch => map EPlot (patch_calls xlim ylim tract patch))
        (patches tract)) tracts.
Proof.
  unfold skymap_calls. rewrite map_flat_map. apply flat_map_ext. intros tract.
  by rewrite map_flat_map.
Qed.

Lemma draws_draw_skymap env xlim ylim tracts :
  draws (map EPlot (skymap_calls xlim ylim tracts))
    (draw_skymap env xlim ylim tracts).
Proof.
  rewrite skymap_calls_events. unfold draw_skymap.
  apply draws_for_each. intros tract.
  apply draws_for_each. intros patch. apply draws_draw_patch.
Qed.

Lemma draws_overlay env butler xlim ylim :
  draws (overlay_events butler xlim ylim true) (overlay env butler xlim ylim).
Proof.
  intros s. unfold overlay, overlay_events. rewrite bind_run, get_run.
  destruct (butler_get _ _ _) as [[cards|tracts]|e].
  - do 2 eexists. split; [reflexivity|]. done.
  - destruct (draws_draw_skymap env xlim ylim tracts
                (extend s [] [] [EGet "deepCoadd_skyMap" {["tract"%string := 0]}]))
      as (t & r & -> & Hpre & Hok).
    exists (EGet "deepCoadd_skyMap" {["tract"%string := 0]} :: t), r.
    rewrite extend_extend. split; [done|]. split; [by apply prefix_cons|].
    intros Hrun. by rewrite (Hok Hrun).
  - do 2 eexists. split; [reflexivity|]. done.
Qed.

(** ** An overlay that runs to its end *)







(** The first patch of the example lies inside the limits and is labelled
    "(0, 0)" below its upper edge; the second lies outside and is not. *)
Example overlay_example :
  skymap_calls (40, 10)%float (-5, 15)%float [example_tract]
  = [Fill [20; 30; 30; 20]%float [0; 0; 10; 10]%float (Outline "k" 1 "dashed");
     Text 25%float 9%float "(0, 0)" 6 "center" "top";
     Fill [200; 210; 210; 200]%float [0; 0; 10; 10]%float
       (Outline "k" 1 "dashed")].
Proof. vm_compute. reflexivity. Qed.

(** The same by a run of the overlay itself. *)
Example overlay_run_example :
  overlay example_env example_butler (40, 10)%float (-5, 15)%float init
  = ({| ras := []; decs := [];
        trace :=
          [EGet "deepCoadd_skyMap" {["tract"%string := 0]};
           EPlot (Fill [20; 30; 30; 20]%float [0; 0; 10; 10]%float
                    (Outline "k" 1 "dashed"));
           EPlot (Text 25%float 9%float "(0, 0)" 6 "center" "top");
           EPlot (Fill [200; 210; 210; 200]%float [0; 0; 10; 10]%float
                    (Outline "k" 1 "dashed"))] |},
     Ok tt).
Proof. vm_compute. reflexivity. Qed.


(** ** splitId *)

Lemma set_iter_distinct (set_iter : gset Z -> list Z) (ids : list Z) :
  (forall s, set_iter s ≡ₚ elements s) ->
  NoDup (set_iter (list_to_set ids)) /\
  forall z, z ∈ set_iter (list_to_set ids) <-> z ∈ ids.
Proof.
  intros Hperm. split.
  - rewrite (Hperm (list_to_set ids)). apply NoDup_elements.
  - intros z. rewrite (Hperm (list_to_set ids)), elem_of_elements.
    apply elem_of_list_to_set.
Qed.

(** C10: for an argument value from which the argument parser reads a list
    of data ids, each with an integer under the argument's name, the action
    stores under that name a list holding every such integer exactly once,
    whatever the number of its occurrences; the order of the list is the
    iteration order of a set, about which nothing is known: iterating in
    the order of [elements], the visits 3^1^20 come out as 3, 20, 1. *)
Theorem splitId_distinct_ids :
  (forall IdValueAction int set_iter argName namespace values v0 idList ids,
     (forall s, set_iter s ≡ₚ elements s) ->
     values !! 0%nat = Some v0 ->
     IdValueAction [(argName +:+ "=" +:+ v0)%string] ("--" +:+ argName)%string
     = Ok idList ->
     rmapM (id_of int argName) idList = Ok ids ->
     exists l namespace',
       splitId IdValueAction int set_iter argName namespace values
       = Ok namespace' /\
       namespace' !! argName = Some (NsIds l) /\
       NoDup l /\
       forall z, z ∈ l <-> z ∈ ids) /\
  (exists set_iter namespace',
     (forall s, set_iter s ≡ₚ elements s) /\
     rmapM (id_of int_decimal "visits")
       [{["visits"%string := "3"%string]}; {["visits"%string := "1"%string]};
        {["visits"%string := "20"%string]}]
     = Ok [3; 1; 20] /\
     splitId caret_ids int_decimal set_iter "visits" ∅ ["3^1^20"%string]
     = Ok namespace' /\
     namespace' !! "visits"%string = Some (NsIds [3; 20; 1])).
Proof.
  split.
  - intros IdValueAction int set_iter argName namespace values v0 idList ids
      Hperm Hv0 Hparse Hids.
    destruct (set_iter_distinct set_iter ids Hperm) as [Hnodup Hiff].
    exists (set_iter (list_to_set ids)). eexists.
    unfold splitId. rewrite Hv0. cbn [mbind result_bind rbind].
    rewrite Hparse. cbn [mbind result_bind rbind app].
    rewrite Hids. cbn [mbind result_bind rbind].
    split; [reflexivity|]. split; [apply lookup_insert_eq|]. done.
  - exists elements. eexists. split; [done|]. split; [by vm_compute|].
    split; [reflexivity|]. by vm_compute.
Qed.

Lemma splitId_distinct_ids_witness :
  exists l namespace',
    splitId caret_ids int_decimal elements "ccds" ∅ ["7^7^2^7"%string]
    = Ok namespace' /\
    namespace' !! "ccds"%string = Some (NsIds l) /\
    NoDup l /\
    forall z, z ∈ l <-> z ∈ [7; 7; 2; 7].
Proof.
  apply (proj1 splitId_distinct_ids caret_ids int_decimal elements
           "ccds"%string ∅ ["7^7^2^7"%string] "7^7^2^7"%string
           [{["ccds"%string := "7"%string]}; {["ccds"%string := "7"%string]};
            {["ccds"%string := "2"%string]}; {["ccds"%string := "7"%string]}]
           [7; 7; 2; 7]).
  - done.
  - reflexivity.
  - vm_compute. reflexivity.
  - vm_compute. reflexivity.
Defined.

(** ** A run of main that ends normally *)

Lemma render_ok env xlim ylim saveFile s s' :
  render env xlim ylim saveFile s = (s', Ok tt) ->
  s' = extend s [] [] (map EPlot (render_calls xlim ylim saveFile)).
Proof.
  unfold render.
  do 6 (rewrite bind_run, plot_run;
        destruct (pyplot env _) as [[]|e]; [|discriminate]).
  destruct saveFile as [file|]; rewrite plot_run;
    (destruct (pyplot env _) as [[]|e]; [|discriminate]);
    intros [= <-]; by rewrite !extend_extend.
Qed.

Lemma finish_ok env butler showPatch saveFile s s' :
  finish env butler showPatch saveFile s = (s', Ok tt) ->
  exists xlim ylim,
    view_limits (ras s) (decs s) = Ok (xlim, ylim) /\
    s' = extend s [] []
           (overlay_events butler xlim ylim showPatch
            ++ map EPlot (render_calls xlim ylim saveFile)).
Proof.
  unfold finish, get_ras, get_decs. rewrite !bind_run. unfold lift at 1.
  destruct (view_limits (ras s) (decs s)) as [[xlim ylim]|e]; [|discriminate].
  rewrite bind_run. intros Hrun. exists xlim, ylim. split; [done|].
  destruct showPatch.
  - destruct (overlay env butler xlim ylim s) as [s1 [[]|e]] eqn:Hov;
      [|discriminate].
    apply overlay_ok in Hov as (tracts & _ & -> & _).
    apply render_ok in Hrun as ->. by rewrite extend_extend.
  - cbn [mret M_ret] in Hrun. by apply render_ok in Hrun as ->.
Qed.

Lemma main_ok env rootDir tract visits ccds ccdKey showPatch saveFile s' :
  main env rootDir tract visits ccds ccdKey showPatch saveFile init
  = (s', Ok tt) ->
  exists butler xlim ylim,
    Butler env rootDir = Ok butler /\
    ras s' = flat_map (visit_ras env butler ccds ccdKey) (enumerate visits) /\
    decs s' = flat_map (visit_decs env butler ccds ccdKey) (enumerate visits) /\
    view_limits (ras s') (decs s') = Ok (xlim, ylim) /\
    trace s'
    = flat_map (visit_events env butler ccds ccdKey) (enumerate visits)
      ++ overlay_events butler xlim ylim showPatch
      ++ map EPlot (render_calls xlim ylim saveFile).
Proof.
  destruct (Butler env rootDir) as [butler|e] eqn:Hopen.
  - rewrite (main_run _ _ _ _ _ _ _ _ butler) by done.
    rewrite aggregate_run. cbn [fst].
    intros (xlim & ylim & Hlim & ->)%finish_ok.
    exists butler, xlim, ylim. cbn in *. by rewrite !app_nil_r.
  - rewrite (main_closed _ _ _ _ _ _ _ _ e) by done. discriminate.
Qed.

(** ** View limits *)

(** C3: for non-empty RA and Dec sequences the view limits are
    [xlim = (max(RA) + 0.1, min(RA) - 0.1)], the larger bound first, and
    [ylim = (min(Dec) - 0.1, max(Dec) + 0.1)], where, NaNs apart, the min
    and the max of a sequence are its least and its greatest value; a run
    of [main] that ends normally has set the axes to the limits of its
    accumulated points; for RA [10, 20] and Dec [30, 40] the limits are
    [(20.1, 9.9)] and [(29.9, 40.1)]. *)
Theorem view_limits_spec :
  (forall ras decs, ras <> [] -> decs <> [] ->
     exists max_ra min_ra min_dec max_dec,
       py_max ras = Ok max_ra /\ py_min ras = Ok min_ra /\
       py_min decs = Ok min_dec /\ py_max decs = Ok max_dec /\
       view_limits ras decs
       = Ok ((max_ra + 0.1, min_ra - 0.1)%float,
             (min_dec - 0.1, max_dec + 0.1)%float)) /\
  (forall (values : list float) m M,
     Forall no_nan values ->
     py_min values = Ok m -> py_max values = Ok M ->
     m ∈ values /\ M ∈ values /\
     forall x, x ∈ values ->
       (m <=? x)%float = true /\ (x <=? M)%float = true) /\
  (forall env rootDir tract visits ccds ccdKey showPatch saveFile s',
     main env rootDir tract visits ccds ccdKey showPatch saveFile init
     = (s', Ok tt) ->
     exists xlim ylim,
       view_limits (ras s') (decs s') = Ok (xlim, ylim) /\
       EPlot (SetXlim xlim) ∈ trace s' /\
       EPlot (SetYlim ylim) ∈ trace s') /\
  view_limits [10%float; 20%float] [30%float; 40%float]
  = Ok ((20.1%float, 9.9%float), (29.9%float, 40.1%float)).
Proof.
  split; [|split; [|split]].
  - intros ras decs (ra & ras' & ->)%nonempty_cons (dec & decs' & ->)%nonempty_cons.
    do 4 eexists. repeat split; reflexivity.
  - intros [|first rest] m M Hgood Hm HM; [discriminate|].
    injection Hm as <-. injection HM as <-.
    destruct (min_from_float first rest Hgood) as [Hmin Hleast].
    destruct (max_from_float first rest Hgood) as [Hmax Hgreatest].
    auto.
  - intros env rootDir tract visits ccds ccdKey showPatch saveFile s'
      (butler & xlim & ylim & _ & _ & _ & Hlim & ->)%main_ok.
    exists xlim, ylim. split; [done|].
    split; apply elem_of_app; right; apply elem_of_app; right; cbn;
      rewrite !elem_of_cons; auto 10.
  - vm_compute. reflexivity.
Qed.

Lemma view_limits_spec_witness :
  (exists max_ra min_ra min_dec max_dec,
     py_max [10%float; 20%float] = Ok max_ra /\
     py_min [10%float; 20%float] = Ok min_ra /\
     py_min [30%float; 40%float] = Ok min_dec /\
     py_max [30%float; 40%float] = Ok max_dec /\
     view_limits [10%float; 20%float] [30%float; 40%float]
     = Ok ((max_ra + 0.1, min_ra - 0.1)%float,
           (min_dec - 0.1, max_dec + 0.1)%float)) /\
  (exists xlim ylim,
     view_limits
       (ras (main example_env "repo" 0 [100] None "ccd" true None init).1)
       (decs (main example_env "repo" 0 [100] None "ccd" true None init).1)
     = Ok (xlim, ylim) /\
     EPlot (SetXlim xlim)
       ∈ trace (main example_env "repo" 0 [100] None "ccd" true None init).1 /\
     EPlot (SetYlim ylim)
       ∈ trace (main example_env "repo" 0 [100] None "ccd" true None init).1).
Proof.
  split.
  - apply (proj1 view_limits_spec); discriminate.
  - apply (proj1 (proj2 (proj2 view_limits_spec))
             example_env "repo"%string 0 [100] None "ccd"%string true None).
    vm_compute. reflexivity.
Defined.

(** * Further properties of the script *)

(** ** bboxToRaDec: when it returns and what it raises *)

Lemma rmapM_Raise {A B} (f : A -> result B) (l : list A) (e : exn) :
  rmapM f l = Raise e <->
  exists (i : nat) x,
    l !! i = Some x /\ f x = Raise e /\
    forall (j : nat) y, (j < i)%nat -> l !! j = Some y -> is_ok (f y) = true.
Proof.
  induction l as [|x xs IH]; cbn [rmapM].
  - split; [discriminate|]. by intros (i & x & Hi & _).
  - destruct (f x) as [y|e0] eqn:Hfx; cbn [rbind].
    + destruct (rmapM f xs) as [ys|e1] eqn:Hxs; cbn [rbind].
      * split; [discriminate|]. intros (i & x' & Hi & Hx' & Hbefore).
        destruct i as [|i]; [cbn in Hi; congruence|].
        assert (@Ok (list B) ys = Raise e) as Habs; [|discriminate].
        apply IH. exists i, x'. repeat split; try done.
        intros j y' Hj Hy'. apply (Hbefore (S j)); [lia|done].
      * split.
        -- intros [= <-]. destruct (proj1 IH eq_refl) as (i & x' & Hi & Hx' & Hb).
           exists (S i), x'. repeat split; try done.
           intros [|j] y' Hj Hy'.
           ++ cbn in Hy'. injection Hy' as <-. by rewrite Hfx.
           ++ apply (Hb j); [lia|done].
        -- intros (i & x' & Hi & Hx' & Hbefore). f_equal.
           destruct i as [|i]; [cbn in Hi; congruence|].
           assert (@Raise (list B) e1 = Raise e) as [= ->]; [|done].
           apply IH. exists i, x'. repeat split; try done.
           intros j y' Hj Hy'. apply (Hbefore (S j)); [lia|done].
    + split.
      * intros [= <-]. exists 0%nat, x. repeat split; try done. lia.
      * intros (i & x' & Hi & Hx' & Hbefore). destruct i as [|i].
        -- cbn in Hi. congruence.
        -- specialize (Hbefore 0%nat x ltac:(lia) eq_refl).
           rewrite Hfx in Hbefore. discriminate.
Qed.

Lemma rmapM_is_ok {A B} (f : A -> result B) (l : list A) :
  is_ok (rmapM f l) = true <-> forall x, x ∈ l -> is_ok (f x) = true.
Proof.
  split.
  - destruct (rmapM f l) as [ys|e] eqn:Hl; [|discriminate]. intros _.
    apply rmapM_Forall2 in Hl. intros x Hx.
    apply list_elem_of_lookup in Hx as [i Hi].
    destruct (Forall2_lookup_l _ _ _ _ _ Hl Hi) as (y & _ & ->). done.
  - intros Hall. destruct (rmapM_total f l Hall) as [ys ->]. done.
Qed.

Lemma project_is_ok wcs corner :
  is_ok (project wcs corner) = is_ok (pixelToSky wcs (toPoint2D corner)).
Proof. unfold project. by destruct (pixelToSky _ _). Qed.

Lemma project_Raise wcs corner e :
  project wcs corner = Raise e <-> pixelToSky wcs (toPoint2D corner) = Raise e.
Proof. unfold project. destruct (pixelToSky _ _); cbn; split; congruence. Qed.

Lemma bboxToRaDec_unfold bbox wcs :
  bboxToRaDec bbox wcs
  = rbind (rmapM (project wcs) (getCorners bbox)) unzip_corners.
Proof. reflexivity. Qed.

(** X1: [bboxToRaDec] returns exactly when the box has a corner and the WCS
    converts every corner; on a box without corners it raises [ValueError]
    (the unpacking of an empty [zip]); otherwise it raises what
    [pixelToSky] raises at the first corner it cannot convert. *)
Theorem bboxToRaDec_outcome bbox wcs :
  (is_ok (bboxToRaDec bbox wcs) = true <->
   getCorners bbox <> [] /\
   forall corner, corner ∈ getCorners bbox ->
     is_ok (pixelToSky wcs (toPoint2D corner)) = true) /\
  (forall e,
     bboxToRaDec bbox wcs = Raise e <->
     (getCorners bbox = [] /\ e = ValueError) \/
     exists (i : nat) corner,
       getCorners bbox !! i = Some corner /\
       pixelToSky wcs (toPoint2D corner) = Raise e /\
       forall (j : nat) c, (j < i)%nat -> getCorners bbox !! j = Some c ->
         is_ok (pixelToSky wcs (toPoint2D c)) = true).
Proof.
  rewrite bboxToRaDec_unfold. split.
  - split.
    + destruct (rmapM (project wcs) (getCorners bbox)) as [sky|e] eqn:Hsky;
        [|discriminate].
      cbn [rbind]. intros Hok.
      assert (is_ok (rmapM (project wcs) (getCorners bbox)) = true) as Hall
        by by rewrite Hsky.
      rewrite rmapM_is_ok in Hall. split.
      * intros Hnil. rewrite Hnil in Hsky. injection Hsky as <-. discriminate.
      * intros corner Hin. rewrite <- project_is_ok. by apply Hall.
    + intros [Hne Hall].
      destruct (rmapM_total (project wcs) (getCorners bbox)) as [sky Hsky].
      { intros corner Hin. rewrite project_is_ok. by apply Hall. }
      rewrite Hsky. cbn [rbind].
      destruct sky as [|c sky]; [|done].
      apply rmapM_Forall2, Forall2_nil_inv_r in Hsky. done.
  - intros e. split.
    + destruct (rmapM (project wcs) (getCorners bbox)) as [sky|e0] eqn:Hsky;
        cbn [rbind].
      * destruct sky as [|c sky]; [|discriminate]. intros [= <-]. left.
        apply rmapM_Forall2, Forall2_nil_inv_r in Hsky. done.
      * intros [= <-]. right.
        apply rmapM_Raise in Hsky as (i & corner & Hi & He & Hbefore).
        exists i, corner. split; [done|]. split; [by apply project_Raise|].
        intros j c Hj Hc. rewrite <- project_is_ok. by apply (Hbefore j).
    + intros [[Hnil ->]|(i & corner & Hi & He & Hbefore)].
      * by rewrite Hnil.
      * assert (rmapM (project wcs) (getCorners bbox) = Raise e) as ->; [|done].
        apply rmapM_Raise. exists i, corner.
        split; [done|]. split; [by apply project_Raise|].
        intros j c Hj Hc. rewrite project_is_ok. by apply (Hbefore j).
Qed.

(** ** The stage after the loop, run by run *)

Lemma draws_bind {A B} (l1 l2 : list Event) (m : M A) (k : A -> M B) :
  draws l1 m -> (forall a, draws l2 (k a)) -> draws (l1 ++ l2) (m ≫= k).
Proof.
  intros Hm Hk s. destruct (Hm s) as (t1 & r1 & E1 & P1 & F1).
  rewrite bind_run, E1. destruct r1 as [a|e].
  - rewrite (F1 eq_refl) in *.
    destruct (Hk a (extend s [] [] l1)) as (t2 & r2 & E2 & P2 & F2).
    exists (l1 ++ t2), r2. rewrite E2, extend_extend.
    split; [done|]. split; [by apply prefix_app|].
    intros Hok. by rewrite (F2 Hok).
  - exists t1, (Raise e). split; [done|].
    split; [by apply prefix_app_r|discriminate].
Qed.

Lemma draws_plot env c : draws [EPlot c] (plot env c).
Proof.
  intros s. rewrite plot_run. do 2 eexists. split; [reflexivity|]. done.
Qed.

Lemma draws_mret {A} (a : A) : draws [] (mret a).
Proof.
  intros s. exists [], (Ok a). by rewrite extend_nil.
Qed.

Lemma draws_render env xlim ylim saveFile :
  draws (map EPlot (render_calls xlim ylim saveFile))
    (render env xlim ylim saveFile).
Proof.
  unfold render, render_calls. cbn [map].
  do 6 (apply (draws_bind [_]); [apply draws_plot|]; intros _).
  destruct saveFile; apply draws_plot.
Qed.

Lemma finish_limits env butler showPatch saveFile s xlim ylim :
  view_limits (ras s) (decs s) = Ok (xlim, ylim) ->
  finish env butler showPatch saveFile s
  = ((if showPatch then overlay env butler xlim ylim else mret tt)
       ≫= fun _ => render env xlim ylim saveFile) s.
Proof.
  intros Hlim. unfold finish, get_ras, get_decs.
  rewrite !bind_run. unfold lift at 1. by rewrite Hlim.
Qed.

Lemma finish_no_limits env butler showPatch saveFile s e :
  view_limits (ras s) (decs s) = Raise e ->
  finish env butler showPatch saveFile s = (s, Raise e).
Proof.
  intros Hlim. unfold finish, get_ras, get_decs.
  rewrite !bind_run. unfold lift at 1. by rewrite Hlim.
Qed.

Lemma finish_draws env butler showPatch saveFile s xlim ylim :
  view_limits (ras s) (decs s) = Ok (xlim, ylim) ->
  exists t r,
    finish env butler showPatch saveFile s = (extend s [] [] t, r) /\
    t `prefix_of` overlay_events butler xlim ylim showPatch
                  ++ map EPlot (render_calls xlim ylim saveFile) /\
    (is_ok r = true ->
     t = overlay_events butler xlim ylim showPatch
         ++ map EPlot (render_calls xlim ylim saveFile)).
Proof.
  intros Hlim. rewrite (finish_limits _ _ _ _ _ xlim ylim) by done.
  apply draws_bind; [|intros _; apply draws_render].
  destruct showPatch; [apply draws_overlay|apply draws_mret].
Qed.

(** The stage after the loop never touches the accumulators. *)
Lemma finish_keeps_points env butler showPatch saveFile :
  keeps_points (finish env butler showPatch saveFile).
Proof.
  intros s. destruct (view_limits (ras s) (decs s)) as [[xlim ylim]|e] eqn:Hlim.
  - destruct (finish_draws env butler showPatch saveFile s xlim ylim Hlim)
      as (t & r & -> & _). by exists t, r.
  - rewrite (finish_no_limits _ _ _ _ _ e) by done.
    exists [], (Raise e). by rewrite extend_nil.
Qed.

(** ** Events of the drawing stages *)

Lemma visit_events_drawing env butler ccds ccdKey iv :
  Forall drawing_event (visit_events env butler ccds ccdKey iv).
Proof.
  unfold visit_events. apply Forall_cons. split; [done|].
  apply Forall_flat_map, Forall_forall. intros ccd _.
  unfold pair_events. apply Forall_cons. split; [done|].
  destruct (footprint _ _ _ _ _) as [[ra dec]|e]; repeat constructor.
Qed.

Lemma loop_events_drawing env butler ccds ccdKey visits :
  Forall drawing_event
    (flat_map (visit_events env butler ccds ccdKey) (enumerate visits)).
Proof.
  apply Forall_flat_map, Forall_forall. intros iv _.
  apply visit_events_drawing.
Qed.

Lemma patch_calls_drawing xlim ylim tract patch :
  Forall (fun c => drawing_event (EPlot c)) (patch_calls xlim ylim tract patch).
Proof.
  unfold patch_calls.
  destruct (bboxToRaDec _ _) as [[ra dec]|e]; [|constructor].
  apply Forall_cons. split; [done|].
  destruct (percent ra _); [|constructor].
  destruct (percent dec _); [|constructor].
  destruct (percent dec _); [|constructor].
  destruct (inside _ _ _ _); repeat constructor.
Qed.

Lemma overlay_events_drawing butler xlim ylim showPatch :
  Forall drawing_event (overlay_events butler xlim ylim showPatch).
Proof.
  unfold overlay_events. destruct showPatch; [|constructor].
  apply Forall_cons. split; [done|].
  destruct (butler_get _ _ _) as [[cards|tracts]|e]; try constructor.
  apply Forall_fmap, Forall_flat_map, Forall_forall. intros tract _.
  apply Forall_flat_map, Forall_forall. intros patch _.
  apply patch_calls_drawing.
Qed.

Lemma outputs_app t1 t2 : outputs (t1 ++ t2) = outputs t1 ++ outputs t2.
Proof. apply flat_map_app. Qed.

Lemma outputs_drawing t : Forall drawing_event t -> outputs t = [].
Proof.
  induction 1 as [|e t He _ IH]; [done|].
  unfold outputs in *. cbn [flat_map]. rewrite IH, app_nil_r.
  by destruct e as [| |[]].
Qed.

Lemma outputs_prefix t l : t `prefix_of` l -> outputs t `prefix_of` outputs l.
Proof. intros [k ->]. rewrite outputs_app. by apply prefix_app_r. Qed.

Lemma outputs_render xlim ylim saveFile :
  outputs (map EPlot (render_calls xlim ylim saveFile)) = [final_call saveFile].
Proof. by destruct saveFile. Qed.

Lemma drawing_prefix t l :
  t `prefix_of` l -> Forall drawing_event l -> Forall drawing_event t.
Proof. intros [k ->] Hall. by apply Forall_app in Hall as [? _]. Qed.

(** ** main: how the figure is put out, and what aborts it *)

Lemma main_after_loop env rootDir tract visits ccds ccdKey showPatch saveFile
    butler :
  Butler env rootDir = Ok butler ->
  main env rootDir tract visits ccds ccdKey showPatch saveFile init
  = finish env butler showPatch saveFile
      (extend init
         (flat_map (visit_ras env butler ccds ccdKey) (enumerate visits))
         (flat_map (visit_decs env butler ccds ccdKey) (enumerate visits))
         (flat_map (visit_events env butler ccds ccdKey) (enumerate visits))).
Proof.
  intros Hopen. rewrite (main_run _ _ _ _ _ _ _ _ butler) by done.
  by rewrite aggregate_run.
Qed.

(** X2: whatever happens, a run of [main] puts the figure out at most
    once, and only in the way asked for: [savefig(saveFile)] when a file
    name was given, [show()] when none was, never both and never the other
    one; a run that ends normally has made that call, as its last. *)
Theorem figure_put_out_once env rootDir tract visits ccds ccdKey showPatch
    saveFile :
  outputs (trace (main env rootDir tract visits ccds ccdKey showPatch
                    saveFile init).1)
    `prefix_of` [final_call saveFile] /\
  (is_ok (main env rootDir tract visits ccds ccdKey showPatch saveFile
            init).2 = true ->
   last (trace (main env rootDir tract visits ccds ccdKey showPatch
                  saveFile init).1)
   = Some (EPlot (final_call saveFile))).
Proof.
  destruct (Butler env rootDir) as [butler|e] eqn:Hopen.
  - rewrite (main_after_loop _ _ _ _ _ _ _ _ butler) by done.
    set (s1 := extend init _ _ _).
    pose proof (loop_events_drawing env butler ccds ccdKey visits) as Hloop.
    destruct (view_limits (ras s1) (decs s1)) as [[xlim ylim]|e] eqn:Hlim.
    + destruct (finish_draws env butler showPatch saveFile s1 xlim ylim Hlim)
        as (t & r & -> & Hpre & Hall).
      cbn [fst snd extend trace s1 init app]. split.
      * rewrite outputs_app, (outputs_drawing _ Hloop). cbn [app].
        apply outputs_prefix in Hpre.
        rewrite outputs_app, outputs_render in Hpre.
        by rewrite (outputs_drawing _ (overlay_events_drawing _ _ _ _))
          in Hpre.
      * intros Hok. rewrite (Hall Hok), !last_app.
        by destruct saveFile.
    + rewrite (finish_no_limits _ _ _ _ _ e) by done.
      cbn [fst snd extend trace s1 init app]. split; [|done].
      rewrite (outputs_drawing _ Hloop). apply prefix_nil.
  - rewrite (main_closed _ _ _ _ _ _ _ _ e) by done.
    split; [apply prefix_nil|done].
Qed.

Lemma figure_put_out_once_witness :
  last (trace (main example_env "repo" 0 [100] None "ccd" false
                 (Some "plot.png"%string) init).1)
  = Some (EPlot (Savefig "plot.png")).
Proof.
  apply (proj2 (figure_put_out_once example_env "repo" 0 [100] None "ccd"
                  false (Some "plot.png"%string))).
  vm_compute. reflexivity.
Defined.

(** X3: outside the loop nothing is caught.  When the repository cannot be
    opened, [main] raises that error having printed, requested and drawn
    nothing; when the overlay raises (the sky map is not delivered, a patch
    cannot be projected or drawn), [main] raises the same error and stops
    there: the axes are never labelled or limited and the figure is neither
    saved nor shown. *)
Theorem main_aborts env rootDir tract visits ccds ccdKey saveFile :
  (forall showPatch e s,
     Butler env rootDir = Raise e ->
     main env rootDir tract visits ccds ccdKey showPatch saveFile s
     = (s, Raise e)) /\
  (forall butler xlim ylim e,
     Butler env rootDir = Ok butler ->
     view_limits (ras (aggregate env butler visits ccds ccdKey init).1)
       (decs (aggregate env butler visits ccds ccdKey init).1)
     = Ok (xlim, ylim) ->
     (overlay env butler xlim ylim
        (aggregate env butler visits ccds ccdKey init).1).2 = Raise e ->
     (main env rootDir tract visits ccds ccdKey true saveFile init).2
     = Raise e /\
     Forall drawing_event
       (trace (main env rootDir tract visits ccds ccdKey true saveFile
                 init).1)).
Proof.
  split.
  - intros showPatch e s Hopen. by apply main_closed.
  - intros butler xlim ylim e Hopen Hlim Hov.
    rewrite (main_run _ _ _ _ _ _ _ _ butler) by done.
    rewrite (finish_limits _ _ _ _ _ xlim ylim) by done.
    rewrite bind_run.
    destruct (draws_overlay env butler xlim ylim
                (aggregate env butler visits ccds ccdKey init).1)
      as (t & r & Hrun & Hpre & _).
    rewrite Hrun in *. cbn [snd] in Hov. subst r. cbn [fst snd].
    split; [done|].
    rewrite aggregate_run. cbn [fst extend trace init app].
    apply Forall_app. split; [apply loop_events_drawing|].
    apply (drawing_prefix _ _ Hpre), overlay_events_drawing.
Qed.

Lemma main_aborts_witness :
  (main headless_env "repo" 0 [100] None "ccd" true None init).2
  = Raise (ExternalError "no display") /\
  Forall drawing_event
    (trace (main headless_env "repo" 0 [100] None "ccd" true None init).1).
Proof.
  apply (proj2 (main_aborts headless_env "repo" 0 [100] None "ccd" None)
           example_butler
           (70.1, 19.9)%float (-0.1, 10.1)%float);
    vm_compute; reflexivity.
Defined.

(** ** main: the progress lines and the runs that select nothing *)

Lemma prints_app t1 t2 : prints (t1 ++ t2) = prints t1 ++ prints t2.
Proof. apply flat_map_app. Qed.

Lemma prints_late t : Forall late_event t -> prints t = [].
Proof.
  induction 1 as [|e t He _ IH]; [done|].
  unfold prints in *. cbn [flat_map]. rewrite IH, app_nil_r.
  by destruct e.
Qed.

Lemma prints_pair_events env butler ccdKey i_v visit ccd :
  prints (pair_events env butler ccdKey i_v visit ccd) = [].
Proof.
  unfold pair_events. by destruct (footprint _ _ _ _ _) as [[ra dec]|e].
Qed.

Lemma prints_visit_events env butler ccds ccdKey iv :
  prints (visit_events env butler ccds ccdKey iv) = [iv].
Proof.
  destruct iv as [i_v visit]. unfold visit_events. cbn [fst snd].
  change (prints (?e :: ?t)) with ((i_v, visit) :: prints t).
  f_equal. induction (selected_ccds butler ccds) as [|ccd l IH]; [done|].
  cbn [flat_map]. by rewrite prints_app, prints_pair_events, IH.
Qed.

Lemma prints_loop env butler ccds ccdKey visits :
  prints (flat_map (visit_events env butler ccds ccdKey) (enumerate visits))
  = enumerate visits.
Proof.
  induction (enumerate visits) as [|iv l IH]; [done|].
  cbn [flat_map]. by rewrite prints_app, prints_visit_events, IH.
Qed.

Lemma enumerate_from_zip {A} (l : list A) (k : nat) :
  enumerate_from k l = zip (seq k (length l)) l.
Proof.
  revert k. induction l as [|x l IH]; intros k; [done|].
  cbn [enumerate_from length seq zip zip_with]. by rewrite IH.
Qed.

(** X4: the loop prints one progress line per visit, in the order of the
    visits and numbered from 0, whether or not anything could be fetched or
    drawn for the visit; nothing else in [main] prints. *)
Theorem progress_lines :
  (forall env butler visits ccds ccdKey s,
     prints (trace (aggregate env butler visits ccds ccdKey s).1)
     = prints (trace s) ++ enumerate visits) /\
  (forall env rootDir tract visits ccds ccdKey showPatch saveFile butler,
     Butler env rootDir = Ok butler ->
     prints (trace (main env rootDir tract visits ccds ccdKey showPatch
                      saveFile init).1)
     = enumerate visits) /\
  (forall visits : list Z,
     enumerate visits = zip (seq 0 (length visits)) visits).
Proof.
  split; [|split].
  - intros env butler visits ccds ccdKey s. rewrite aggregate_run.
    cbn [fst extend trace]. by rewrite prints_app, prints_loop.
  - intros env rootDir tract visits ccds ccdKey showPatch saveFile butler Hopen.
    rewrite (main_after_loop _ _ _ _ _ _ _ _ butler) by done.
    destruct (emits_finish env butler showPatch saveFile
                (extend init
                   (flat_map (visit_ras env butler ccds ccdKey)
                      (enumerate visits))
                   (flat_map (visit_decs env butler ccds ccdKey)
                      (enumerate visits))
                   (flat_map (visit_events env butler ccds ccdKey)
                      (enumerate visits))))
      as (t & -> & Hlate).
    cbn [extend trace init app].
    by rewrite prints_app, prints_loop, (prints_late _ Hlate), app_nil_r.
  - intros visits. apply enumerate_from_zip.
Qed.

Lemma progress_lines_witness :
  prints (trace (main example_env "repo" 0 [100; 999; 7] (Some []) "ccd"
                   false None init).1)
  = enumerate [100; 999; 7].
Proof.
  by apply (proj1 (proj2 progress_lines) example_env "repo" 0 [100; 999; 7]
              (Some []) "ccd" false None example_butler).
Defined.

Lemma selected_ccds_none butler ccds :
  (forall ccd, ccd ∈ camera butler -> selected ccds ccd = false) ->
  selected_ccds butler ccds = [].
Proof.
  unfold selected_ccds. intros Hnone.
  induction (camera butler) as [|ccd l IH]; [done|]. cbn [List.filter].
  rewrite Hnone by left. apply IH. intros c Hc. apply Hnone. by right.
Qed.

(** X5: when there is no visit, or the camera has no sensor that is
    selected (no science sensor, or none whose id is in the [ccds] filter),
    [main] prints its progress lines, requests and draws nothing, and ends
    with the [ValueError] of [max] on the empty accumulator. *)
Theorem nothing_selected env rootDir tract visits ccds ccdKey showPatch
    saveFile butler :
  Butler env rootDir = Ok butler ->
  visits = [] \/
  (forall ccd, ccd ∈ camera butler -> selected ccds ccd = false) ->
  main env rootDir tract visits ccds ccdKey showPatch saveFile init
  = ({| ras := []; decs := [];
        trace := map (fun iv => EPrint iv.1 iv.2) (enumerate visits) |},
     Raise ValueError).
Proof.
  intros Hopen Hnone.
  rewrite (main_after_loop _ _ _ _ _ _ _ _ butler) by done.
  assert (flat_map (visit_ras env butler ccds ccdKey) (enumerate visits) = []
          /\ flat_map (visit_decs env butler ccds ccdKey) (enumerate visits)
             = []
          /\ flat_map (visit_events env butler ccds ccdKey) (enumerate visits)
             = map (fun iv => EPrint iv.1 iv.2) (enumerate visits))
    as (-> & -> & ->).
  { destruct Hnone as [->|Hnone]; [done|].
    unfold visit_ras, visit_decs, visit_events.
    rewrite (selected_ccds_none _ _ Hnone). cbn [flat_map].
    split; [by apply flat_map_nil|]. split; [by apply flat_map_nil|].
    apply flat_map_singleton. }
  by rewrite finish_empty.
Qed.

Lemma nothing_selected_witness :
  main example_env "repo" 0 [100; 101] (Some [9]) "ccd" true None init
  = ({| ras := []; decs := [];
        trace := [EPrint 0 100; EPrint 1 101] |},
     Raise ValueError).
Proof.
  apply (nothing_selected example_env "repo" 0 [100; 101] (Some [9]) "ccd"
           true None example_butler); [reflexivity|].
  right. intros ccd Hccd. unfold example_butler, example_camera in Hccd.
  cbn [camera] in Hccd. rewrite !elem_of_cons, elem_of_nil in Hccd.
  destruct Hccd as [->|[->|[->|[->|[]]]]]; reflexivity.
Defined.

(** ** main: what the accumulators hold *)

Lemma unzip_flat_map {A B C} (fa : A -> list B) (fb : A -> list C)
    (P : A -> B * C -> Prop) (l : list A) :
  (forall x, x ∈ l ->
     exists ps, fa x = map fst ps /\ fb x = map snd ps /\ Forall (P x) ps) ->
  exists ps,
    flat_map fa l = map fst ps /\ flat_map fb l = map snd ps /\
    Forall (fun p => exists x, x ∈ l /\ P x p) ps.
Proof.
  induction l as [|x l IH]; intros Hl.
  - by exists [].
  - destruct (Hl x ltac:(left)) as (ps & Ha & Hb & HP).
    destruct IH as (qs & Hqa & Hqb & HQ).
    { intros y Hy. apply Hl. by right. }
    exists (ps ++ qs). cbn [flat_map]. rewrite !map_app, Ha, Hb, Hqa, Hqb.
    split; [done|]. split; [done|]. apply Forall_app. split.
    + eapply Forall_impl; [exact HP|]. intros p Hp. exists x. split; [left|done].
    + eapply Forall_impl; [exact HQ|]. intros p (y & Hy & Hp).
      exists y. split; [by right|done].
Qed.

Lemma elem_of_enumerate_from {A} (l : list A) (k : nat) (iv : nat * A) :
  iv ∈ enumerate_from k l -> iv.2 ∈ l.
Proof.
  revert k. induction l as [|x l IH]; intros k; cbn [enumerate_from].
  - by intros ?%elem_of_nil.
  - intros [->|Hin]%elem_of_cons; [left|right]. by apply (IH (S k)).
Qed.

(** The sky position [p] is that of a corner of the sensor, by the WCS of
    the metadata fetched for the pair. *)
Lemma pair_points env butler ccdKey visit ccd :
  exists ps,
    pair_ras env butler ccdKey visit ccd = map fst ps /\
    pair_decs env butler ccdKey visit ccd = map snd ps /\
    Forall (fun p => exists md wcs corner,
      butler_get butler "calexp_md"
        (calexp_dataId ccdKey visit (getSerial ccd)) = Ok md /\
      makeWcs env md = Ok wcs /\
      corner ∈ getCorners (getBBox ccd) /\
      project wcs corner = Ok p) ps.
Proof.
  unfold pair_ras, pair_decs, footprint.
  destruct (butler_get _ _ _) as [md|e] eqn:Hmd; [|by exists []].
  cbn [mbind result_bind rbind].
  destruct (makeWcs env md) as [wcs|e] eqn:Hwcs; [|by exists []].
  cbn [mbind result_bind rbind]. rewrite bboxToRaDec_unfold.
  destruct (rmapM (project wcs) (getCorners (getBBox ccd))) as [sky|e] eqn:Hsky;
    [|by exists []].
  cbn [rbind]. destruct sky as [|p sky]; [by exists []|].
  exists (p :: sky). split; [done|]. split; [done|].
  apply rmapM_Forall2 in Hsky. apply Forall_forall. intros q Hq.
  apply list_elem_of_lookup in Hq as [i Hi].
  destruct (Forall2_lookup_r _ _ _ _ _ Hsky Hi) as (corner & Hc & Hproj).
  exists md, wcs, corner. repeat split; try done.
  by apply list_elem_of_lookup_2 in Hc.
Qed.

(** X6: the two accumulators stay paired.  After any run of [main] that
    opened the repository, whether it ended normally or not, they have the
    same length and hold, index by index, the RA and the Dec of one corner
    of a selected sensor of one of the visits, converted by the WCS made
    from the metadata fetched for that visit and sensor. *)
Theorem accumulated_points env rootDir tract visits ccds ccdKey showPatch
    saveFile butler s' :
  Butler env rootDir = Ok butler ->
  s' = (main env rootDir tract visits ccds ccdKey showPatch saveFile init).1 ->
  length (ras s') = length (decs s') /\
  forall (i : nat) r d,
    ras s' !! i = Some r -> decs s' !! i = Some d ->
    exists visit ccd md wcs corner coord,
      visit ∈ visits /\ ccd ∈ camera butler /\ selected ccds ccd = true /\
      butler_get butler "calexp_md"
        (calexp_dataId ccdKey visit (getSerial ccd)) = Ok md /\
      makeWcs env md = Ok wcs /\
      corner ∈ getCorners (getBBox ccd) /\
      pixelToSky wcs (toPoint2D corner) = Ok coord /\
      r = getRa coord /\ d = getDec coord.
Proof.
  intros Hopen ->. rewrite (main_after_loop _ _ _ _ _ _ _ _ butler) by done.
  destruct (finish_keeps_points env butler showPatch saveFile
              (extend init
                 (flat_map (visit_ras env butler ccds ccdKey)
                    (enumerate visits))
                 (flat_map (visit_decs env butler ccds ccdKey)
                    (enumerate visits))
                 (flat_map (visit_events env butler ccds ccdKey)
                    (enumerate visits))))
    as (t & res & ->).
  cbn [fst extend ras decs init app]. rewrite !app_nil_r.
  destruct (unzip_flat_map (visit_ras env butler ccds ccdKey)
              (visit_decs env butler ccds ccdKey)
              (fun iv p => exists ccd md wcs corner,
                 ccd ∈ selected_ccds butler ccds /\
                 butler_get butler "calexp_md"
                   (calexp_dataId ccdKey iv.2 (getSerial ccd)) = Ok md /\
                 makeWcs env md = Ok wcs /\
                 corner ∈ getCorners (getBBox ccd) /\
                 project wcs corner = Ok p)
              (enumerate visits))
    as (ps & -> & -> & Hps).
  { intros iv _. unfold visit_ras, visit_decs.
    destruct (unzip_flat_map (pair_ras env butler ccdKey iv.2)
                (pair_decs env butler ccdKey iv.2)
                (fun ccd p => exists md wcs corner,
                   butler_get butler "calexp_md"
                     (calexp_dataId ccdKey iv.2 (getSerial ccd)) = Ok md /\
                   makeWcs env md = Ok wcs /\
                   corner ∈ getCorners (getBBox ccd) /\
                   project wcs corner = Ok p)
                (selected_ccds butler ccds))
      as (qs & Hra & Hdec & Hqs).
    { intros ccd _. apply pair_points. }
    exists qs. split; [done|]. split; [done|].
    eapply Forall_impl; [exact Hqs|].
    intros p (ccd & Hccd & md & wcs & corner & H). by exists ccd, md, wcs, corner. }
  split; [by rewrite !length_map|].
  intros i r d Hr Hd. rewrite list_lookup_fmap in Hr, Hd.
  destruct (ps !! i) as [[r' d']|] eqn:Hi; [|done].
  cbn in Hr, Hd. injection Hr as <-. injection Hd as <-.
  rewrite Forall_forall in Hps.
  destruct (Hps (r', d')) as (iv & Hiv & ccd & md & wcs & corner & Hccd
                              & Hmd & Hwcs & Hcorner & Hproj).
  { by apply list_elem_of_lookup_2 in Hi. }
  apply project_inv in Hproj as (coord & Hsky & -> & ->).
  unfold selected_ccds in Hccd. apply list_elem_of_In, filter_In in Hccd.
  destruct Hccd as [Hcam Hsel].
  exists iv.2, ccd, md, wcs, corner, coord.
  split; [by apply (elem_of_enumerate_from visits 0)|].
  split; [by apply list_elem_of_In|]. done.
Qed.

Lemma accumulated_points_witness :
  length (ras (main example_env "repo" 0 [100] (Some [2]) "ccd" false None
                 init).1)
  = length (decs (main example_env "repo" 0 [100] (Some [2]) "ccd" false None
                    init).1).
Proof.
  apply (accumulated_points example_env "repo" 0 [100] (Some [2]) "ccd" false
           None example_butler); reflexivity.
Defined.

(** ** The data id of a fetch and the colour of a footprint *)

(** X7: the data id of a metadata fetch has the keys ['visit'] and
    [ccdKey] and carries the sensor id under [ccdKey].  When [ccdKey] is
    not ['visit'] it carries the visit too, and two fetches have the same
    data id only for the same visit and sensor id; when [ccdKey] is
    ['visit'] the sensor id takes the place of the visit, so that the data
    id is the same for every visit. *)
Theorem calexp_dataId_keys ccdKey visit ccdId :
  calexp_dataId ccdKey visit ccdId !! ccdKey = Some ccdId /\
  dom (calexp_dataId ccdKey visit ccdId) = {[ "visit"%string; ccdKey ]} /\
  (ccdKey <> "visit"%string ->
   calexp_dataId ccdKey visit ccdId !! "visit"%string = Some visit /\
   forall visit' ccdId',
     calexp_dataId ccdKey visit ccdId = calexp_dataId ccdKey visit' ccdId' <->
     visit = visit' /\ ccdId = ccdId') /\
  (forall visit',
     calexp_dataId "visit" visit ccdId = {[ "visit"%string := ccdId ]} /\
     calexp_dataId "visit" visit ccdId = calexp_dataId "visit" visit' ccdId).
Proof.
  unfold calexp_dataId. split; [apply lookup_insert_eq|].
  split; [|split].
  - rewrite dom_insert_L, dom_singleton_L. apply (comm_L (∪)).
  - intros Hkey. split.
    + rewrite lookup_insert_ne by done. apply lookup_singleton_eq.
    + intros visit' ccdId'. split; [|by intros [-> ->]].
      intros Heq. split.
      * assert (<[ccdKey:=ccdId]> ({["visit"%string := visit]} : gmap string Z)
                  !! "visit"%string = Some visit') as Hv.
        { rewrite Heq, lookup_insert_ne by done. apply lookup_singleton_eq. }
        rewrite lookup_insert_ne, lookup_singleton_eq in Hv by done.
        congruence.
      * assert (<[ccdKey:=ccdId]> ({["visit"%string := visit]} : gmap string Z)
                  !! ccdKey = Some ccdId') as Hc.
        { rewrite Heq. apply lookup_insert_eq. }
        rewrite lookup_insert_eq in Hc. congruence.
  - intros visit'. by rewrite !insert_singleton_eq.
Qed.

Lemma calexp_dataId_keys_witness :
  calexp_dataId "ccd" 100 3 !! "visit"%string = Some 100 /\
  forall visit' ccdId',
    calexp_dataId "ccd" 100 3 = calexp_dataId "ccd" visit' ccdId' <->
    100 = visit' /\ 3 = ccdId'.
Proof.
  apply (proj1 (proj2 (proj2 (calexp_dataId_keys "ccd" 100 3)))).
  discriminate.
Defined.

Lemma footprint_fill_period i_v ra dec :
  footprint_fill (i_v + 5) ra dec = footprint_fill i_v ra dec.
Proof.
  unfold footprint_fill.
  replace ((i_v + 5) `mod` 5)%nat with (i_v `mod` 5)%nat; [done|].
  rewrite <- (Nat.Div0.add_mod_idemp_r i_v 5 5).
  by rewrite Nat.Div0.mod_same, Nat.add_0_r.
Qed.

Lemma pair_events_period env butler ccdKey i_v visit ccd :
  pair_events env butler ccdKey (i_v + 5) visit ccd
  = pair_events env butler ccdKey i_v visit ccd.
Proof.
  unfold pair_events. destruct (footprint _ _ _ _ _) as [[ra dec]|e]; [|done].
  by rewrite footprint_fill_period.
Qed.

Lemma footprint_Ok env butler ccdKey visit ccd md wcs ra dec :
  butler_get butler "calexp_md" (calexp_dataId ccdKey visit (getSerial ccd))
  = Ok md ->
  makeWcs env md = Ok wcs ->
  bboxToRaDec (getBBox ccd) wcs = Ok (ra, dec) ->
  footprint env butler ccdKey visit ccd = Ok (ra, dec).
Proof.
  intros Hmd Hwcs Hproj. unfold footprint. rewrite Hmd.
  cbn [mbind result_bind rbind]. rewrite Hwcs. exact Hproj.
Qed.

Lemma palette_lookup (i_v : nat) :
  exists color,
    palette !! (i_v `mod` 5)%nat = Some color /\
    nth (i_v `mod` 5) palette EmptyString = color.
Proof.
  assert (i_v `mod` 5 < length palette)%nat as Hlt
    by (change (length palette) with 5%nat; apply Nat.mod_upper_bound; lia).
  apply lookup_lt_is_Some_2 in Hlt as [color Hcolor]. exists color.
  split; [done|]. by apply nth_lookup_Some with (d := EmptyString) in Hcolor.
Qed.

(** X8: when the metadata of a visit and sensor is fetched, a WCS is made
    of it and the box of the sensor is projected to [ra], [dec], the [try]
    block appends [ra] and [dec] to the accumulators and fills exactly that
    polygon, in the colour of the visit's index modulo 5 in r, b, c, g, m,
    the edge in the same colour and alpha 0.2, and ends as that call ends.
    It makes no other plot call; the index never leaves the tuple of
    colours, the five colours differ, and the visits [i] and [i + 5] are
    treated alike. *)
Theorem footprint_colours env butler ccdKey i_v visit ccd s :
  (forall md wcs ra dec,
     butler_get butler "calexp_md"
       (calexp_dataId ccdKey visit (getSerial ccd)) = Ok md ->
     makeWcs env md = Ok wcs ->
     bboxToRaDec (getBBox ccd) wcs = Ok (ra, dec) ->
     exists color,
       palette !! (i_v `mod` 5)%nat = Some color /\
       process_ccd env butler ccdKey i_v visit ccd s
       = (extend s ra dec
            [EGet "calexp_md" (calexp_dataId ccdKey visit (getSerial ccd));
             EPlot (Fill ra dec (Filled 0.2 color color))],
          pyplot env (Fill ra dec (Filled 0.2 color color)))) /\
  (exists t,
     trace (process_ccd env butler ccdKey i_v visit ccd s).1 = trace s ++ t /\
     forall call, EPlot call ∈ t ->
       exists ra dec color,
         call = Fill ra dec (Filled 0.2 color color) /\
         palette !! (i_v `mod` 5)%nat = Some color) /\
  process_ccd env butler ccdKey (i_v + 5) visit ccd s
  = process_ccd env butler ccdKey i_v visit ccd s /\
  NoDup palette.
Proof.
  split; [|split; [|split]].
  - intros md wcs ra dec Hmd Hwcs Hproj.
    pose proof (footprint_Ok env butler ccdKey visit ccd md wcs ra dec
                  Hmd Hwcs Hproj) as Hfoot.
    destruct (palette_lookup i_v) as (color & Hcolor & Hnth).
    exists color. split; [done|].
    rewrite process_ccd_run.
    unfold pair_ras, pair_decs, pair_events, footprint_fill.
    by rewrite Hfoot, Hnth.
  - rewrite process_ccd_run. cbn [fst extend trace].
    eexists. split; [reflexivity|].
    intros call. unfold pair_events.
    destruct (footprint _ _ _ _ _) as [[ra dec]|e].
    + rewrite !elem_of_cons, elem_of_nil.
      intros [Hget|[[= ->]|[]]]; [discriminate|].
      unfold footprint_fill. do 3 eexists. split; [reflexivity|].
      destruct (palette_lookup i_v) as (color & Hcolor & Hnth).
      by rewrite Hnth.
    + rewrite elem_of_cons, elem_of_nil. intros [Hget|[]]. discriminate.
  - rewrite !process_ccd_run, pair_events_period.
    destruct (footprint _ _ _ _ _) as [[ra dec]|e]; [|done].
    by rewrite footprint_fill_period.
  - apply (bool_decide_unpack _). by vm_compute.
Qed.

Lemma footprint_colours_witness :
  exists color,
    palette !! (7 `mod` 5)%nat = Some color /\
    process_ccd example_env example_butler "ccd" 7 100 (sensor 2 SCIENCE) init
    = (extend init [40; 50; 50; 40]%float [0; 0; 10; 10]%float
         [EGet "calexp_md" (calexp_dataId "ccd" 100 2);
          EPlot (Fill [40; 50; 50; 40]%float [0; 0; 10; 10]%float
                   (Filled 0.2 color color))],
       pyplot example_env
         (Fill [40; 50; 50; 40]%float [0; 0; 10; 10]%float
            (Filled 0.2 color color))).
Proof.
  apply (proj1 (footprint_colours example_env example_butler "ccd" 7 100
                  (sensor 2 SCIENCE) init)
           (PropertySet []) pixel_wcs);
    vm_compute; reflexivity.
Defined.

(** The third colour, for the visit of index 7. *)
Example footprint_colours_example :
  process_ccd example_env example_butler "ccd" 7 100 (sensor 2 SCIENCE) init
  = ({| ras := [40; 50; 50; 40]%float; decs := [0; 0; 10; 10]%float;
        trace := [EGet "calexp_md" (calexp_dataId "ccd" 100 2);
                  EPlot (Fill [40; 50; 50; 40]%float [0; 0; 10; 10]%float
                           (Filled 0.2 "c" "c"))] |},
     Ok tt).
Proof. vm_compute. reflexivity. Qed.

(** ** splitId: the namespace it leaves and the errors it raises *)

Section SplitIdRuns.
Variable IdValueAction :
  list string -> string -> result (list (gmap string string)).
Variable int : string -> result Z.
Variable set_iter : gset Z -> list Z.

Lemma splitId_unfold argName namespace values :
  splitId IdValueAction int set_iter argName namespace values
  = match values !! 0%nat with
    | None => Raise IndexError
    | Some v0 =>
        match IdValueAction [(argName +:+ "=" +:+ v0)%string]
                ("--" +:+ argName)%string with
        | Raise e => Raise e
        | Ok idList =>
            match rmapM (id_of int argName) idList with
            | Raise e => Raise e
            | Ok ids =>
                Ok (<[argName := NsIds (set_iter (list_to_set ids))]>
                      (<[argName := NsContainer []]>
                         (<["config"%string := NsStr "hack"]> namespace)))
            end
        end
    end.
Proof.
  unfold splitId. destruct (values !! 0%nat) as [v0|]; [|done].
  cbn [mbind result_bind rbind].
  destruct (IdValueAction _ _) as [idList|e]; [|done].
  cbn [mbind result_bind rbind app].
  by destruct (rmapM (id_of int argName) idList).
Qed.

Lemma splitId_Ok argName namespace values namespace' :
  splitId IdValueAction int set_iter argName namespace values = Ok namespace' <->
  exists v0 idList ids,
    values !! 0%nat = Some v0 /\
    IdValueAction [(argName +:+ "=" +:+ v0)%string] ("--" +:+ argName)%string
    = Ok idList /\
    rmapM (id_of int argName) idList = Ok ids /\
    namespace'
    = <[argName := NsIds (set_iter (list_to_set ids))]>
        (<[argName := NsContainer []]>
           (<["config"%string := NsStr "hack"]> namespace)).
Proof.
  rewrite splitId_unfold. split.
  - destruct (values !! 0%nat) as [v0|]; [|discriminate].
    destruct (IdValueAction _ _) as [idList|e] eqn:Hparse; [|discriminate].
    destruct (rmapM (id_of int argName) idList) as [ids|e] eqn:Hids;
      [|discriminate].
    intros [= <-]. by exists v0, idList, ids.
  - intros (v0 & idList & ids & -> & -> & -> & ->). done.
Qed.

Lemma id_of_Raise argName dataId e :
  id_of int argName dataId = Raise e <->
  (dataId !! argName = None /\ e = KeyError) \/
  (exists v, dataId !! argName = Some v /\ int v = Raise e).
Proof.
  unfold id_of. destruct (dataId !! argName) as [v|]; split.
  - intros Hv. right. by exists v.
  - intros [[? _]|(v' & [= <-] & Hv)]; done.
  - intros [= <-]. by left.
  - intros [[_ ->]|(v & ? & _)]; done.
Qed.

(** X9: an action that returns has stored a list of integers under
    [argName] (even when [argName] is ['config']) and otherwise the string
    ['hack'] under ['config'], and has changed no other attribute of the
    namespace. *)
Theorem splitId_namespace argName namespace values namespace' :
  splitId IdValueAction int set_iter argName namespace values = Ok namespace' ->
  (exists l, namespace' !! argName = Some (NsIds l)) /\
  (argName <> "config"%string ->
   namespace' !! "config"%string = Some (NsStr "hack")) /\
  (forall k, k <> argName -> k <> "config"%string ->
     namespace' !! k = namespace !! k).
Proof.
  intros (v0 & idList & ids & _ & _ & _ & ->)%splitId_Ok.
  split; [|split].
  - eexists. apply lookup_insert_eq.
  - intros Hname. rewrite !lookup_insert_ne by done. apply lookup_insert_eq.
  - intros k Hk Hconfig. by rewrite !lookup_insert_ne.
Qed.

(** X10: the action raises [IndexError] on an empty list of values, the
    error of [IdValueAction] when that parser rejects ["argName=value"],
    [KeyError] at the first parsed data id that lacks the key [argName],
    and the error of [int] at the first one whose value under [argName] is
    no integer; in every other case it returns.  Of the values only the
    first is read. *)
Theorem splitId_raises argName namespace values e :
  (splitId IdValueAction int set_iter argName namespace values = Raise e <->
   (values = [] /\ e = IndexError) \/
   exists v0 rest,
     values = v0 :: rest /\
     (IdValueAction [(argName +:+ "=" +:+ v0)%string] ("--" +:+ argName)%string
      = Raise e \/
      exists idList (i : nat) dataId,
        IdValueAction [(argName +:+ "=" +:+ v0)%string]
          ("--" +:+ argName)%string = Ok idList /\
        idList !! i = Some dataId /\
        (forall (j : nat) d, (j < i)%nat -> idList !! j = Some d ->
           is_ok (id_of int argName d) = true) /\
        ((dataId !! argName = None /\ e = KeyError) \/
         exists v, dataId !! argName = Some v /\ int v = Raise e))) /\
  (forall v0 rest,
     splitId IdValueAction int set_iter argName namespace (v0 :: rest)
     = splitId IdValueAction int set_iter argName namespace [v0]).
Proof.
  split; [|intros v0 rest; by rewrite !splitId_unfold].
  rewrite splitId_unfold. destruct values as [|v0 rest].
  - cbn. split; [intros [= <-]; by left|].
    intros [[_ ->]|(v0 & rest & ? & _)]; done.
  - cbn [lookup list_lookup].
    destruct (IdValueAction _ _) as [idList|e0] eqn:Hparse.
    + destruct (rmapM (id_of int argName) idList) as [ids|e1] eqn:Hids.
      * split; [discriminate|].
        intros [[? _]|(v & r & [= <- <-] & [Habs|Hid])]; [done|..].
        -- congruence.
        -- destruct Hid as (idList' & i & dataId & Hparse' & Hi & Hbefore & He).
           assert (idList' = idList) as -> by congruence.
           assert (rmapM (id_of int argName) idList = Raise e) as Habs;
             [|congruence].
           apply rmapM_Raise. exists i, dataId.
           split; [done|]. split; [by apply id_of_Raise|done].
      * split.
        -- intros [= <-]. right. exists v0, rest. split; [done|]. right.
           apply rmapM_Raise in Hids as (i & dataId & Hi & He & Hbefore).
           exists idList, i, dataId. split; [done|]. split; [done|].
           split; [done|]. by apply id_of_Raise.
        -- intros [[? _]|(v & r & [= <- <-] & [Habs|Hid])]; [done|..].
           ++ congruence.
           ++ destruct Hid as (idList' & i & dataId & Hparse' & Hi & Hbefore & He).
              assert (idList' = idList) as -> by congruence.
              assert (rmapM (id_of int argName) idList = Raise e) as Habs.
              { apply rmapM_Raise. exists i, dataId.
                split; [done|]. split; [by apply id_of_Raise|done]. }
              congruence.
    + split.
      * intros [= <-]. right. exists v0, rest. split; [done|]. by left.
      * intros [[? _]|(v & r & [= <- <-] & [Habs|Hid])]; [done|..].
        -- congruence.
        -- destruct Hid as (idList' & _ & _ & Hparse' & _). congruence.
Qed.

(** X11: two actions on one namespace, as for [visits] and [--ccds]: the
    later one leaves the list of the earlier one in place when the names
    differ, and ['config'] is ['hack'] after both; an action replaces what
    the namespace held under its own name, so that the list it stores does
    not depend on the namespace it started from. *)
Theorem splitId_twice a b namespace values values' namespace1 namespace2 :
  splitId IdValueAction int set_iter a namespace values = Ok namespace1 ->
  splitId IdValueAction int set_iter b namespace1 values' = Ok namespace2 ->
  (a <> b -> a <> "config"%string ->
   namespace2 !! a = namespace1 !! a /\
   exists la lb,
     namespace2 !! a = Some (NsIds la) /\ namespace2 !! b = Some (NsIds lb)) /\
  (b <> "config"%string ->
   namespace2 !! "config"%string = Some (NsStr "hack")) /\
  (forall namespace',
     exists namespace2',
       splitId IdValueAction int set_iter b namespace' values'
       = Ok namespace2' /\
       namespace2' !! b = namespace2 !! b).
Proof.
  intros (v0 & idList & ids & _ & _ & _ & ->)%splitId_Ok.
  intros Hsecond. pose proof Hsecond as Hagain.
  apply splitId_Ok in Hsecond as (v1 & idList' & ids' & Hv1 & Hp & Hi & ->).
  split; [|split].
  - intros Hab Ha.
    assert (b <> a) as Hba by congruence.
    assert ("config"%string <> a) as Hca by congruence.
    rewrite !(lookup_insert_ne _ b a), (lookup_insert_ne _ "config"%string a)
      by done.
    split; [done|]. do 2 eexists. by rewrite !lookup_insert_eq.
  - intros Hb. rewrite !(lookup_insert_ne _ b) by done.
    apply lookup_insert_eq.
  - intros namespace'. eexists. split.
    + apply splitId_Ok. by exists v1, idList', ids'.
    + by rewrite !lookup_insert_eq.
Qed.
End SplitIdRuns.

Lemma splitId_namespace_witness :
  (<["visits"%string := NsIds [3; 20; 1]]>
     (<["config"%string := NsStr "hack"]>
        ({["root"%string := NsStr "repo"]} : gmap string NsValue)))
  !! "config"%string = Some (NsStr "hack") /\
  (<["visits"%string := NsIds [3; 20; 1]]>
     (<["config"%string := NsStr "hack"]>
        ({["root"%string := NsStr "repo"]} : gmap string NsValue)))
  !! "root"%string
  = ({["root"%string := NsStr "repo"]} : gmap string NsValue) !! "root"%string.
Proof.
  destruct (splitId_namespace caret_ids int_decimal elements "visits"
              {["root"%string := NsStr "repo"]} ["3^1^20"%string]
              (<["visits"%string := NsIds [3; 20; 1]]>
                 (<["config"%string := NsStr "hack"]>
                    ({["root"%string := NsStr "repo"]} : gmap string NsValue))))
    as (_ & Hconfig & Hframe); [vm_compute; reflexivity|].
  split; [apply Hconfig|apply Hframe]; discriminate.
Defined.

Lemma splitId_twice_witness :
  (<["ccds"%string := NsIds [7; 2]]>
     (<["visits"%string := NsIds [3; 20; 1]]>
        (<["config"%string := NsStr "hack"]> (∅ : gmap string NsValue))))
  !! "visits"%string
  = (<["visits"%string := NsIds [3; 20; 1]]>
       (<["config"%string := NsStr "hack"]> (∅ : gmap string NsValue)))
    !! "visits"%string /\
  (<["ccds"%string := NsIds [7; 2]]>
     (<["visits"%string := NsIds [3; 20; 1]]>
        (<["config"%string := NsStr "hack"]> (∅ : gmap string NsValue))))
  !! "config"%string = Some (NsStr "hack").
Proof.
  destruct (splitId_twice caret_ids int_decimal elements "visits" "ccds" ∅
              ["3^1^20"%string] ["7^7^2^7"%string]
              (<["visits"%string := NsIds [3; 20; 1]]>
                 (<["config"%string := NsStr "hack"]>
                    (∅ : gmap string NsValue)))
              (<["ccds"%string := NsIds [7; 2]]>
                 (<["visits"%string := NsIds [3; 20; 1]]>
                    (<["config"%string := NsStr "hack"]>
                       (∅ : gmap string NsValue)))))
    as (Hkeep & Hconfig & _); [vm_compute; reflexivity..|].
  split; [apply Hkeep|apply Hconfig]; discriminate.
Defined.

(** ** The view limits contain the accumulated points *)

Lemma SFle_refl a : SFle a a.
Proof. apply lex_lt_irrefl. Qed.

Lemma SFadd_infinity_l s c :
  SFfinite c = true -> SF64add (S754_infinity s) c = S754_infinity s.
Proof. by destruct c. Qed.

Lemma SFsub_infinity_l s c :
  SFfinite c = true -> SF64sub (S754_infinity s) c = S754_infinity s.
Proof. by destruct c. Qed.

Lemma SFadd_margin x c :
  SFvalid x -> SFvalid c -> SFnan x = false -> SFfinite c = true ->
  SFle (S754_zero false) c ->
  SFnan (SF64add x c) = false /\ SFle x (SF64add x c).
Proof.
  intros Vx Vc Nx Fc Hc. destruct (SFfinite x) eqn:Fx.
  - split; [apply SFadd_nan; try done; by apply SFfinite_nan|].
    pose proof (SFadd_mono x (S754_zero false) c Vx eq_refl Vc Fx eq_refl
                  (SFfinite_nan _ Fc) Hc) as Hle.
    unfold SFle in *. by rewrite SFadd_zero_rank in Hle.
  - destruct x as [s|s| |s m e]; try discriminate.
    rewrite SFadd_infinity_l by done. split; [done|apply SFle_refl].
Qed.

Lemma SFsub_margin x c :
  SFvalid x -> SFvalid c -> SFnan x = false -> SFfinite c = true ->
  SFle (S754_zero false) c ->
  SFnan (SF64sub x c) = false /\ SFle (SF64sub x c) x.
Proof.
  intros Vx Vc Nx Fc Hc. destruct (SFfinite x) eqn:Fx.
  - pose proof (SFle_SFint (S754_zero false) c eq_refl Vc eq_refl Fc Hc) as H0.
    cbn [SFint] in H0.
    assert (SFrank (SF64sub x c)
            = SFrank (round64 ((SFint x - SFint c) * 2 ^ 1126))) as Hrank
      by by apply SFsub_rank.
    split.
    + destruct x as [sx|sx| |sx mx ex]; try discriminate;
        destruct c as [sc|sc| |sc mc ec]; try discriminate; try done.
      * by destruct sx, sc.
      * rewrite SFsub_finite by (by eapply SFvalid_exponent).
        apply round64_nan.
    + unfold SFle. rewrite Hrank, <- (round64_exact x) by done.
      apply round64_mono. pose proof (pow2_pos 1126). nia.
  - destruct x as [s|s| |s m e]; try discriminate.
    rewrite SFsub_infinity_l by done. split; [done|apply SFle_refl].
Qed.

Lemma buff_facts :
  SFfinite (Prim2SF buff) = true /\ SFle (S754_zero false) (Prim2SF buff).
Proof.
  split; [reflexivity|]. by apply (float_le_SFle 0 buff).
Qed.

Lemma add_buff_margin x :
  no_nan x -> no_nan (x + buff) /\ float_le x (x + buff).
Proof.
  intros Nx. destruct buff_facts as [Fb Hb].
  destruct (SFadd_margin (Prim2SF x) (Prim2SF buff)) as [Nr Hle];
    try apply Prim2SF_valid; try done.
  rewrite <- add_spec in Nr, Hle. split; [done|]. by apply float_le_SFle.
Qed.

Lemma sub_buff_margin x :
  no_nan x -> no_nan (x - buff) /\ float_le (x - buff) x.
Proof.
  intros Nx. destruct buff_facts as [Fb Hb].
  destruct (SFsub_margin (Prim2SF x) (Prim2SF buff)) as [Nr Hle];
    try apply Prim2SF_valid; try done.
  rewrite <- sub_spec in Nr, Hle. split; [done|]. by apply float_le_SFle.
Qed.

Lemma extremes_float first rest x :
  Forall no_nan (first :: rest) -> x ∈ first :: rest ->
  no_nan x /\ no_nan (min_from first rest) /\ no_nan (max_from first rest) /\
  float_le (min_from first rest) x /\ float_le x (max_from first rest).
Proof.
  intros Hall Hx.
  destruct (min_from_float first rest Hall) as [Hm Hmin].
  destruct (max_from_float first rest Hall) as [HM Hmax].
  rewrite Forall_forall in Hall.
  split; [by apply Hall|]. split; [by apply Hall|]. split; [by apply Hall|].
  split; [by apply Hmin|by apply Hmax].
Qed.

Lemma limits_contain first rest x :
  Forall no_nan (first :: rest) -> x ∈ first :: rest ->
  float_le (min_from first rest - buff) x /\
  float_le x (max_from first rest + buff).
Proof.
  intros Hall Hx.
  destruct (extremes_float first rest x Hall Hx) as (Nx & Nm & NM & Hlo & Hhi).
  destruct (add_buff_margin _ NM) as [NMb HMb].
  destruct (sub_buff_margin _ Nm) as [Nmb Hmb].
  destruct float_extremum_laws as (_ & Htrans & _).
  split.
  - by apply Htrans with (min_from first rest).
  - by apply Htrans with (max_from first rest).
Qed.

(** X12: when no accumulated value is a NaN, the view limits contain every
    accumulated point: [xlim[1] <= ra <= xlim[0]] for every RA and
    [ylim[0] <= dec <= ylim[1]] for every Dec, infinite values included.
    The comparisons are not strict: the margin of 0.1 is rounded away next
    to a large value. *)
Theorem view_contains_points ras decs xlim ylim :
  Forall no_nan ras -> Forall no_nan decs ->
  view_limits ras decs = Ok (xlim, ylim) ->
  (forall ra, ra ∈ ras -> float_le xlim.2 ra /\ float_le ra xlim.1) /\
  (forall dec, dec ∈ decs -> float_le ylim.1 dec /\ float_le dec ylim.2).
Proof.
  intros Hras Hdecs. unfold view_limits.
  destruct ras as [|r rs]; [discriminate|].
  destruct decs as [|d ds]; [discriminate|].
  cbn. intros [= <- <-]. cbn [fst snd]. split.
  - intros ra Hra. by apply limits_contain.
  - intros dec Hdec. by apply limits_contain.
Qed.

Lemma view_contains_points_witness :
  (forall ra, ra ∈ [10%float; 20%float] ->
     float_le 9.9 ra /\ float_le ra 20.1) /\
  (forall dec, dec ∈ [1e17%float; infinity] ->
     float_le 1e17 dec /\ float_le dec infinity).
Proof.
  apply (view_contains_points [10%float; 20%float] [1e17%float; infinity]
           (20.1, 9.9)%float (1e17, infinity)%float);
    [repeat constructor..|reflexivity].
Defined.

(** ** percent: degenerate sequences and fractions outside [0, 1] *)

Lemma extremes_all_eq {A} `{PyNumber A} (x : A) (rest : list A) :
  py_lt x x = false -> Forall (eq x) rest ->
  min_from x rest = x /\ max_from x rest = x.
Proof.
  intros Hirr Hall. induction Hall as [|y rest <- _ [IHm IHM]]; [done|].
  rewrite min_from_cons, max_from_cons, Hirr. done.
Qed.

Lemma ltb_irrefl (x : float) : (x <? x)%float = false.
Proof.
  rewrite ltb_spec. unfold SFltb.
  destruct (Prim2SF x) as [s|s| |s m e]; try done; try by destruct s.
  cbn [SFcompare]. rewrite Z.compare_refl.
  destruct s; by rewrite Pos.compare_cont_refl.
Qed.

Lemma SFsub_diag x : SFfinite x = true -> SF64sub x x = S754_zero false.
Proof.
  destruct x as [s|s| |s m e]; try discriminate; intros _.
  - by destruct s.
  - unfold SF64sub, SFsub. cbv zeta. by rewrite Z.sub_diag.
Qed.

Lemma SFadd_mul_zero (x p : spec_float) :
  SFfinite x = true -> SFfinite p = true ->
  SFeqb (SF64add x (SF64mul p (S754_zero false))) x = true.
Proof.
  intros Hx Hp.
  destruct p as [sp|sp| |sp mp ep]; try discriminate;
    destruct x as [sx|sx| |sx mx ex]; try discriminate.
  - by destruct sx, sp.
  - apply (SFeqb_refl_finite (S754_finite sx mx ex)). reflexivity.
  - by destruct sx, sp.
  - apply (SFeqb_refl_finite (S754_finite sx mx ex)). reflexivity.
Qed.

Lemma interpolate_diag_float (x p : float) :
  finite64 x = true -> finite64 p = true ->
  (x + p * (x - x) =? x)%float = true.
Proof.
  intros Fx Fp.
  rewrite FloatAxioms.eqb_spec, add_spec, mul_spec, sub_spec.
  rewrite SFsub_diag by exact Fx. by apply SFadd_mul_zero.
Qed.

(** X13: on a sequence whose values are all the same number [x],
    [percent] returns [x] for every fraction: exactly for rationals, and for
    floats a value [== x] when [x] and the fraction are finite. *)
Theorem percent_degenerate :
  (forall (x : Qc) (rest : list Qc) (p : Qc),
     Forall (eq x) rest -> percent (x :: rest) p = Ok x) /\
  (forall (x : float) (rest : list float) (p : float),
     Forall (eq x) rest -> finite64 x = true -> finite64 p = true ->
     exists r, percent (x :: rest) p = Ok r /\ py_eq r x = true).
Proof.
  split.
  - intros x rest p Hall.
    destruct (extremes_all_eq x rest) as [Hm HM]; [|done|].
    { cbn. apply bool_decide_eq_false. intros Hlt.
      apply (Qclt_not_le _ _ Hlt), Qcle_refl. }
    unfold percent. cbn [py_min py_max rbind]. rewrite Hm, HM. f_equal.
    cbn. ring.
  - intros x rest p Hall Fx Fp.
    destruct (extremes_all_eq x rest) as [Hm HM];
      [exact (ltb_irrefl x)|done|].
    rewrite percent_cons, Hm, HM. eexists. split; [reflexivity|].
    by apply interpolate_diag_float.
Qed.

Lemma percent_degenerate_witness :
  percent [half; half; half] two = Ok half /\
  exists r,
    percent [0.1%float; 0.1%float] 0.9%float = Ok r /\ py_eq r 0.1%float = true.
Proof.
  split.
  - apply (proj1 percent_degenerate). by repeat constructor.
  - apply (proj2 percent_degenerate); [by repeat constructor|reflexivity..].
Defined.

Lemma eqb_rank (x y : float) :
  (x =? y)%float = true ->
  no_nan x /\ no_nan y /\ SFrank (Prim2SF x) = SFrank (Prim2SF y).
Proof.
  rewrite FloatAxioms.eqb_spec. unfold SFeqb, no_nan, nan64. intros Heq.
  destruct (SFnan (Prim2SF x)) eqn:Nx.
  { by destruct (Prim2SF x). }
  destruct (SFnan (Prim2SF y)) eqn:Ny.
  { destruct (Prim2SF y); try discriminate.
    by destruct (Prim2SF x) as [[]|[]| |[]]. }
  destruct (SFcompare_rank _ _ Nx Ny) as (c & Hc & Hrank).
  rewrite Hc in Heq. by destruct c.
Qed.

Lemma interpolate_below (m M p : Qc) :
  (p <= 0)%Qc -> (m <= M)%Qc -> (m + p * (M - m) <= m)%Qc.
Proof.
  intros Hp HmM. pose proof (interpolate_mono m M p 0 Hp HmM) as Hle.
  by replace (m + 0 * (M - m))%Qc with m in Hle by ring.
Qed.

Lemma interpolate_above (m M p : Qc) :
  (1 <= p)%Qc -> (m <= M)%Qc -> (M <= m + p * (M - m))%Qc.
Proof.
  intros Hp HmM. pose proof (interpolate_mono m M 1 p Hp HmM) as Hle.
  by replace (m + 1 * (M - m))%Qc with M in Hle by ring.
Qed.

(** X14: [percent] does not clamp its fraction.  For rationals a fraction
    [p <= 0] gives a value at or below the min and a fraction [p >= 1] a
    value at or above the max; for floats without a NaN and with a finite
    spread, a finite fraction [p <= 0.0] gives a value at or below the
    min. *)
Theorem percent_extrapolates :
  (forall (values : list Qc) (p : Qc),
     values <> [] ->
     exists m M r,
       py_min values = Ok m /\ py_max values = Ok M /\
       percent values p = Ok r /\
       ((p <= 0)%Qc -> (r <= m)%Qc) /\ ((1 <= p)%Qc -> (M <= r)%Qc)) /\
  (forall (values : list float) (p : float),
     Forall no_nan values -> finite_spread values ->
     finite64 p = true -> float_le p 0 ->
     exists m r,
       py_min values = Ok m /\ percent values p = Ok r /\ float_le r m).
Proof.
  split.
  - intros values p (first & rest & ->)%nonempty_cons.
    exists (min_from first rest), (max_from first rest). eexists.
    repeat split; try reflexivity.
    + intros Hp. apply interpolate_below; [done|apply min_le_max].
    + intros Hp. apply interpolate_above; [done|apply min_le_max].
  - intros [|first rest] p Hall (m & M & Hm & HM & Hfin) Fp Hp;
      [discriminate|].
    injection Hm as <-. injection HM as <-.
    destruct (min_le_max_float first rest Hall) as (Nm & NM & Hle).
    do 2 eexists. rewrite percent_cons.
    split; [reflexivity|]. split; [reflexivity|].
    pose proof (interpolate_float_mono _ _ Nm NM Hle Hfin p 0%float Fp
                  eq_refl Hp) as Hmono.
    destruct (eqb_rank _ _ (interpolate_zero_float _ _ Hfin))
      as (N0 & _ & Hrank).
    apply float_le_SFle; [by apply interpolate_no_nan|done|].
    apply float_le_SFle in Hmono; [|by apply interpolate_no_nan|done].
    unfold SFle in *. by rewrite <- Hrank.
Qed.

Lemma percent_extrapolates_witness :
  (exists m M r,
     py_min [1%Qc; half; two] = Ok m /\ py_max [1%Qc; half; two] = Ok M /\
     percent [1%Qc; half; two] two = Ok r /\
     ((two <= 0)%Qc -> (r <= m)%Qc) /\ ((1 <= two)%Qc -> (M <= r)%Qc)) /\
  (exists m r,
     py_min [(-3)%float; 0.1%float] = Ok m /\
     percent [(-3)%float; 0.1%float] (-0.5)%float = Ok r /\ float_le r m).
Proof.
  split.
  - apply (proj1 percent_extrapolates). discriminate.
  - apply (proj2 percent_extrapolates); try reflexivity.
    + by repeat constructor.
    + do 2 eexists. repeat split; reflexivity.
Defined.

(** ** percent: only the extremes matter, and affine maps commute with it *)

Lemma min_from_unique (first : Qc) rest m :
  m ∈ first :: rest -> (forall x, x ∈ first :: rest -> (m <= x)%Qc) ->
  min_from first rest = m.
Proof.
  intros Hin Hle. destruct (min_from_spec rest first) as [Hin' Hle'].
  apply Qcle_antisym; [by apply Hle'|by apply Hle].
Qed.

Lemma max_from_unique (first : Qc) rest M :
  M ∈ first :: rest -> (forall x, x ∈ first :: rest -> (x <= M)%Qc) ->
  max_from first rest = M.
Proof.
  intros Hin Hle. destruct (max_from_spec rest first) as [Hin' Hle'].
  apply Qcle_antisym; [by apply Hle|by apply Hle'].
Qed.

Lemma percent_Qc_cons (first : Qc) rest p :
  percent (first :: rest) p
  = Ok (min_from first rest
        + p * (max_from first rest - min_from first rest))%Qc.
Proof. reflexivity. Qed.

(** X15: for rationals [percent] depends on the values only through the
    set of them: two sequences with the same elements, in any order and
    with any repetitions, give the same result (and both raise when
    empty). *)
Theorem percent_same_values (values values' : list Qc) (p : Qc) :
  (forall x, x ∈ values <-> x ∈ values') ->
  percent values p = percent values' p.
Proof.
  intros Hsame. destruct values as [|a l], values' as [|b l'].
  - done.
  - exfalso. by apply (elem_of_nil b), Hsame; left.
  - exfalso. by apply (elem_of_nil a), Hsame; left.
  - rewrite !percent_Qc_cons.
    destruct (min_from_spec l a) as [Hm Hmin].
    destruct (max_from_spec l a) as [HM Hmax].
    rewrite (min_from_unique b l' (min_from a l)),
            (max_from_unique b l' (max_from a l)); [done|..].
    + by apply Hsame.
    + intros x Hx. by apply Hmax, Hsame.
    + by apply Hsame.
    + intros x Hx. by apply Hmin, Hsame.
Qed.

Lemma percent_same_values_witness :
  percent [1%Qc; half; two] half = percent [two; half; 1%Qc; half; two] half.
Proof.
  apply (percent_same_values [1%Qc; half; two] [two; half; 1%Qc; half; two]).
  intros x. rewrite !elem_of_cons, !elem_of_nil. tauto.
Defined.

Lemma extremes_map_mono (f : Qc -> Qc) first rest :
  (forall x y, (x <= y)%Qc -> (f x <= f y)%Qc) ->
  min_from (f first) (map f rest) = f (min_from first rest) /\
  max_from (f first) (map f rest) = f (max_from first rest).
Proof.
  intros Hmono.
  destruct (min_from_spec rest first) as [Hm Hmin].
  destruct (max_from_spec rest first) as [HM Hmax].
  split.
  - apply min_from_unique.
    + change (f first :: map f rest) with (f <$> first :: rest).
      by apply list_elem_of_fmap_2.
    + change (f first :: map f rest) with (f <$> first :: rest).
      intros y (x & -> & Hx)%list_elem_of_fmap_1. by apply Hmono, Hmin.
  - apply max_from_unique.
    + change (f first :: map f rest) with (f <$> first :: rest).
      by apply list_elem_of_fmap_2.
    + change (f first :: map f rest) with (f <$> first :: rest).
      intros y (x & -> & Hx)%list_elem_of_fmap_1. by apply Hmono, Hmax.
Qed.

Lemma extremes_map_anti (f : Qc -> Qc) first rest :
  (forall x y, (x <= y)%Qc -> (f y <= f x)%Qc) ->
  min_from (f first) (map f rest) = f (max_from first rest) /\
  max_from (f first) (map f rest) = f (min_from first rest).
Proof.
  intros Hanti.
  destruct (min_from_spec rest first) as [Hm Hmin].
  destruct (max_from_spec rest first) as [HM Hmax].
  split.
  - apply min_from_unique.
    + change (f first :: map f rest) with (f <$> first :: rest).
      by apply list_elem_of_fmap_2.
    + change (f first :: map f rest) with (f <$> first :: rest).
      intros y (x & -> & Hx)%list_elem_of_fmap_1. by apply Hanti, Hmax.
  - apply max_from_unique.
    + change (f first :: map f rest) with (f <$> first :: rest).
      by apply list_elem_of_fmap_2.
    + change (f first :: map f rest) with (f <$> first :: rest).
      intros y (x & -> & Hx)%list_elem_of_fmap_1. by apply Hanti, Hmin.
Qed.

Lemma Qcmult_le_l (k x y : Qc) :
  (0 <= k)%Qc -> (x <= y)%Qc -> (k * x <= k * y)%Qc.
Proof.
  intros Hk Hxy. rewrite !(Qcmult_comm k). by apply Qcmult_le_compat_r.
Qed.

Lemma Qcmult_le_l_neg (k x y : Qc) :
  (k <= 0)%Qc -> (x <= y)%Qc -> (k * y <= k * x)%Qc.
Proof.
  intros Hk Hxy. apply Qcle_minus_iff.
  replace (k * x + - (k * y))%Qc with ((- k) * (y + - x))%Qc by ring.
  replace 0%Qc with ((- k) * 0)%Qc by ring.
  apply Qcmult_le_l.
  - apply Qcle_minus_iff in Hk. by replace (0 + - k)%Qc with (- k)%Qc in Hk by ring.
  - by apply (proj1 (Qcle_minus_iff x y)).
Qed.

(** X16: for rationals, [percent] commutes with the affine maps of the
    values: adding [c] to every value adds [c] to the result, multiplying
    every value by [k >= 0] multiplies the result by [k], and multiplying
    by [k <= 0] gives [k] times the result for the fraction [1 - p]. *)
Theorem percent_affine (values : list Qc) (p : Qc) :
  values <> [] ->
  exists r r',
    percent values p = Ok r /\ percent values (1 - p)%Qc = Ok r' /\
    (forall c, percent (map (fun v => v + c) values) p = Ok (r + c))%Qc /\
    (forall k, 0 <= k ->
       percent (map (fun v => k * v) values) p = Ok (k * r))%Qc /\
    (forall k, k <= 0 ->
       percent (map (fun v => k * v) values) p = Ok (k * r'))%Qc.
Proof.
  intros (first & rest & ->)%nonempty_cons.
  exists (min_from first rest
          + p * (max_from first rest - min_from first rest))%Qc,
         (min_from first rest
          + (1 - p) * (max_from first rest - min_from first rest))%Qc.
  split; [reflexivity|]. split; [reflexivity|]. cbn [map].
  split; [|split].
  - intros c. rewrite percent_Qc_cons.
    destruct (extremes_map_mono (fun v => v + c)%Qc first rest) as [-> ->].
    { intros x y Hxy. by apply Qcplus_le_compat. }
    f_equal. ring.
  - intros k Hk. rewrite percent_Qc_cons.
    destruct (extremes_map_mono (fun v => k * v)%Qc first rest) as [-> ->].
    { intros x y Hxy. by apply Qcmult_le_l. }
    f_equal. ring.
  - intros k Hk. rewrite percent_Qc_cons.
    destruct (extremes_map_anti (fun v => k * v)%Qc first rest) as [-> ->].
    { intros x y Hxy. by apply Qcmult_le_l_neg. }
    f_equal. ring.
Qed.

Lemma percent_affine_witness :
  exists r r',
    percent [1%Qc; half; two] half = Ok r /\
    percent [1%Qc; half; two] (1 - half)%Qc = Ok r' /\
    (forall c, percent (map (fun v => v + c) [1%Qc; half; two]) half
               = Ok (r + c))%Qc /\
    (forall k, 0 <= k ->
       percent (map (fun v => k * v) [1%Qc; half; two]) half = Ok (k * r))%Qc /\
    (forall k, k <= 0 ->
       percent (map (fun v => k * v) [1%Qc; half; two]) half = Ok (k * r'))%Qc.
Proof. apply (percent_affine [1%Qc; half; two] half). discriminate. Defined.

(** ** Where the labels and the footprints lie *)

Lemma ltb_no_nan (x y : float) :
  (x <? y)%float = true -> no_nan x /\ no_nan y.
Proof.
  rewrite ltb_spec. unfold SFltb, no_nan, nan64.
  destruct (Prim2SF x) as [[]|[]| |[]], (Prim2SF y) as [[]|[]| |[]]; done.
Qed.

Lemma ltb_le_trans (a b c : float) :
  (a <? b)%float = true -> float_le b c -> no_nan c -> (a <? c)%float = true.
Proof.
  intros Hab Hbc Nc. destruct (ltb_no_nan _ _ Hab) as [Na Nb].
  apply ltb_rank in Hab; [|done..]. apply leb_rank in Hbc; [|done..].
  apply ltb_rank; [done..|].
  revert Hab Hbc. unfold lex_lt.
  destruct (SFrank (Prim2SF a)) as [[a1 a2] a3],
           (SFrank (Prim2SF b)) as [[b1 b2] b3],
           (SFrank (Prim2SF c)) as [[c1 c2] c3].
  cbn. lia.
Qed.

(** X17: a label of the overlay is anchored strictly inside the x limits
    and, when the Dec values of its patch hold no NaN and have a finite
    spread, strictly above the lower y limit: its height, the point 0.9 of
    the way up the patch, is not below the mid point that was tested.
    Nothing keeps it below the upper y limit. *)
Theorem label_anchor xlim ylim tract patch ra dec x y s fontsize ha va :
  bboxToRaDec (getInnerBBox patch) (getWcs tract) = Ok (ra, dec) ->
  Forall no_nan dec -> finite_spread dec ->
  Text x y s fontsize ha va ∈ patch_calls xlim ylim tract patch ->
  percent ra 0.5%float = Ok x /\ percent dec 0.9%float = Ok y /\
  (xlim.2 <? x)%float = true /\ (x <? xlim.1)%float = true /\
  (ylim.1 <? y)%float = true.
Proof.
  intros Hproj Hall (m & M & Hm & HM & Hfin) Hin.
  destruct (patch_calls_projected xlim ylim tract patch ra dec Hproj)
    as (mid_ra & mid_dec & y0 & Hmid_ra & Hmid_dec & Hy0 & Hcalls).
  rewrite Hcalls in Hin. apply elem_of_cons in Hin as [Habs|Hin];
    [discriminate|].
  destruct (inside xlim ylim mid_ra mid_dec) eqn:Hinside;
    [|by apply elem_of_nil in Hin].
  apply list_elem_of_singleton in Hin. injection Hin as -> -> _ _ _ _.
  unfold inside in Hinside.
  apply andb_true_iff in Hinside as [[Hx1 Hx2]%andb_true_iff
                                     [Hy1 Hy2]%andb_true_iff].
  repeat split; try done.
  destruct dec as [|d ds]; [discriminate|].
  injection Hm as <-. injection HM as <-.
  destruct (min_le_max_float d ds Hall) as (Nm & NM & Hle).
  rewrite percent_cons in Hmid_dec, Hy0.
  injection Hmid_dec as <-. injection Hy0 as <-.
  apply ltb_le_trans with (min_from d ds + 0.5 * (max_from d ds - min_from d ds))%float;
    [done| |by apply interpolate_no_nan].
  by apply interpolate_float_mono.
Qed.

Lemma label_anchor_witness :
  percent [20; 30; 30; 20]%float 0.5%float = Ok 25%float /\
  percent [0; 0; 10; 10]%float 0.9%float = Ok 9%float /\
  (10 <? 25)%float = true /\ (25 <? 40)%float = true /\
  (-5 <? 9)%float = true.
Proof.
  apply (label_anchor (40, 10)%float (-5, 15)%float example_tract
           {| getInnerBBox := box 20 0 30 10; getIndex := (0, 0) |}
           [20; 30; 30; 20]%float [0; 0; 10; 10]%float 25%float 9%float
           "(0, 0)" 6 "center" "top").
  - reflexivity.
  - by repeat constructor.
  - do 2 eexists. repeat split; reflexivity.
  - vm_compute. right. left.
Defined.

Lemma pair_events_fill env butler ccdKey i_v visit ccd ra dec style :
  EPlot (Fill ra dec style) ∈ pair_events env butler ccdKey i_v visit ccd ->
  pair_ras env butler ccdKey visit ccd = ra /\
  pair_decs env butler ccdKey visit ccd = dec.
Proof.
  unfold pair_events, pair_ras, pair_decs.
  destruct (footprint _ _ _ _ _) as [[ra0 dec0]|e].
  - rewrite !elem_of_cons, elem_of_nil.
    intros [Hget|[[= -> -> _]|[]]]; [discriminate|done].
  - rewrite elem_of_cons, elem_of_nil. intros [Hget|[]]. discriminate.
Qed.

Lemma loop_fill_points env butler ccds ccdKey visits ra dec style :
  EPlot (Fill ra dec style)
    ∈ flat_map (visit_events env butler ccds ccdKey) (enumerate visits) ->
  ra ⊆ flat_map (visit_ras env butler ccds ccdKey) (enumerate visits) /\
  dec ⊆ flat_map (visit_decs env butler ccds ccdKey) (enumerate visits).
Proof.
  intros (iv & Hiv & Hin)%elem_of_flat_map.
  unfold visit_events in Hin. apply elem_of_cons in Hin as [Habs|Hin];
    [discriminate|].
  apply elem_of_flat_map in Hin as (ccd & Hccd & Hin).
  apply pair_events_fill in Hin as [<- <-].
  split; intros v Hv; apply elem_of_flat_map; exists iv; (split; [done|]);
    apply elem_of_flat_map; by exists ccd.
Qed.

Lemma overlay_events_outlines butler xlim ylim showPatch ra dec style :
  EPlot (Fill ra dec style) ∈ overlay_events butler xlim ylim showPatch ->
  style = Outline "k" 1 "dashed".
Proof.
  unfold overlay_events. destruct showPatch; [|by intros ?%elem_of_nil].
  intros [Habs|Hin]%elem_of_cons; [discriminate|].
  destruct (butler_get _ _ _) as [[cards|tracts]|e];
    try by apply elem_of_nil in Hin.
  apply list_elem_of_fmap_1 in Hin as (call & [= <-] & Hin).
  apply elem_of_flat_map in Hin as (tract & _ & Hin).
  apply elem_of_flat_map in Hin as (patch & _ & Hin).
  unfold patch_calls in Hin.
  destruct (bboxToRaDec _ _) as [[ra0 dec0]|e]; [|by apply elem_of_nil in Hin].
  apply elem_of_cons in Hin as [[= _ _ ->]|Hin]; [done|].
  destruct (percent ra0 _); [|by apply elem_of_nil in Hin].
  destruct (percent dec0 _); [|by apply elem_of_nil in Hin].
  destruct (percent dec0 _); [|by apply elem_of_nil in Hin].
  destruct (inside _ _ _ _); [|by apply elem_of_nil in Hin].
  by apply list_elem_of_singleton in Hin.
Qed.

(** X18: in a run of [main] that ends normally and accumulated no NaN,
    every footprint that was filled lies within the limits the axes were
    set to: each of its RA values between [xlim[1]] and [xlim[0]], each of
    its Dec values between [ylim[0]] and [ylim[1]]. *)
Theorem footprints_in_view env rootDir tract visits ccds ccdKey showPatch
    saveFile s' :
  main env rootDir tract visits ccds ccdKey showPatch saveFile init
  = (s', Ok tt) ->
  Forall no_nan (ras s') -> Forall no_nan (decs s') ->
  exists xlim ylim,
    EPlot (SetXlim xlim) ∈ trace s' /\ EPlot (SetYlim ylim) ∈ trace s' /\
    forall ra dec alpha color edgecolor,
      EPlot (Fill ra dec (Filled alpha color edgecolor)) ∈ trace s' ->
      (forall r, r ∈ ra -> float_le xlim.2 r /\ float_le r xlim.1) /\
      (forall d, d ∈ dec -> float_le ylim.1 d /\ float_le d ylim.2).
Proof.
  intros (butler & xlim & ylim & Hopen & Hras & Hdecs & Hlim & Htrace)%main_ok
    Nras Ndecs.
  exists xlim, ylim. rewrite Htrace.
  split; [|split].
  - apply elem_of_app. right. apply elem_of_app. right.
    cbn. do 3 right. left.
  - apply elem_of_app. right. apply elem_of_app. right.
    cbn. do 4 right. left.
  - intros ra dec alpha color edgecolor Hin.
    apply elem_of_app in Hin as [Hin|Hin].
    + apply loop_fill_points in Hin as [Hra Hdec].
      rewrite <- Hras in Hra. rewrite <- Hdecs in Hdec.
      unfold view_limits in Hlim.
      destruct (ras s') as [|r0 rs]; [discriminate|].
      destruct (decs s') as [|d0 ds]; [discriminate|].
      cbn in Hlim. injection Hlim as <- <-. cbn [fst snd]. split.
      * intros r Hr. apply limits_contain; [done|by apply Hra].
      * intros d Hd. apply limits_contain; [done|by apply Hdec].
    + apply elem_of_app in Hin as [Hin|Hin].
      * by apply overlay_events_outlines in Hin.
      * exfalso. unfold render_calls in Hin. cbn [map] in Hin.
        rewrite !elem_of_cons, elem_of_nil in Hin.
        repeat (destruct Hin as [Hin|Hin]; [by destruct saveFile|]). done.
Qed.

Lemma footprints_in_view_witness :
  exists xlim ylim,
    EPlot (SetXlim xlim)
      ∈ trace (main example_env "repo" 0 [100] (Some [2]) "ccd" false None
                 init).1 /\
    EPlot (SetYlim ylim)
      ∈ trace (main example_env "repo" 0 [100] (Some [2]) "ccd" false None
                 init).1 /\
    forall ra dec alpha color edgecolor,
      EPlot (Fill ra dec (Filled alpha color edgecolor))
        ∈ trace (main example_env "repo" 0 [100] (Some [2]) "ccd" false None
                   init).1 ->
      (forall r, r ∈ ra -> float_le xlim.2 r /\ float_le r xlim.1) /\
      (forall d, d ∈ dec -> float_le ylim.1 d /\ float_le d ylim.2).
Proof.
  apply (footprints_in_view example_env "repo" 0 [100] (Some [2]) "ccd" false
           None
           (main example_env "repo" 0 [100] (Some [2]) "ccd" false None
              init).1).
  - vm_compute. reflexivity.
  - vm_compute. by repeat constructor.
  - vm_compute. by repeat constructor.
Defined.

(** ** The sensor filter and the overlay flag *)

Lemma selected_same_ids l l' ccd :
  (forall z, z ∈ l <-> z ∈ l') ->
  selected (Some l) ccd = selected (Some l') ccd.
Proof.
  intros Hsame. unfold selected. f_equal.
  apply bool_decide_ext, Hsame.
Qed.

Lemma selected_ccds_same_ids butler l l' :
  (forall z, z ∈ l <-> z ∈ l') ->
  selected_ccds butler (Some l) = selected_ccds butler (Some l').
Proof.
  intros Hsame. unfold selected_ccds.
  induction (camera butler) as [|ccd cam IH]; [done|]. cbn [List.filter].
  by rewrite IH, (selected_same_ids l l' ccd Hsame).
Qed.

(** X19: the [ccds] filter acts as a set.  Two filters with the same ids,
    in any order and with any repetitions, give the same run of [main]:
    the sensors are taken in the order of the camera, not of the filter. *)
Theorem ccds_filter_is_a_set env rootDir tract visits l l' ccdKey showPatch
    saveFile s :
  (forall z, z ∈ l <-> z ∈ l') ->
  main env rootDir tract visits (Some l) ccdKey showPatch saveFile s
  = main env rootDir tract visits (Some l') ccdKey showPatch saveFile s.
Proof.
  intros Hsame. destruct (Butler env rootDir) as [butler|e] eqn:Hopen.
  - rewrite !(main_run _ _ _ _ _ _ _ _ butler) by done.
    rewrite !aggregate_run. unfold visit_ras, visit_decs, visit_events.
    by rewrite (selected_ccds_same_ids butler l l' Hsame).
  - by rewrite !(main_closed _ _ _ _ _ _ _ _ e).
Qed.

Lemma ccds_filter_is_a_set_witness :
  main example_env "repo" 0 [100] (Some [3; 1]) "ccd" false None init
  = main example_env "repo" 0 [100] (Some [1; 3; 3; 1]) "ccd" false None init.
Proof.
  apply (ccds_filter_is_a_set example_env "repo" 0 [100] [3; 1] [1; 3; 3; 1]).
  intros z. rewrite !elem_of_cons, !elem_of_nil. tauto.
Defined.

Lemma loop_events_no_overlay env butler ccds ccdKey visits call :
  EPlot call
    ∈ flat_map (visit_events env butler ccds ccdKey) (enumerate visits) ->
  ~ overlay_call call.
Proof.
  intros (iv & _ & Hin)%elem_of_flat_map.
  unfold visit_events in Hin. apply elem_of_cons in Hin as [Habs|Hin];
    [discriminate|].
  apply elem_of_flat_map in Hin as (ccd & _ & Hin).
  unfold pair_events in Hin. apply elem_of_cons in Hin as [Habs|Hin];
    [discriminate|].
  destruct (footprint _ _ _ _ _) as [[ra dec]|e]; [|by apply elem_of_nil in Hin].
  apply list_elem_of_singleton in Hin. injection Hin as ->. by intros [].
Qed.

Lemma render_calls_no_overlay xlim ylim saveFile t call :
  t `prefix_of` map EPlot (render_calls xlim ylim saveFile) ->
  EPlot call ∈ t -> ~ overlay_call call.
Proof.
  intros [k Hk] Hin.
  assert (EPlot call ∈ map EPlot (render_calls xlim ylim saveFile)) as Hall.
  { rewrite Hk. apply elem_of_app. by left. }
  apply list_elem_of_fmap_1 in Hall as (c & [= <-] & Hc).
  unfold render_calls in Hc. rewrite !elem_of_cons, elem_of_nil in Hc.
  repeat (destruct Hc as [->|Hc]; [destruct saveFile; by intros []|]). done.
Qed.

Lemma skymap_requests_prefix t l :
  t `prefix_of` l -> skymap_requests l = [] -> skymap_requests t = [].
Proof.
  intros [k ->]. rewrite skymap_requests_app. by intros [? _]%app_eq_nil.
Qed.

(** X20: without the [showPatch] flag a run of [main] never asks the
    repository for the sky map and draws no outline and no label, however
    it ends. *)
Theorem no_overlay_without_flag env rootDir tract visits ccds ccdKey saveFile :
  skymap_requests
    (trace (main env rootDir tract visits ccds ccdKey false saveFile init).1)
  = [] /\
  forall call,
    EPlot call
      ∈ trace (main env rootDir tract visits ccds ccdKey false saveFile
                 init).1 ->
    ~ overlay_call call.
Proof.
  destruct (Butler env rootDir) as [butler|e] eqn:Hopen.
  - rewrite (main_after_loop _ _ _ _ _ _ _ _ butler) by done.
    set (s1 := extend init _ _ _).
    pose proof (emits_aggregate env butler visits ccds ccdKey init)
      as (t0 & Ht0 & Hearly).
    rewrite aggregate_run in Ht0. cbn [fst extend trace init app] in Ht0.
    subst t0.
    destruct (view_limits (ras s1) (decs s1)) as [[xlim ylim]|e] eqn:Hlim.
    + destruct (finish_draws env butler false saveFile s1 xlim ylim Hlim)
        as (t & r & -> & Hpre & _).
      cbn [fst extend trace s1 init app overlay_events] in *. split.
      * rewrite skymap_requests_app, (skymap_requests_early _ Hearly).
        apply (skymap_requests_prefix _ _ Hpre), skymap_requests_plot.
        apply Forall_fmap, Forall_forall. by intros c _.
      * intros call [Hin|Hin]%elem_of_app.
        -- by apply loop_events_no_overlay in Hin.
        -- by apply (render_calls_no_overlay _ _ _ _ _ Hpre).
    + rewrite (finish_no_limits _ _ _ _ _ e) by done.
      cbn [fst extend trace s1 init app]. split.
      * by apply skymap_requests_early.
      * intros call Hin. by apply loop_events_no_overlay in Hin.
  - rewrite (main_closed _ _ _ _ _ _ _ _ e) by done. cbn. split; [done|].
    by intros call ?%elem_of_nil.
Qed.

(** ** The order of the visits and the view limits *)

Lemma lex_lt_antisym a b : ~ lex_lt a b -> ~ lex_lt b a -> a = b.
Proof.
  unfold lex_lt. destruct a as [[a1 a2] a3], b as [[b1 b2] b3]. cbn.
  intros Hab Hba. repeat f_equal; lia.
Qed.

Lemma SFrank_eq_cases a b :
  SFnan a = false -> SFnan b = false -> SFrank a = SFrank b ->
  a = b \/ exists s s', a = S754_zero s /\ b = S754_zero s'.
Proof.
  intros Na Nb.
  destruct a as [sa|sa| |sa ma ea]; try discriminate;
    destruct b as [sb|sb| |sb mb eb]; try discriminate;
    try destruct sa; try destruct sb; cbn [SFrank];
    intros Heq; try discriminate; try (by left); try (right; by eauto).
  - left. injection Heq as He Hm. f_equal; lia.
  - left. injection Heq as -> ->. done.
Qed.

Lemma Prim2SF_inj (x y : float) : Prim2SF x = Prim2SF y -> x = y.
Proof.
  intros Heq. rewrite <- (SF2Prim_Prim2SF x), <- (SF2Prim_Prim2SF y).
  by rewrite Heq.
Qed.

Lemma buff_SF : exists m e, Prim2SF buff = S754_finite false m e.
Proof. vm_compute. eauto. Qed.

Lemma add_buff_rank (x y : float) :
  no_nan x -> no_nan y -> SFrank (Prim2SF x) = SFrank (Prim2SF y) ->
  (x + buff)%float = (y + buff)%float.
Proof.
  intros Nx Ny Hrank. apply Prim2SF_inj. rewrite !add_spec.
  destruct buff_SF as (m & e & ->).
  destruct (SFrank_eq_cases _ _ Nx Ny Hrank) as [->|(s & s' & -> & ->)]; done.
Qed.

Lemma sub_buff_rank (x y : float) :
  no_nan x -> no_nan y -> SFrank (Prim2SF x) = SFrank (Prim2SF y) ->
  (x - buff)%float = (y - buff)%float.
Proof.
  intros Nx Ny Hrank. apply Prim2SF_inj. rewrite !sub_spec.
  destruct buff_SF as (m & e & ->).
  destruct (SFrank_eq_cases _ _ Nx Ny Hrank) as [->|(s & s' & -> & ->)]; done.
Qed.

Lemma extremes_perm first rest first' rest' :
  first :: rest ≡ₚ first' :: rest' -> Forall no_nan (first :: rest) ->
  SFrank (Prim2SF (min_from first rest))
  = SFrank (Prim2SF (min_from first' rest')) /\
  SFrank (Prim2SF (max_from first rest))
  = SFrank (Prim2SF (max_from first' rest')).
Proof.
  intros Hperm Hall.
  assert (Forall no_nan (first' :: rest')) as Hall' by by rewrite <- Hperm.
  destruct (min_from_float first rest Hall) as [Hm Hmin].
  destruct (max_from_float first rest Hall) as [HM Hmax].
  destruct (min_from_float first' rest' Hall') as [Hm' Hmin'].
  destruct (max_from_float first' rest' Hall') as [HM' Hmax'].
  rewrite Forall_forall in Hall, Hall'.
  split; apply lex_lt_antisym.
  - apply leb_rank; [by apply Hall'|by apply Hall|].
    apply Hmin'. by rewrite <- Hperm.
  - apply leb_rank; [by apply Hall|by apply Hall'|].
    apply Hmin. by rewrite Hperm.
  - apply leb_rank; [by apply Hall'|by apply Hall|].
    apply Hmax. by rewrite Hperm.
  - apply leb_rank; [by apply Hall|by apply Hall'|].
    apply Hmax'. by rewrite <- Hperm.
Qed.

Lemma view_limits_cons r rs d ds :
  view_limits (r :: rs) (d :: ds)
  = Ok ((max_from r rs + buff, min_from r rs - buff)%float,
        (min_from d ds - buff, max_from d ds + buff)%float).
Proof. reflexivity. Qed.

Lemma loop_points_perm {A} (g : Z -> list A) (visits visits' : list Z) :
  visits ≡ₚ visits' ->
  flat_map (fun iv : nat * Z => g iv.2) (enumerate visits)
  ≡ₚ flat_map (fun iv : nat * Z => g iv.2) (enumerate visits').
Proof.
  intros Hperm. unfold enumerate. rewrite !flat_map_enumerate_from.
  by apply Permutation_flat_map.
Qed.

(** X21: the view limits do not depend on the order in which the points
    were accumulated, when none is a NaN; and the loop accumulates the same
    points, in another order, when the visits are given in another order.
    So the order of the visits (that of a set, after [splitId]) changes the
    colours and the progress lines of a run but not its view limits. *)
Theorem view_order_independent :
  (forall ras ras' decs decs' : list float,
     ras ≡ₚ ras' -> decs ≡ₚ decs' ->
     Forall no_nan ras -> Forall no_nan decs ->
     view_limits ras decs = view_limits ras' decs') /\
  (forall env butler visits visits' ccds ccdKey,
     visits ≡ₚ visits' ->
     ras (aggregate env butler visits ccds ccdKey init).1
     ≡ₚ ras (aggregate env butler visits' ccds ccdKey init).1 /\
     decs (aggregate env butler visits ccds ccdKey init).1
     ≡ₚ decs (aggregate env butler visits' ccds ccdKey init).1).
Proof.
  split.
  - intros ras ras' decs decs' Hras Hdecs Nras Ndecs.
    destruct ras as [|r rs], ras' as [|r' rs'].
    + done.
    + by apply Permutation_nil_cons in Hras.
    + symmetry in Hras. by apply Permutation_nil_cons in Hras.
    + destruct decs as [|d ds], decs' as [|d' ds'].
      * done.
      * by apply Permutation_nil_cons in Hdecs.
      * symmetry in Hdecs. by apply Permutation_nil_cons in Hdecs.
      * rewrite !view_limits_cons.
        destruct (extremes_perm r rs r' rs' Hras Nras) as [Hm HM].
        destruct (extremes_perm d ds d' ds' Hdecs Ndecs) as [Hm' HM'].
        assert (Forall no_nan (r' :: rs')) as Nras' by by rewrite <- Hras.
        assert (Forall no_nan (d' :: ds')) as Ndecs' by by rewrite <- Hdecs.
        destruct (min_le_max_float r rs Nras) as (N1 & N2 & _).
        destruct (min_le_max_float r' rs' Nras') as (N3 & N4 & _).
        destruct (min_le_max_float d ds Ndecs) as (N5 & N6 & _).
        destruct (min_le_max_float d' ds' Ndecs') as (N7 & N8 & _).
        by rewrite (add_buff_rank _ _ N2 N4 HM), (sub_buff_rank _ _ N1 N3 Hm),
          (sub_buff_rank _ _ N5 N7 Hm'), (add_buff_rank _ _ N6 N8 HM').
  - intros env butler visits visits' ccds ccdKey Hperm.
    rewrite !aggregate_run. cbn [fst extend ras decs init app].
    split.
    + by apply (loop_points_perm
                  (fun visit => flat_map (pair_ras env butler ccdKey visit)
                                  (selected_ccds butler ccds))).
    + by apply (loop_points_perm
                  (fun visit => flat_map (pair_decs env butler ccdKey visit)
                                  (selected_ccds butler ccds))).
Qed.

Lemma view_order_independent_witness :
  view_limits [10%float; 20%float; 0%float] [30%float; 40%float]
  = view_limits [0%float; 20%float; 10%float] [40%float; 30%float] /\
  ras (aggregate example_env example_butler [100; 7] None "ccd" init).1
  ≡ₚ ras (aggregate example_env example_butler [7; 100] None "ccd" init).1.
Proof.
  split.
  - apply (proj1 view_order_independent); try by repeat constructor.
    transitivity [10%float; 0%float; 20%float];
        [apply perm_skip, perm_swap|].
      transitivity [0%float; 10%float; 20%float]; [apply perm_swap|].
      apply perm_skip, perm_swap.
  - apply (proj2 view_order_independent example_env example_butler
             [100; 7] [7; 100] None "ccd"), perm_swap.
Defined.

